(** * Maestro timer call-site profiler: a shallow embedding and its properties

    The development embeds [scripts/performance-profiler.js] (the CLI
    profiler) and the console snippet of the performance debugging guide.

    - JavaScript strings are sequences of UTF-16 code units ([list N]).
    - The one regular expression of the program is embedded as a syntax tree
      and run by a backtracking matcher with the priorities of ECMAScript
      (greedy, lazy, optional, leftmost start).
    - The [Map] of statistics is an association list in insertion order, the
      [Set] of active timers a [gset].
    - Host primitives (the original timer functions, [new Error().stack],
      [console.log]) are answered by an explicit environment.
    - The counts are natural numbers; the percentages are computed in
      binary64, a double being the rational it denotes and every operation
      rounding its exact result to the nearest double. *)

From Stdlib Require Import NArith ZArith QArith Qround Qpower Lia Lqa String Ascii.
From Stdlib Require Import SpecFloat.
From stdpp Require Import base tactics option list sorting gmap sets.

Local Open Scope N_scope.

(** ** JavaScript strings *)

Module JsString.

(** A string is its sequence of UTF-16 code units. *)
Definition jsstring := list N.

(** A literal of the source, written as a Rocq string (ASCII only). *)
Definition js (s : string) : jsstring :=
  map N_of_ascii (list_ascii_of_string s).

(** The line feed of ['\n']. *)
Definition LF : N := 10.

(** [WhiteSpace] and [LineTerminator] of ECMAScript: the code units that
    [String.prototype.trim] strips and that [\s] matches. *)
Definition isWhiteSpace (c : N) : bool :=
  (c =? 9) || (c =? 10) || (c =? 11) || (c =? 12) || (c =? 13) || (c =? 32)
  || (c =? 160) || (c =? 0x1680) || ((0x2000 <=? c) && (c <=? 0x200A))
  || (c =? 0x2028) || (c =? 0x2029) || (c =? 0x202F) || (c =? 0x205F)
  || (c =? 0x3000) || (c =? 0xFEFF).

(** [\d]: the ten ASCII digits. *)
Definition isDigit (c : N) : bool := (48 <=? c) && (c <=? 57).

Fixpoint eqb (a b : jsstring) : bool :=
  match a, b with
  | [], [] => true
  | x :: a', y :: b' => (x =? y) && eqb a' b'
  | _, _ => false
  end.

(** [s.split(sep)] for a one-unit separator: never the empty array. *)
Fixpoint split (sep : N) (s : jsstring) : list jsstring :=
  match s with
  | [] => [[]]
  | c :: r =>
      if c =? sep then [] :: split sep r
      else match split sep r with
           | h :: t => (c :: h) :: t
           | [] => [[c]]
           end
  end.

Fixpoint trimStart (s : jsstring) : jsstring :=
  match s with
  | c :: r => if isWhiteSpace c then trimStart r else s
  | [] => []
  end.

Definition trimEnd (s : jsstring) : jsstring := rev (trimStart (rev s)).

(** [s.trim()] *)
Definition trim (s : jsstring) : jsstring := trimEnd (trimStart s).

(** [s.startsWith(p)] *)
Fixpoint startsWith (p s : jsstring) : bool :=
  match p, s with
  | [], _ => true
  | x :: p', y :: s' => (x =? y) && startsWith p' s'
  | _ :: _, [] => false
  end.

(** [arr.pop()] on a fresh array: its last element. *)
Definition pop (l : list jsstring) : jsstring := List.last l [].

(** Truthiness of a string: non-empty. *)
Definition truthy (s : jsstring) : bool :=
  match s with [] => false | _ => true end.

(** [a || b] on strings. *)
Definition orElse (a b : jsstring) : jsstring := if truthy a then a else b.

End JsString.
Export JsString.

(** ** Regular expressions *)

Module Regex.

(** The fragment of ECMAScript patterns the program uses.  Quantifiers
    apply to one-unit classes, or are the greedy [?]. *)
Inductive regex : Type :=
| Chr (c : N)                      (* a literal code unit *)
| PlusGreedy (p : N → bool)        (* [cls+] *)
| PlusLazy (p : N → bool)          (* [cls+?] *)
| Opt (r : regex)                  (* [r?], greedy *)
| Seq (r1 r2 : regex)              (* [r1 r2] *)
| Group (n : nat) (r : regex).     (* the n-th capturing group *)

(** The array of a match: index 0 is the whole match, index n the n-th
    group; [None] is [undefined]. *)
Abbreviation captures := (list (option jsstring)).

Definition cont := jsstring → captures → option captures.

(** [cls*] greedy: the longest run first, then shorter ones. *)
Fixpoint starGreedy (p : N → bool) (s : jsstring)
    (k : jsstring → option captures) : option captures :=
  match s with
  | c :: s' =>
      if p c then
        match starGreedy p s' k with
        | Some m => Some m
        | None => k s
        end
      else k s
  | [] => k []
  end.

(** [cls*?] lazy: the shortest run first, then longer ones. *)
Fixpoint starLazy (p : N → bool) (s : jsstring)
    (k : jsstring → option captures) : option captures :=
  match k s with
  | Some m => Some m
  | None =>
      match s with
      | c :: s' => if p c then starLazy p s' k else None
      | [] => None
      end
  end.

(** Backtracking matcher in continuation-passing style: [k] is the rest
    of the pattern; the first success in priority order wins. *)
Fixpoint rmatch (r : regex) (s : jsstring) (caps : captures) (k : cont)
    : option captures :=
  match r with
  | Chr c =>
      match s with
      | x :: s' => if x =? c then k s' caps else None
      | [] => None
      end
  | PlusGreedy p =>
      match s with
      | x :: s' => if p x then starGreedy p s' (λ t, k t caps) else None
      | [] => None
      end
  | PlusLazy p =>
      match s with
      | x :: s' => if p x then starLazy p s' (λ t, k t caps) else None
      | [] => None
      end
  | Opt r1 =>
      match rmatch r1 s caps k with
      | Some m => Some m
      | None => k s caps
      end
  | Seq r1 r2 => rmatch r1 s caps (λ t caps', rmatch r2 t caps' k)
  | Group n r1 =>
      rmatch r1 s caps
        (λ t caps', k t (<[n := Some (take (length s - length t) s)]> caps'))
  end.

(** [s.match(r)] for a pattern without the [g] flag: the match at the
    leftmost start position, [None] for [null]. *)
Fixpoint exec (ngroups : nat) (r : regex) (s : jsstring) : option captures :=
  match rmatch (Group 0 r) s (replicate (S ngroups) None) (λ _ caps, Some caps) with
  | Some m => Some m
  | None =>
      match s with
      | _ :: s' => exec ngroups r s'
      | [] => None
      end
  end.

(** Reading a group of a match; an absent group reads as the empty
    string where the source uses it as a string. *)
Definition group (m : captures) (n : nat) : option jsstring :=
  default None (m !! n).

Definition groupStr (m : captures) (n : nat) : jsstring :=
  default [] (group m n).

End Regex.
Export Regex.

(** ** The CLI profiler, [scripts/performance-profiler.js] *)

Module Profiler.

Definition notSpace (c : N) : bool := negb (isWhiteSpace c).

(** [/at\s+(?:([^\s]+)\s+)?\(?([^\s]+?):(\d+):(\d+)\)?/] *)
Definition locationPattern : regex :=
  Seq (Chr 97) (Seq (Chr 116) (Seq (PlusGreedy isWhiteSpace)
  (Seq (Opt (Seq (Group 1 (PlusGreedy notSpace)) (PlusGreedy isWhiteSpace)))
  (Seq (Opt (Chr 40))
  (Seq (Group 2 (PlusLazy notSpace))
  (Seq (Chr 58)
  (Seq (Group 3 (PlusGreedy isDigit))
  (Seq (Chr 58)
  (Seq (Group 4 (PlusGreedy isDigit))
       (Opt (Chr 41))))))))))).

(** The loop of [extractCallSiteSignature] over [lines[i]], [i >= 1]. *)
Fixpoint scanSignature (lines : list jsstring) : jsstring :=
  match lines with
  | [] => js "<unknown call site>"
  | l :: rest =>
      let line := trim l in
      if negb (truthy line) || startsWith (js "at ") line then
        scanSignature rest
      else
        match exec 4 locationPattern line with
        | Some m =>
            let functionName := group m 1 in
            let filePath := groupStr m 2 in
            let line := groupStr m 3 in
            let basename := orElse (pop (split 47 filePath)) filePath in
            match functionName with
            | Some fn =>
                if truthy fn
                then basename ++ js ":" ++ line ++ js " (" ++ fn ++ js ")"
                else basename ++ js ":" ++ line
            | None => basename ++ js ":" ++ line
            end
        | None => scanSignature rest
        end
  end.

(** [extractCallSiteSignature(stack)]; [None] is an absent stack. *)
Definition extractCallSiteSignature (stack : option jsstring) : jsstring :=
  match stack with
  | None => js "<unknown>"
  | Some s =>
      if negb (truthy s) then js "<unknown>"
      else scanSignature (tail (split LF s))
  end.

(** [/at\s+([^\s]+)\s+\(?([^\s]+?):(\d+):(\d+)\)?/], the pattern of
    [extractCallerInfo]: the function name is required. *)
Definition callerPattern : regex :=
  Seq (Chr 97) (Seq (Chr 116) (Seq (PlusGreedy isWhiteSpace)
  (Seq (Group 1 (PlusGreedy notSpace))
  (Seq (PlusGreedy isWhiteSpace)
  (Seq (Opt (Chr 40))
  (Seq (Group 2 (PlusLazy notSpace))
  (Seq (Chr 58)
  (Seq (Group 3 (PlusGreedy isDigit))
  (Seq (Chr 58)
  (Seq (Group 4 (PlusGreedy isDigit))
       (Opt (Chr 41)))))))))))).

(** The loop of [extractCallerInfo] over the lines it visits. *)
Fixpoint scanCaller (lines : list jsstring) : jsstring :=
  match lines with
  | [] => js "<unknown>"
  | l :: rest =>
      let line := trim l in
      match exec 4 callerPattern line with
      | Some m =>
          let functionName := groupStr m 1 in
          let filePath := groupStr m 2 in
          let line := groupStr m 3 in
          let basename := orElse (pop (split 47 filePath)) filePath in
          functionName ++ js " (" ++ basename ++ js ":" ++ line ++ js ")"
      | None => scanCaller rest
      end
  end.

(** [extractCallerInfo(stack)]: [i] runs from 2 to
    [Math.min(lines.length, 5) - 1]. *)
Definition extractCallerInfo (stack : option jsstring) : jsstring :=
  match stack with
  | None => js "<unknown>"
  | Some s =>
      if negb (truthy s) then js "<unknown>"
      else scanCaller (take 3 (drop 2 (split LF s)))
  end.

(** *** The aggregation map *)

(** The [type] argument of [recordTimerCall]: the strings ['setTimeout']
    and ['setInterval']. *)
Inductive timerType := SetTimeout | SetInterval.

(** A value of [timerStats]. *)
Record stat := {
  count : N;
  type : timerType;
  signature : jsstring;
  stack : option jsstring;
  caller : jsstring;
}.

(** [timerStats]: a [Map] keeps its entries in insertion order. *)
Definition statsMap := list (jsstring * stat).

Fixpoint mapGet (key : jsstring) (m : statsMap) : option stat :=
  match m with
  | [] => None
  | (k, v) :: r => if JsString.eqb k key then Some v else mapGet key r
  end.

Definition mapHas (key : jsstring) (m : statsMap) : bool :=
  match mapGet key m with Some _ => true | None => false end.

(** In-place mutation of the object stored under [key]. *)
Fixpoint mapMutate (key : jsstring) (f : stat → stat) (m : statsMap)
    : statsMap :=
  match m with
  | [] => []
  | (k, v) :: r =>
      if JsString.eqb k key then (k, f v) :: r
      else (k, v) :: mapMutate key f r
  end.

(** [m.set(key, v)] for a key known to be absent. *)
Definition mapSetNew (key : jsstring) (v : stat) (m : statsMap) : statsMap :=
  m ++ [(key, v)].

(** [Array.from(m.values())] *)
Definition mapValues (m : statsMap) : list stat := map snd m.

(** [recordTimerCall(type, stack)], as a function of [timerStats]. *)
Definition recordTimerCall (ty : timerType) (stk : option jsstring)
    (m : statsMap) : statsMap :=
  let signature := extractCallSiteSignature stk in
  if mapHas signature m then
    mapMutate signature
      (λ stat, {| count := count stat + 1; type := ty;
                  signature := Profiler.signature stat;
                  stack := stack stat; caller := caller stat |}) m
  else
    mapSetNew signature
      {| count := 1; type := ty; signature := signature; stack := stk;
         caller := extractCallerInfo stk |} m.

(** *** Numbers of the command line *)

(** The numbers computed from the options are integers or [NaN]
    ([None]).  Integers are exact: the binary64 rounding of values
    beyond 2^53 is not modelled. *)
Definition number := option Z.

Fixpoint takeDigits (s : jsstring) : jsstring :=
  match s with
  | c :: r => if isDigit c then c :: takeDigits r else []
  | [] => []
  end.

Definition digitsValue (ds : jsstring) : Z :=
  foldl (λ acc c, 10 * acc + (Z.of_N c - 48))%Z 0%Z ds.

(** [parseInt(s, 10)]: leading white space, a sign, the longest run of
    digits; [NaN] without a digit. *)
Definition parseInt10 (s : jsstring) : number :=
  let t := trimStart s in
  let '(negative, r) :=
    match t with
    | 45 :: r => (true, r)
    | 43 :: r => (false, r)
    | _ => (false, t)
    end in
  match takeDigits r with
  | [] => None
  | ds => Some (if negative then - digitsValue ds else digitsValue ds)%Z
  end.

(** [x || y] on numbers: [NaN] and [0] are falsy. *)
Definition numOr (x y : number) : number :=
  match x with
  | None => y
  | Some 0%Z => y
  | Some _ => x
  end.

(** [Math.max(x, y)] *)
Definition mathMax (x y : number) : number :=
  match x, y with
  | Some a, Some b => Some (Z.max a b)
  | _, _ => None
  end.

Definition isNaN (x : number) : bool :=
  match x with None => true | Some _ => false end.

(** [x < n]: false on [NaN]. *)
Definition numLt (x : number) (n : Z) : bool :=
  match x with Some a => (a <? n)%Z | None => false end.

(** [s.toLowerCase()] on the ASCII letters, which are the only code units
    that lower-case to a letter of ['table'] or ['json']. *)
Definition toLowerCase (s : jsstring) : jsstring :=
  map (λ c, if (65 <=? c) && (c <=? 90) then c + 32 else c) s.

(** [values] of [parseArgs]; an option that was not given is [None]. *)
Record options := {
  optDuration : option jsstring;
  optOutput : option jsstring;
  optTop : option jsstring;
  optHelp : bool;
}.

(** The defaults of the [options] object passed to [parseArgs]. *)
Definition valuesDuration (o : options) : jsstring := default (js "2") (optDuration o).
Definition valuesOutput (o : options) : jsstring := default (js "table") (optOutput o).
Definition valuesTop (o : options) : jsstring := default (js "20") (optTop o).

(** [const duration = Math.max(1, parseInt(values.duration, 10) || 2)] *)
Definition duration (o : options) : number :=
  mathMax (Some 1%Z) (numOr (parseInt10 (valuesDuration o)) (Some 2%Z)).

(** [const outputFormat = values.output.toLowerCase()] *)
Definition outputFormat (o : options) : jsstring := toLowerCase (valuesOutput o).

(** [const topCount = Math.max(1, parseInt(values.top, 10) || 20)] *)
Definition topCount (o : options) : number :=
  mathMax (Some 1%Z) (numOr (parseInt10 (valuesTop o)) (Some 20%Z)).

(** [outputFormat !== 'table' && outputFormat !== 'json'] *)
Definition badOutput (o : options) : bool :=
  negb (JsString.eqb (outputFormat o) (js "table"))
  && negb (JsString.eqb (outputFormat o) (js "json")).

(** [isNaN(duration) || duration < 1] *)
Definition badDuration (o : options) : bool :=
  isNaN (duration o) || numLt (duration o) 1.

(** *** Ranking and the report *)

(** [arr.sort(cmp)] is a stable sort: [insertBy] puts [x] in front of the
    first element it does not have to follow, so that elements that
    compare equal keep their order. *)
Fixpoint insertBy {A} (cmp : A → A → Z) (x : A) (l : list A) : list A :=
  match l with
  | [] => [x]
  | y :: r => if (0 <? cmp x y)%Z then y :: insertBy cmp x r else x :: l
  end.

Definition sortBy {A} (cmp : A → A → Z) (l : list A) : list A :=
  foldr (insertBy cmp) [] l.

(** [(a, b) => b.count - a.count] *)
Definition byCountDesc (a b : stat) : Z := (Z.of_N (count b) - Z.of_N (count a))%Z.

(** [arr.slice(0, n)]; [n] is at least 1 here. *)
Definition slice0 (n : number) (l : list stat) : list stat :=
  match n with
  | Some k => take (Z.to_nat k) l
  | None => []
  end.

(** [allCallSites.sort(...)] then [slice(0, topCount)] in [runProfiler]. *)
Definition topCallSites (top : number) (m : statsMap) : list stat :=
  slice0 top (sortBy byCountDesc (mapValues m)).

(** [topCallSites.reduce((sum, s) => sum + s.count, 0)] *)
Definition totalCalls (sites : list stat) : N :=
  foldl (λ sum s, sum + count s) 0 sites.

(** *** Binary64 arithmetic

    A finite double is a rational.  [x / y] and [x * y] are the exact
    results rounded to the nearest double, ties to even (IEEE 754,
    [roundTiesToEven]); overflow and subnormals are out of the range of
    the quotients and percentages computed here and are not modelled. *)

(** [2^e] *)
Definition pow2 (e : Z) : Q := (2 ^ e)%Q.

(** Rounding to the nearest integer, ties to even. *)
Definition nearestEven (s : Q) : Z :=
  let f := Qfloor s in
  let r := (s - inject_Z f)%Q in
  if Qle_bool r (1 # 2)
  then (if Qle_bool (1 # 2) r then (if Z.even f then f else f + 1)%Z else f)
  else (f + 1)%Z.

(** The exponent [e] of the last of the 53 bits of the doubles around
    [x > 0]: [2^52 <= x / 2^e < 2^53]. *)
Definition ulpExponent (x : Q) : Z :=
  let e1 := (Z.log2 (Qnum x) - Z.log2 (Z.pos (Qden x)) - 53)%Z in
  if Qle_bool (pow2 53) (x / pow2 e1)%Q then (e1 + 1)%Z else e1.

Definition roundPositive (x : Q) : Q :=
  let e := ulpExponent x in
  (inject_Z (nearestEven (x / pow2 e)) * pow2 e)%Q.

(** The double nearest to [x]. *)
Definition fl (x : Q) : Q :=
  match Qnum x with
  | Z0 => 0%Q
  | Z.pos _ => roundPositive x
  | Z.neg _ => (- roundPositive (- x))%Q
  end.

(** [x.toFixed(d)] for a double [x >= 0], as the integer [n] of the
    printed decimal [n / 10^d]: the [n] for which [n / 10^d] is closest to
    the exact value of [x], the larger one of two. *)
Definition toFixed (d : nat) (x : Q) : Z :=
  Qfloor (x * inject_Z (10 ^ Z.of_nat d) + (1 # 2))%Q.

(** [((count / total) * 100).toFixed(d)]: [count] and [total] are
    integers below 2^53 and exact, the division and the multiplication
    round.  A division by zero gives no finite number ([None]: the text
    would read [NaN] or [Infinity]). *)
Definition percentage (d : nat) (cnt total : N) : option Z :=
  if total =? 0 then None
  else Some (toFixed d
               (fl (fl (inject_Z (Z.of_N cnt) / inject_Z (Z.of_N total)) * 100)%Q)).

(** The same computation with the binary64 operations of the standard
    library's specification of floating-point numbers ([prec = 53],
    [emax = 1024]), to compare [fl] with. *)
Definition binary64 (n : N) : spec_float :=
  binary_normalize 53 1024 (Z.of_N n) 0 false.

Definition toFixed64 (d : nat) (x : spec_float) : option Z :=
  match x with
  | S754_zero _ => Some 0%Z
  | S754_finite false m e =>
      if (0 <=? e)%Z then Some (Z.pos m * 2 ^ e * 10 ^ Z.of_nat d)%Z
      else Some ((2 * Z.pos m * 10 ^ Z.of_nat d + 2 ^ (- e)) / (2 * 2 ^ (- e)))%Z
  | _ => None
  end.

Definition percentage64 (d : nat) (cnt total : N) : option Z :=
  toFixed64 d (SFmul 53 1024 (SFdiv 53 1024 (binary64 cnt) (binary64 total))
                 (binary64 100)).

(** One line of the table body. *)
Record tableRow := {
  rowRank : nat;
  rowCount : N;
  rowType : timerType;
  rowSite : jsstring;
}.

(** One line of the frequency analysis: the percentage in tenths. *)
Record freqLine := {
  freqRank : nat;
  freqPercentage : option Z;
  freqBar : option Z;
  freqSite : jsstring;
}.

(** [s.substring(0, n).padEnd(n)] *)
Definition fitTo (n : nat) (s : jsstring) : jsstring :=
  let t := take n s in t ++ replicate (n - length t) 32.

(** The data [formatTableOutput] lays out as text. *)
Record tableReport := {
  tableDuration : number;
  tableTotalCalls : N;
  tableActiveTimers : nat;
  tableRows : list tableRow;
  tableFrequency : list freqLine;
}.

Definition formatTableOutput (dur : number) (active : gset N)
    (sites : list stat) : tableReport :=
  {| tableDuration := dur;
     tableTotalCalls := totalCalls sites;
     tableActiveTimers := size active;
     tableRows :=
       imap (λ index site,
               {| rowRank := index + 1; rowCount := count site;
                  rowType := type site;
                  rowSite := fitTo 33 (orElse (caller site) (signature site)) |})
            sites;
     tableFrequency :=
       let total := totalCalls sites in
       imap (λ index site,
               let p := percentage 1 (count site) total in
               {| freqRank := index + 1; freqPercentage := p;
                  freqBar := (λ n, n / 20)%Z <$> p;
                  freqSite := orElse (caller site) (signature site) |})
            (take 5 sites) |}.

(** An element of [topCallSites] in the JSON: the percentage in
    hundredths. *)
Record jsonSite := {
  jsonRank : nat;
  jsonSignature : jsstring;
  jsonCaller : jsstring;
  jsonType : timerType;
  jsonCount : N;
  jsonPercentage : option Z;
}.

(** The data [formatJsonOutput] serialises ([profiledAt], the time of
    day, is left out; [allCallSites] repeats the map's values). *)
Record jsonReport := {
  jsonDuration : number;
  jsonTotalCalls : N;
  jsonActiveTimers : nat;
  jsonUniqueCallSites : nat;
  jsonTopCallSites : list jsonSite;
  jsonAllCallSites : list stat;
}.

Definition formatJsonOutput (dur : number) (active : gset N)
    (m : statsMap) (sites : list stat) : jsonReport :=
  {| jsonDuration := dur;
     jsonTotalCalls := totalCalls sites;
     jsonActiveTimers := size active;
     jsonUniqueCallSites := length m;
     jsonTopCallSites :=
       imap (λ index site,
               {| jsonRank := index + 1; jsonSignature := signature site;
                  jsonCaller := caller site; jsonType := type site;
                  jsonCount := count site;
                  jsonPercentage := percentage 2 (count site) (totalCalls sites) |})
            sites;
     jsonAllCallSites := mapValues m |}.

(** *** The process: bindings, host and state *)

(** A value of [global.setTimeout] or [global.setInterval]: a function
    of the host, known by an identity, or one of the two wrappers. *)
Inductive schedFn :=
| HostSched (id : N)
| TrackedSetTimeout
| TrackedSetInterval.

(** A value of [global.clearTimeout] or [global.clearInterval]. *)
Inductive cancelFn :=
| HostCancel (id : N)
| TrackedClearTimeout
| TrackedClearInterval.

(** The four process-wide bindings. *)
Record globals := {
  setTimeout : schedFn;
  setInterval : schedFn;
  clearTimeout : cancelFn;
  clearInterval : cancelFn;
}.

(** [originalSetTimeout] ... [originalClearInterval]: the bindings read
    when the module is loaded, which are functions of the host. *)
Record originals := {
  originalSetTimeout : N;
  originalSetInterval : N;
  originalClearTimeout : N;
  originalClearInterval : N;
}.

(** The bindings while the wrappers are installed. *)
Definition trackedBindings : globals :=
  {| setTimeout := TrackedSetTimeout;
     setInterval := TrackedSetInterval;
     clearTimeout := TrackedClearTimeout;
     clearInterval := TrackedClearInterval |}.

(** The bindings that hold the four captured originals. *)
Definition hostBindings (orig : originals) : globals :=
  {| setTimeout := HostSched (originalSetTimeout orig);
     setInterval := HostSched (originalSetInterval orig);
     clearTimeout := HostCancel (originalClearTimeout orig);
     clearInterval := HostCancel (originalClearInterval orig) |}.

(** The callbacks handed to the scheduling primitives. *)
Inductive callback :=
| CbEmpty             (* [() => {}] *)
| CbSpawnInterval     (* [() => { setInterval(() => {}, 100); }] *)
| CbResolve           (* [resolve] of the awaited promise *)
| CbOther (id : N).   (* a callback of other code *)

(** A call that reached a function of the host. *)
Inductive hostCall :=
| HostSchedule (fn : N) (cb : callback) (delay : number)
| HostCancelCall (fn : N) (timerId : N).

(** What a call answers: a value or an exception. *)
Inductive resp (A : Type) :=
| Returns (a : A)
| Throws (e : N).
Arguments Returns {A} a.
Arguments Throws {A} e.

(** A call made through one of the four process-wide bindings:
    [setTimeout(cb, delay)] or [setInterval(cb, delay)],
    [clearTimeout(id)] or [clearInterval(id)]. *)
Inductive call :=
| Schedule (t : timerType) (cb : callback) (delay : number)
| Cancel (t : timerType) (timerId : N).

(** The environment of one run.  The host's answers are indexed by the
    number of host calls made so far, [console.log]'s by the number of
    lines written so far. *)
Record environment := {
  errorStack : nat → option jsstring;    (* [new Error().stack] *)
  scheduleReply : nat → resp N;          (* the timer handle returned *)
  cancelReply : nat → resp unit;
  logReply : nat → resp unit;
  window : list call;   (* calls made through the bindings by the callbacks
                           that run while [runProfiler] is suspended *)
}.

(** What [runProfiler] prints as its report. *)
Inductive tableOrJson :=
| Table (t : tableReport)
| Json (j : jsonReport).

(** The lines written to the two streams. *)
Inductive message :=
| MsgHelp                          (* [getHelpText()] *)
| MsgBadOutput                     (* 'Error: --output must be ...' *)
| MsgBadDuration                   (* 'Error: --duration must be ...' *)
| MsgStarting (d : number)         (* 'Starting performance profiler ...' *)
| MsgOutputFormat (f : jsstring)   (* 'Output format: ...' *)
| MsgRecording                     (* 'Recording timer call sites...' *)
| MsgReport (r : tableOrJson)
| MsgComplete                      (* 'Profiling complete. ...' *)
| MsgProfilingError (e : N).       (* 'Error during profiling:' error *)

Record state := {
  global : globals;
  timerStats : statsMap;
  activeTimers : gset N;
  hostCalls : list hostCall;
  stdout : list message;
  stderr : list message;
}.

Definition withGlobal (g : globals) (st : state) : state :=
  {| global := g; timerStats := timerStats st; activeTimers := activeTimers st;
     hostCalls := hostCalls st; stdout := stdout st; stderr := stderr st |}.
Definition withStats (m : statsMap) (st : state) : state :=
  {| global := global st; timerStats := m; activeTimers := activeTimers st;
     hostCalls := hostCalls st; stdout := stdout st; stderr := stderr st |}.
Definition withActive (a : gset N) (st : state) : state :=
  {| global := global st; timerStats := timerStats st; activeTimers := a;
     hostCalls := hostCalls st; stdout := stdout st; stderr := stderr st |}.
Definition withHostCall (c : hostCall) (st : state) : state :=
  {| global := global st; timerStats := timerStats st; activeTimers := activeTimers st;
     hostCalls := hostCalls st ++ [c]; stdout := stdout st; stderr := stderr st |}.
Definition withStdout (l : message) (st : state) : state :=
  {| global := global st; timerStats := timerStats st; activeTimers := activeTimers st;
     hostCalls := hostCalls st; stdout := stdout st ++ [l]; stderr := stderr st |}.
Definition withStderr (l : message) (st : state) : state :=
  {| global := global st; timerStats := timerStats st; activeTimers := activeTimers st;
     hostCalls := hostCalls st; stdout := stdout st; stderr := stderr st ++ [l] |}.

(** Statements run on the state and return or throw. *)
Definition M (A : Type) : Type := state → resp A * state.

#[global] Instance M_ret : MRet M := λ A a st, (Returns a, st).

#[global] Instance M_bind : MBind M := λ A B f m st,
  match m st with
  | (Returns a, st') => f a st'
  | (Throws e, st') => (Throws e, st')
  end.

Definition modify (f : state → state) : M unit := λ st, (Returns tt, f st).

Section Run.

Variable env : environment.
Variable orig : originals.
Variable opts : options.

(** A call of a scheduling function of the host. *)
Definition hostSchedule (fn : N) (cb : callback) (delay : number) : M N :=
  λ st, (scheduleReply env (length (hostCalls st)),
         withHostCall (HostSchedule fn cb delay) st).

(** A call of a cancellation function of the host. *)
Definition hostCancel (fn : N) (timerId : N) : M unit :=
  λ st, (cancelReply env (length (hostCalls st)),
         withHostCall (HostCancelCall fn timerId) st).

(** [new Error().stack] *)
Definition captureStack : M (option jsstring) :=
  λ st, (Returns (errorStack env (length (hostCalls st))), st).

(** [console.log(line)] *)
Definition consoleLog (line : message) : M unit :=
  λ st, match logReply env (length (stdout st)) with
        | Returns _ => (Returns tt, withStdout line st)
        | Throws e => (Throws e, st)
        end.

(** [trackedSetTimeout(callback, delay, ...args)] *)
Definition trackedSetTimeout (cb : callback) (delay : number) : M N :=
  stack ← captureStack;
  modify (λ st, withStats (recordTimerCall SetTimeout stack (timerStats st)) st);;
  timerId ← hostSchedule (originalSetTimeout orig) cb delay;
  modify (λ st, withActive ({[timerId]} ∪ activeTimers st) st);;
  mret timerId.

(** [trackedSetInterval(callback, delay, ...args)] *)
Definition trackedSetInterval (cb : callback) (delay : number) : M N :=
  stack ← captureStack;
  modify (λ st, withStats (recordTimerCall SetInterval stack (timerStats st)) st);;
  timerId ← hostSchedule (originalSetInterval orig) cb delay;
  modify (λ st, withActive ({[timerId]} ∪ activeTimers st) st);;
  mret timerId.

(** [trackedClearTimeout(timerId)] *)
Definition trackedClearTimeout (timerId : N) : M unit :=
  modify (λ st, withActive (activeTimers st ∖ {[timerId]}) st);;
  hostCancel (originalClearTimeout orig) timerId.

(** [trackedClearInterval(timerId)] *)
Definition trackedClearInterval (timerId : N) : M unit :=
  modify (λ st, withActive (activeTimers st ∖ {[timerId]}) st);;
  hostCancel (originalClearInterval orig) timerId.

(** Calling the function a scheduling binding holds. *)
Definition applySched (f : schedFn) (cb : callback) (delay : number) : M N :=
  match f with
  | HostSched id => hostSchedule id cb delay
  | TrackedSetTimeout => trackedSetTimeout cb delay
  | TrackedSetInterval => trackedSetInterval cb delay
  end.

(** Calling the function a cancellation binding holds. *)
Definition applyCancel (f : cancelFn) (timerId : N) : M unit :=
  match f with
  | HostCancel id => hostCancel id timerId
  | TrackedClearTimeout => trackedClearTimeout timerId
  | TrackedClearInterval => trackedClearInterval timerId
  end.

(** [setTimeout(cb, delay)], [setInterval(cb, delay)],
    [clearTimeout(id)], [clearInterval(id)]: calls through the
    process-wide bindings. *)
Definition callSetTimeout (cb : callback) (delay : number) : M N :=
  λ st, applySched (setTimeout (global st)) cb delay st.
Definition callSetInterval (cb : callback) (delay : number) : M N :=
  λ st, applySched (setInterval (global st)) cb delay st.
Definition callClearTimeout (timerId : N) : M unit :=
  λ st, applyCancel (clearTimeout (global st)) timerId st.
Definition callClearInterval (timerId : N) : M unit :=
  λ st, applyCancel (clearInterval (global st)) timerId st.

Definition perform (c : call) : M unit :=
  match c with
  | Schedule SetTimeout cb delay => callSetTimeout cb delay;; mret tt
  | Schedule SetInterval cb delay => callSetInterval cb delay;; mret tt
  | Cancel SetTimeout timerId => callClearTimeout timerId
  | Cancel SetInterval timerId => callClearInterval timerId
  end.

(** The calls of the callbacks, in the order the host runs them. *)
Fixpoint performAll (cs : list call) : M unit :=
  match cs with
  | [] => mret tt
  | c :: rest => perform c;; performAll rest
  end.

(** [// Install timer wrappers]: the four assignments
    [global.setTimeout = trackedSetTimeout] ... *)
Definition installWrappers : M unit :=
  modify (withGlobal trackedBindings).

(** [// Restore original timer functions]: the four assignments
    [global.setTimeout = originalSetTimeout] ... *)
Definition restoreOriginals : M unit :=
  modify (withGlobal (hostBindings orig)).

(** [duration * 1000] *)
Definition windowDelay : number := (λ d, d * 1000)%Z <$> duration opts.

(** [runProfiler] up to its [await]: the three lines, the install,
    the profiler's own three timers, the end-of-window timer. *)
Definition runProfilerStart : M unit :=
  consoleLog (MsgStarting (duration opts));;
  consoleLog (MsgOutputFormat (outputFormat opts));;
  consoleLog MsgRecording;;
  installWrappers;;
  callSetInterval CbEmpty (Some 500%Z);;
  callSetInterval CbEmpty (Some 250%Z);;
  callSetTimeout CbSpawnInterval (Some 100%Z);;
  hostSchedule (originalSetTimeout orig) CbResolve windowDelay;;
  mret tt.

(** The report of [runProfiler]. *)
Definition report (st : state) : tableOrJson :=
  let top := topCallSites (topCount opts) (timerStats st) in
  if JsString.eqb (outputFormat opts) (js "json")
  then Json (formatJsonOutput (duration opts) (activeTimers st) (timerStats st) top)
  else Table (formatTableOutput (duration opts) (activeTimers st) top).

(** [runProfiler] after its [await]. *)
Definition runProfilerResume : M unit :=
  restoreOriginals;;
  (λ st, consoleLog (MsgReport (report st)) st);;
  consoleLog MsgComplete.

(** How the process stands at the end of the model. *)
Inductive status :=
| Exited (code : Z)     (* [process.exit(code)] *)
| Uncaught (e : N)      (* an exception escaped a callback of the window
                           or the module body *)
| Completed.            (* [runProfiler()] was fulfilled *)

(** [.catch((error) => { console.error('Error during profiling:', error);
    process.exit(1); })] *)
Definition onRejected (e : N) (st : state) : status * state :=
  (Exited 1, withStderr (MsgProfilingError e) st).

(** [runProfiler().catch(...)]: the start, the window in which the host
    runs callbacks, the resumption. *)
Definition runProfiler (st : state) : status * state :=
  match runProfilerStart st with
  | (Throws e, st1) => onRejected e st1
  | (Returns _, st1) =>
      match performAll (window env) st1 with
      | (Throws e, st2) => (Uncaught e, st2)
      | (Returns _, st2) =>
          match runProfilerResume st2 with
          | (Throws e, st3) => onRejected e st3
          | (Returns _, st3) => (Completed, st3)
          end
      end
  end.

(** The state when the module starts: the bindings are the host's,
    the map and the set are new. *)
Definition initialState : state :=
  {| global := hostBindings orig;
     timerStats := []; activeTimers := ∅; hostCalls := [];
     stdout := []; stderr := [] |}.

(** The module body, top to bottom. *)
Definition main : status * state :=
  let st := initialState in
  if optHelp opts then
    match consoleLog MsgHelp st with
    | (Returns _, st') => (Exited 0, st')
    | (Throws e, st') => (Uncaught e, st')
    end
  else if badOutput opts then
    (Exited 1, withStderr MsgBadOutput st)
  else if badDuration opts then
    (Exited 1, withStderr MsgBadDuration st)
  else runProfiler st.

End Run.

End Profiler.

(** ** The console snippet of the debugging guide *)

Module ConsoleSnippet.

Import Profiler.

(** The loop of [extractCallSite] over [lines[i]], [i >= 1]; the pattern
    is the one of the CLI profiler, character for character. *)
Fixpoint scanSite (lines : list jsstring) : jsstring :=
  match lines with
  | [] => js "<unknown>"
  | l :: rest =>
      let line := trim l in
      match exec 4 locationPattern line with
      | Some m =>
          let func := group m 1 in
          let path := groupStr m 2 in
          let line := groupStr m 3 in
          let filename := pop (split 47 path) in
          match func with
          | Some fn =>
              if truthy fn
              then filename ++ js ":" ++ line ++ js " (" ++ fn ++ js ")"
              else filename ++ js ":" ++ line
          | None => filename ++ js ":" ++ line
          end
      | None => scanSite rest
      end
  end.

(** [extractCallSite(stack)] *)
Definition extractCallSite (stack : option jsstring) : jsstring :=
  match stack with
  | None => js "<unknown>"
  | Some s =>
      if negb (truthy s) then js "<unknown>"
      else scanSite (tail (split LF s))
  end.

End ConsoleSnippet.

(** ** The run of the console snippet *)

Module ConsoleProfiler.

Import Profiler ConsoleSnippet.

(** A value of the snippet's [timerStats]. *)
Record siteStat := {
  siteCount : N;
  siteType : timerType;
  site : jsstring;
  siteStack : option jsstring;
}.

(** The snippet's [timerStats], in insertion order. *)
Definition siteMap := list (jsstring * siteStat).

Fixpoint siteGet (key : jsstring) (m : siteMap) : option siteStat :=
  match m with
  | [] => None
  | (k, v) :: r => if JsString.eqb k key then Some v else siteGet key r
  end.

Definition siteHas (key : jsstring) (m : siteMap) : bool :=
  match siteGet key m with Some _ => true | None => false end.

(** In-place mutation of the object stored under [key]. *)
Fixpoint siteMutate (key : jsstring) (f : siteStat → siteStat) (m : siteMap)
    : siteMap :=
  match m with
  | [] => []
  | (k, v) :: r =>
      if JsString.eqb k key then (k, f v) :: r
      else (k, v) :: siteMutate key f r
  end.

(** [recordTimer(type, stack)], as a function of [timerStats]. *)
Definition recordTimer (ty : timerType) (stk : option jsstring) (m : siteMap)
    : siteMap :=
  let site := extractCallSite stk in
  if siteHas site m then
    siteMutate site
      (λ r, {| siteCount := siteCount r + 1; siteType := ty;
               site := ConsoleProfiler.site r; siteStack := siteStack r |}) m
  else
    m ++ [(site, {| siteCount := 1; siteType := ty; site := site;
                    siteStack := stk |})].

(** The callbacks handed to the original functions: the one of the
    snippet's own timer, or a callback of the page. *)
Inductive pageCallback :=
| CbReport
| CbPage (cb : callback).

(** A call that reached an original function. *)
Inductive pageCall :=
| PageSchedule (fn : N) (cb : pageCallback) (delay : number)
| PageCancel (fn : N) (timerId : N).

(** The lines written with [console.log]; a percentage is in tenths. *)
Inductive consoleLine :=
| LineStarted                      (* 'Timer Profiler gestartet ...' *)
| LineRule                         (* the rule of '=' signs *)
| LineTitle                        (* 'TIMER PROFILER ERGEBNISSE' *)
| LineTotal (n : N)                (* 'Gesamte Timer-Aufrufe: n' *)
| LineActive (n : nat)             (* 'Aktive Timer (nicht bereinigt): n' *)
| LineEmpty                        (* '' *)
| LineResult (rank : nat) (percentage : option Z) (cnt : N)
    (ty : timerType) (where_ : jsstring)
| LineDone.                        (* 'Profiling abgeschlossen. ...' *)

(** The page: the four bindings of [window] (the constructors
    [TrackedSetTimeout] ... stand for the snippet's four wrappers), the
    snippet's map and set, the calls the original functions received and
    the lines of the console. *)
Record page := {
  bindings : globals;
  siteStats : siteMap;
  activeIds : gset N;
  pageCalls : list pageCall;
  consoleLines : list consoleLine;
}.

Definition withBindings (g : globals) (pg : page) : page :=
  {| bindings := g; siteStats := siteStats pg; activeIds := activeIds pg;
     pageCalls := pageCalls pg; consoleLines := consoleLines pg |}.
Definition withSiteStats (m : siteMap) (pg : page) : page :=
  {| bindings := bindings pg; siteStats := m; activeIds := activeIds pg;
     pageCalls := pageCalls pg; consoleLines := consoleLines pg |}.
Definition withActiveIds (a : gset N) (pg : page) : page :=
  {| bindings := bindings pg; siteStats := siteStats pg; activeIds := a;
     pageCalls := pageCalls pg; consoleLines := consoleLines pg |}.
Definition withPageCall (c : pageCall) (pg : page) : page :=
  {| bindings := bindings pg; siteStats := siteStats pg; activeIds := activeIds pg;
     pageCalls := pageCalls pg ++ [c]; consoleLines := consoleLines pg |}.
Definition withLine (l : consoleLine) (pg : page) : page :=
  {| bindings := bindings pg; siteStats := siteStats pg; activeIds := activeIds pg;
     pageCalls := pageCalls pg; consoleLines := consoleLines pg ++ [l] |}.

(** Statements run on the page and return or throw. *)
Definition P (A : Type) : Type := page → resp A * page.

#[global] Instance P_ret : MRet P := λ A a pg, (Returns a, pg).

#[global] Instance P_bind : MBind P := λ A B f m pg,
  match m pg with
  | (Returns a, pg') => f a pg'
  | (Throws e, pg') => (Throws e, pg')
  end.

Definition update (f : page → page) : P unit := λ pg, (Returns tt, f pg).

Section Snippet.

Variable env : environment.
Variable orig : originals.

(** A call of an original scheduling function. *)
Definition originalSchedule (fn : N) (cb : pageCallback) (delay : number)
    : P N :=
  λ pg, (scheduleReply env (length (pageCalls pg)),
         withPageCall (PageSchedule fn cb delay) pg).

(** A call of an original cancellation function. *)
Definition originalCancel (fn : N) (timerId : N) : P unit :=
  λ pg, (cancelReply env (length (pageCalls pg)),
         withPageCall (PageCancel fn timerId) pg).

(** [new Error().stack] *)
Definition newErrorStack : P (option jsstring) :=
  λ pg, (Returns (errorStack env (length (pageCalls pg))), pg).

(** [console.log(line)] *)
Definition log (line : consoleLine) : P unit :=
  λ pg, match logReply env (length (consoleLines pg)) with
        | Returns _ => (Returns tt, withLine line pg)
        | Throws e => (Throws e, pg)
        end.

(** [window.setTimeout = function (callback, delay, ...args) { ... }] *)
Definition wrappedSetTimeout (cb : pageCallback) (delay : number) : P N :=
  stack ← newErrorStack;
  update (λ pg, withSiteStats (recordTimer SetTimeout stack (siteStats pg)) pg);;
  id ← originalSchedule (originalSetTimeout orig) cb delay;
  update (λ pg, withActiveIds ({[id]} ∪ activeIds pg) pg);;
  mret id.

(** [window.setInterval = function (callback, delay, ...args) { ... }] *)
Definition wrappedSetInterval (cb : pageCallback) (delay : number) : P N :=
  stack ← newErrorStack;
  update (λ pg, withSiteStats (recordTimer SetInterval stack (siteStats pg)) pg);;
  id ← originalSchedule (originalSetInterval orig) cb delay;
  update (λ pg, withActiveIds ({[id]} ∪ activeIds pg) pg);;
  mret id.

(** [window.clearTimeout = function (id) { ... }] *)
Definition wrappedClearTimeout (id : N) : P unit :=
  update (λ pg, withActiveIds (activeIds pg ∖ {[id]}) pg);;
  originalCancel (originalClearTimeout orig) id.

(** [window.clearInterval = function (id) { ... }] *)
Definition wrappedClearInterval (id : N) : P unit :=
  update (λ pg, withActiveIds (activeIds pg ∖ {[id]}) pg);;
  originalCancel (originalClearInterval orig) id.

(** Calling the function a scheduling binding holds. *)
Definition applySchedule (f : schedFn) (cb : pageCallback) (delay : number)
    : P N :=
  match f with
  | HostSched id => originalSchedule id cb delay
  | TrackedSetTimeout => wrappedSetTimeout cb delay
  | TrackedSetInterval => wrappedSetInterval cb delay
  end.

(** Calling the function a cancellation binding holds. *)
Definition applyCancellation (f : cancelFn) (id : N) : P unit :=
  match f with
  | HostCancel fn => originalCancel fn id
  | TrackedClearTimeout => wrappedClearTimeout id
  | TrackedClearInterval => wrappedClearInterval id
  end.

(** [setTimeout(cb, delay)], [setInterval(cb, delay)],
    [clearTimeout(id)], [clearInterval(id)]: calls through the bindings
    of [window]. *)
Definition windowSetTimeout (cb : pageCallback) (delay : number) : P N :=
  λ pg, applySchedule (setTimeout (bindings pg)) cb delay pg.
Definition windowSetInterval (cb : pageCallback) (delay : number) : P N :=
  λ pg, applySchedule (setInterval (bindings pg)) cb delay pg.
Definition windowClearTimeout (id : N) : P unit :=
  λ pg, applyCancellation (clearTimeout (bindings pg)) id pg.
Definition windowClearInterval (id : N) : P unit :=
  λ pg, applyCancellation (clearInterval (bindings pg)) id pg.

(** A call of the page. *)
Definition pagePerform (c : call) : P unit :=
  match c with
  | Schedule SetTimeout cb delay => windowSetTimeout (CbPage cb) delay;; mret tt
  | Schedule SetInterval cb delay => windowSetInterval (CbPage cb) delay;; mret tt
  | Cancel SetTimeout id => windowClearTimeout id
  | Cancel SetInterval id => windowClearInterval id
  end.

Fixpoint pagePerformAll (cs : list call) : P unit :=
  match cs with
  | [] => mret tt
  | c :: rest => pagePerform c;; pagePerformAll rest
  end.

(** The body of the snippet: the four wrappers are installed, the first
    line is written, and the timer of the report is set with
    [setTimeout], which is [window.setTimeout]. *)
Definition snippetBody : P unit :=
  update (withBindings trackedBindings);;
  log LineStarted;;
  windowSetTimeout CbReport (Some 5000%Z);;
  mret tt.

(** [(a, b) => b.count - a.count] *)
Definition bySiteCountDesc (a b : siteStat) : Z :=
  (Z.of_N (siteCount b) - Z.of_N (siteCount a))%Z.

(** [Array.from(timerStats.values()).sort(...).slice(0, 20)] *)
Definition results (m : siteMap) : list siteStat :=
  take 20 (sortBy bySiteCountDesc (map snd m)).

(** [results.reduce((sum, s) => sum + s.count, 0)] *)
Definition resultsTotal (rs : list siteStat) : N :=
  foldl (λ sum s, sum + siteCount s) 0 rs.

(** The lines of [results.forEach((r, i) => { ... })]. *)
Definition resultLines (rs : list siteStat) : list consoleLine :=
  imap (λ i r, LineResult (i + 1)
                 (percentage 1 (siteCount r) (resultsTotal rs))
                 (siteCount r) (siteType r) (site r)) rs.

Fixpoint logAll (lines : list consoleLine) : P unit :=
  match lines with
  | [] => mret tt
  | l :: rest => log l;; logAll rest
  end.

(** The lines of the report, in the order they are written. *)
Definition reportLines (pg : page) : list consoleLine :=
  let rs := results (siteStats pg) in
  [LineRule; LineTitle; LineRule; LineTotal (resultsTotal rs);
   LineActive (size (activeIds pg)); LineRule; LineEmpty]
  ++ resultLines rs ++ [LineEmpty; LineDone].

Definition writeReport : P unit := λ pg, logAll (reportLines pg) pg.

(** The callback of the snippet's timer: the originals are put back,
    then the report is written. *)
Definition reportCallback : P unit :=
  update (withBindings (hostBindings orig));;
  writeReport.

(** How the model of the snippet ends: the report was written, or an
    exception was raised (the model stops at the first one). *)
Inductive outcome :=
| Reported
| Raised (e : N).

(** The snippet, the calls of the page during the five seconds, and the
    callback of the snippet's timer: [window env] holds the calls made
    before the host fires that timer, which it is taken to do. *)
Definition snippet (pg : page) : outcome * page :=
  match snippetBody pg with
  | (Throws e, pg1) => (Raised e, pg1)
  | (Returns _, pg1) =>
      match pagePerformAll (window env) pg1 with
      | (Throws e, pg2) => (Raised e, pg2)
      | (Returns _, pg2) =>
          match reportCallback pg2 with
          | (Throws e, pg3) => (Raised e, pg3)
          | (Returns _, pg3) => (Reported, pg3)
          end
      end
  end.

(** The page when the snippet is pasted: the bindings are the host's. *)
Definition freshPage : page :=
  {| bindings := hostBindings orig; siteStats := []; activeIds := ∅;
     pageCalls := []; consoleLines := [] |}.

End Snippet.

End ConsoleProfiler.

Import Profiler ConsoleSnippet ConsoleProfiler.

(** ** Traces and sequences of calls *)

(** Lines joined by ['\n']. *)
Definition unlines (l : list jsstring) : jsstring :=
  match l with
  | [] => []
  | x :: r => x ++ concat (map (λ y, LF :: y) r)
  end.

(** [recordTimerCall] over a sequence of intercepted calls. *)
Definition recordAll (calls : list (timerType * option jsstring))
    (m : statsMap) : statsMap :=
  foldl (λ acc c, recordTimerCall c.1 c.2 acc) m calls.

(** ** Vocabulary of the statements *)

(** What a cancellation wrapper that delegates to the host function [fn]
    does with the handle [timerId] in the state [st]: [out] is its outcome
    and the state it leaves. *)
Definition cancelSpec (env : environment) (fn : N) (timerId : N) (st : state)
    (out : resp unit * state) : Prop :=
  let st' := out.2 in
  activeTimers st' = activeTimers st ∖ {[timerId]}
  ∧ (timerId ∉ activeTimers st')
  ∧ (∀ x, x ≠ timerId → (x ∈ activeTimers st' ↔ x ∈ activeTimers st))
  ∧ (timerId ∉ activeTimers st → activeTimers st' = activeTimers st)
  ∧ hostCalls st' = hostCalls st ++ [HostCancelCall fn timerId]
  ∧ out.1 = cancelReply env (length (hostCalls st))
  ∧ (cancelReply env (length (hostCalls st)) = Returns tt → out.1 = Returns tt)
  ∧ timerStats st' = timerStats st
  ∧ global st' = global st.

(** [a] may stand before [b] in the ranking. *)
Definition ranksBefore (a b : stat) : Prop := count b ≤ count a.

(** The records of count [c], in the order of the list. *)
Definition withCount (c : N) (l : list stat) : list stat :=
  filter (λ s, count s = c) l.

(** A statement that leaves the four bindings alone. *)
Definition keepsGlobal {A} (m : M A) : Prop :=
  ∀ st, global (m st).2 = global st.

(** The statements of [runProfilerStart] after the install. *)
Definition selfSchedule (env : environment) (orig : originals)
    (opts : options) : M unit :=
  callSetInterval env orig CbEmpty (Some 500%Z);;
  callSetInterval env orig CbEmpty (Some 250%Z);;
  callSetTimeout env orig CbSpawnInterval (Some 100%Z);;
  hostSchedule env (originalSetTimeout orig) CbResolve (windowDelay opts);;
  mret tt.

(** The three opening lines of [runProfiler]. *)
Definition announce (env : environment) (opts : options) : M unit :=
  consoleLog env (MsgStarting (duration opts));;
  consoleLog env (MsgOutputFormat (outputFormat opts));;
  consoleLog env MsgRecording.

(** The number of scheduling calls among the calls of the window. *)
Fixpoint scheduled (cs : list call) : N :=
  match cs with
  | [] => 0
  | Schedule _ _ _ :: rest => 1 + scheduled rest
  | Cancel _ _ :: rest => scheduled rest
  end.

(** The sum of the counts of all the records of a map. *)
Definition sumCounts (m : statsMap) : N := totalCalls (mapValues m).

(** Four host functions. *)
Definition hostFns : originals :=
  {| originalSetTimeout := 1; originalSetInterval := 2;
     originalClearTimeout := 3; originalClearInterval := 4 |}.

(** The trace V8 gives inside a wrapper called from [runProfiler]. *)
Definition v8Trace : jsstring :=
  unlines [js "Error";
           js "    at trackedSetInterval (file:///app/scripts/performance-profiler.js:211:16)";
           js "    at runProfiler (file:///app/scripts/performance-profiler.js:384:2)"].

(** A host that answers every call: the n-th host call returns the
    handle [100 + n]; [cs] are the calls of the window. *)
Definition answeringHost (cs : list call) : environment :=
  {| errorStack := λ _, Some v8Trace;
     scheduleReply := λ n, Returns (100 + N.of_nat n);
     cancelReply := λ _, Returns tt;
     logReply := λ _, Returns tt;
     window := cs |}.

(** A host whose [setInterval] throws at the first call. *)
Definition failingScheduler : environment :=
  {| errorStack := λ _, Some v8Trace;
     scheduleReply := λ n, match n with O => Throws 13 | _ => Returns (100 + N.of_nat n) end;
     cancelReply := λ _, Returns tt;
     logReply := λ _, Returns tt;
     window := [] |}.

(** A host on which writing the report fails (the fourth line). *)
Definition failingReport : environment :=
  {| errorStack := λ _, Some v8Trace;
     scheduleReply := λ n, Returns (100 + N.of_nat n);
     cancelReply := λ _, Returns tt;
     logReply := λ n, match n with 3%nat => Throws 32 | _ => Returns tt end;
     window := [] |}.

(** No option given: [node scripts/performance-profiler.js]. *)
Definition noOptions : options :=
  {| optDuration := None; optOutput := None; optTop := None; optHelp := false |}.

(** [--duration abc] *)
Definition durationAbc : options :=
  {| optDuration := Some (js "abc"); optOutput := None; optTop := None;
     optHelp := false |}.

(** Unfolding the wrappers and the monad, step after step. *)
Ltac unfold_wrappers :=
  repeat progress
    (cbv beta delta [trackedSetInterval trackedSetTimeout trackedClearTimeout
       trackedClearInterval hostSchedule hostCancel captureStack modify
       mbind M_bind mret M_ret]; simpl).

(** [!line || line.startsWith('at ')] on the trimmed line: a line the
    loop of [extractCallSiteSignature] passes over without trying the
    pattern. *)
Definition passedOver (l : jsstring) : bool :=
  negb (truthy (trim l)) || startsWith (js "at ") (trim l).

(** The signature the CLI makes of a match of the pattern. *)
Definition cliSignature (m : captures) : jsstring :=
  let basename := orElse (pop (split 47 (groupStr m 2))) (groupStr m 2) in
  match group m 1 with
  | Some fn =>
      if truthy fn
      then basename ++ js ":" ++ groupStr m 3 ++ js " (" ++ fn ++ js ")"
      else basename ++ js ":" ++ groupStr m 3
  | None => basename ++ js ":" ++ groupStr m 3
  end.

(** The signature the console snippet makes of a match of the pattern. *)
Definition consoleSignature (m : captures) : jsstring :=
  let filename := pop (split 47 (groupStr m 2)) in
  match group m 1 with
  | Some fn =>
      if truthy fn
      then filename ++ js ":" ++ groupStr m 3 ++ js " (" ++ fn ++ js ")"
      else filename ++ js ":" ++ groupStr m 3
  | None => filename ++ js ":" ++ groupStr m 3
  end.

(** The capturing groups of a pattern. *)
Fixpoint groupsOf (r : regex) : list nat :=
  match r with
  | Chr _ | PlusGreedy _ | PlusLazy _ => []
  | Opt r1 => groupsOf r1
  | Seq r1 r2 => groupsOf r1 ++ groupsOf r2
  | Group n r1 => n :: groupsOf r1
  end.

(** [t] occurs in [s] as a run of adjacent code units. *)
Definition occursIn (t s : jsstring) : Prop :=
  ∃ pre post, s = pre ++ t ++ post.

(** No line after the first begins, once trimmed, with 'at '. *)
Definition noAtFrames (s : jsstring) : bool :=
  forallb (λ l, negb (startsWith (js "at ") (trim l))) (tail (split LF s)).

(** A slash stands right before a colon somewhere in [s]. *)
Fixpoint slashColon (s : jsstring) : bool :=
  match s with
  | [] => false
  | c :: r =>
      match r with
      | d :: _ => ((c =? 47) && (d =? 58)) || slashColon r
      | [] => false
      end
  end.

(** The sum of the printed percentages, in units of the last digit. *)
Definition sumPercent (l : list (option Z)) : Z :=
  foldr (λ p acc, (default 0 p + acc)%Z) 0%Z l.

(** The percentages of the JSON, in hundredths. *)
Definition jsonPercentages (j : jsonReport) : list (option Z) :=
  jsonPercentage <$> jsonTopCallSites j.

(** The percentages of the frequency analysis, in tenths. *)
Definition tablePercentages (t : tableReport) : list (option Z) :=
  freqPercentage <$> tableFrequency t.

(** [2^-53], the unit roundoff of binary64. *)
Definition unitRoundoff : Q := 1 # 9007199254740992.

(** The counts and totals up to [n], for a comparison by computation. *)
Definition sharesAgree (d : nat) (n : nat) : bool :=
  forallb (λ t, forallb (λ c, bool_decide (percentage d c t = percentage64 d c t))
                  (N.of_nat <$> seq 1 (N.to_nat t)))
    (N.of_nat <$> seq 1 n).

(** [100 * 10^d]: one hundred per cent in units of the last digit. *)
Definition hundred (d : nat) : Z := (100 * 10 ^ Z.of_nat d)%Z.

(** A trace whose frame does not begin with 'at ': each file is a site
    with a signature of its own. *)
Definition siteTrace (file : string) : option jsstring :=
  Some (unlines [js "Error"; js "(at " ++ js file ++ js ":1:1)"]).

(** Six sites called once each. *)
Definition sixSites : list (timerType * option jsstring) :=
  [(SetTimeout, siteTrace "a.js"); (SetTimeout, siteTrace "b.js");
   (SetTimeout, siteTrace "c.js"); (SetTimeout, siteTrace "d.js");
   (SetTimeout, siteTrace "e.js"); (SetTimeout, siteTrace "f.js")].

(** Four sites called 2, 2, 2 and 1 times. *)
Definition fourSites : list (timerType * option jsstring) :=
  [(SetTimeout, siteTrace "a.js"); (SetTimeout, siteTrace "b.js");
   (SetTimeout, siteTrace "c.js"); (SetTimeout, siteTrace "d.js");
   (SetTimeout, siteTrace "a.js"); (SetTimeout, siteTrace "b.js");
   (SetTimeout, siteTrace "c.js")].

(** ** Vocabulary of the further statements *)

(** [filePath.split('/').pop() || filePath] *)
Definition basename (filePath : jsstring) : jsstring :=
  orElse (pop (split 47 filePath)) filePath.

(** The end of both patterns: [\(?([^\s]+?):(\d+):(\d+)\)?] *)
Definition locationTail : regex :=
  Seq (Opt (Chr 40))
  (Seq (Group 2 (PlusLazy notSpace))
  (Seq (Chr 58)
  (Seq (Group 3 (PlusGreedy isDigit))
  (Seq (Chr 58)
  (Seq (Group 4 (PlusGreedy isDigit))
       (Opt (Chr 41))))))).

(** A non-empty string of code units of the class [p]. *)
Definition run (p : N → bool) (s : jsstring) : Prop :=
  s ≠ [] ∧ Forall (λ c, p c = true) s.

(** [base:line (fn)], or [base:line] without a function name. *)
Definition signatureText (base line : jsstring) (fn : option jsstring)
    : jsstring :=
  match fn with
  | Some f => base ++ js ":" ++ line ++ js " (" ++ f ++ js ")"
  | None => base ++ js ":" ++ line
  end.

(** [fn (base:line)] *)
Definition callerText (fn base line : jsstring) : jsstring :=
  fn ++ js " (" ++ base ++ js ":" ++ line ++ js ")".

(** The line is examined by the loop of [extractCallSiteSignature] and
    does not end it. *)
Definition noSignature (l : jsstring) : Prop :=
  passedOver l = true ∨ exec 4 locationPattern (trim l) = None.

(** Deciding a closed decidable statement by computation. *)
Ltac by_computation :=
  match goal with
  | |- ?P => apply (bool_decide_unpack P); vm_compute; exact I
  end.

(** The calls of a sequence that fall under the signature [sig]. *)
Definition callsAt (sig : jsstring) (calls : list (timerType * option jsstring))
    : list (timerType * option jsstring) :=
  filter (λ c, extractCallSiteSignature c.2 = sig) calls.

(** The signatures of a sequence of calls. *)
Definition signaturesOf (calls : list (timerType * option jsstring))
    : list jsstring :=
  (λ c, extractCallSiteSignature c.2) <$> calls.

(** The distinct strings of a list, in the order of their first
    occurrences. *)
Fixpoint firstOccurrences (l : list jsstring) : list jsstring :=
  match l with
  | [] => []
  | x :: r => x :: filter (λ y, y ≠ x) (firstOccurrences r)
  end.

(** The keys of the map, in insertion order. *)
Definition mapKeys (m : statsMap) : list jsstring := map fst m.

(** A record as [recordTimerCall] keeps it under the key [k]. *)
Definition keptUnder (k : jsstring) (r : stat) : Prop :=
  signature r = k
  ∧ extractCallSiteSignature (stack r) = k
  ∧ caller r = extractCallerInfo (stack r)
  ∧ 1 ≤ count r.

(** A trace in the format of V8: not empty, and every line after the
    first is blank or begins, once trimmed, with 'at '. *)
Definition v8Like (stk : option jsstring) : bool :=
  match stk with
  | Some s => truthy s && forallb passedOver (tail (split LF s))
  | None => false
  end.

(** What a scheduling wrapper of type [ty] that delegates to the host
    function [fn] does in the state [st]: [out] is its outcome and the
    state it leaves. *)
Definition scheduleSpec (env : environment) (ty : timerType) (fn : N)
    (cb : callback) (delay : number) (st : state) (out : resp N * state)
    : Prop :=
  let st' := out.2 in
  let n := length (hostCalls st) in
  timerStats st' = recordTimerCall ty (errorStack env n) (timerStats st)
  ∧ hostCalls st' = hostCalls st ++ [HostSchedule fn cb delay]
  ∧ out.1 = scheduleReply env n
  ∧ match scheduleReply env n with
    | Returns timerId => activeTimers st' = {[timerId]} ∪ activeTimers st
    | Throws _ => activeTimers st' = activeTimers st
    end
  ∧ global st' = global st
  ∧ stdout st' = stdout st
  ∧ stderr st' = stderr st.

(** A statement that keeps a property of the state, however it ends. *)
Definition preserves (P : state → Prop) {A} (m : M A) : Prop :=
  ∀ st, P st → P (m st).2.

(** The active set has at most as many handles as calls were recorded. *)
Definition activeWithinCalls (st : state) : Prop :=
  N.of_nat (size (activeTimers st)) ≤ sumCounts (timerStats st).


(** [--output v], with or without [--help]. *)
Definition outputGiven (v : string) (help : bool) : options :=
  {| optDuration := None; optOutput := Some (js v); optTop := None;
     optHelp := help |}.

(** The process started with [--output v] on a host that answers every
    call. *)
Definition runWithOutput (v : string) (help : bool) : status * state :=
  main (answeringHost []) hostFns (outputGiven v help).

(** The call of an original function that a call through the wrapped
    bindings ends in. *)
Definition delegated (orig : originals) (c : call) : hostCall :=
  match c with
  | Schedule SetTimeout cb delay => HostSchedule (originalSetTimeout orig) cb delay
  | Schedule SetInterval cb delay => HostSchedule (originalSetInterval orig) cb delay
  | Cancel SetTimeout timerId => HostCancelCall (originalClearTimeout orig) timerId
  | Cancel SetInterval timerId => HostCancelCall (originalClearInterval orig) timerId
  end.

(** The four scheduling calls of [runProfiler] itself. *)
Definition ownCalls (orig : originals) (opts : options) : list hostCall :=
  [HostSchedule (originalSetInterval orig) CbEmpty (Some 500%Z);
   HostSchedule (originalSetInterval orig) CbEmpty (Some 250%Z);
   HostSchedule (originalSetTimeout orig) CbSpawnInterval (Some 100%Z);
   HostSchedule (originalSetTimeout orig) CbResolve (windowDelay opts)].

(** The text of the 'Call Site' column and of a line of the frequency
    analysis: [site.caller || site.signature]. *)
Definition label (site : stat) : jsstring :=
  orElse (caller site) (signature site).

(** [recordTimer] over a sequence of intercepted calls. *)
Definition recordTimerAll (calls : list (timerType * option jsstring))
    (m : siteMap) : siteMap :=
  foldl (λ acc c, recordTimer c.1 c.2 acc) m calls.

(** The calls of a sequence that the snippet puts under the site [s]. *)
Definition sitesAt (s : jsstring) (calls : list (timerType * option jsstring))
    : list (timerType * option jsstring) :=
  filter (λ c, extractCallSite c.2 = s) calls.

(** The sum of the counts of all the records of the snippet's map. *)
Definition sumSiteCounts (m : siteMap) : N := resultsTotal (map snd m).

(** Unfolding the snippet's wrappers and its monad, step after step. *)
Ltac unfold_snippet :=
  repeat progress
    (cbv beta delta [wrappedSetInterval wrappedSetTimeout wrappedClearTimeout
       wrappedClearInterval originalSchedule originalCancel newErrorStack
       update mbind P_bind mret P_ret]; simpl).

(** A statement of the snippet that keeps a property of the page, however
    it ends. *)
Definition keeps (Q : page → Prop) {A} (m : P A) : Prop :=
  ∀ pg, Q pg → Q (m pg).2.

(** Every record of the snippet's map has a count of at least 1. *)
Definition countsPositive (pg : page) : Prop :=
  Forall (λ r, 1 ≤ siteCount r) (map snd (siteStats pg)).

(** A page on which every call is answered; the n-th call of an original
    function returns the handle [100 + n]. *)
Definition answeringPage (cs : list call) : environment :=
  {| errorStack := λ _, Some (unlines [js "Error"; js "    at poll (/app/main.js:7:3)"]);
     scheduleReply := λ n, Returns (100 + N.of_nat n);
     cancelReply := λ _, Returns tt;
     logReply := λ _, Returns tt;
     window := cs |}.

(** The call of an original function that a call of the page through the
    snippet's wrappers ends in. *)
Definition pageDelegated (orig : originals) (c : call) : pageCall :=
  match c with
  | Schedule SetTimeout cb delay =>
      PageSchedule (originalSetTimeout orig) (CbPage cb) delay
  | Schedule SetInterval cb delay =>
      PageSchedule (originalSetInterval orig) (CbPage cb) delay
  | Cancel SetTimeout timerId => PageCancel (originalClearTimeout orig) timerId
  | Cancel SetInterval timerId => PageCancel (originalClearInterval orig) timerId
  end.

(** The percentage printed in a line of the results, if it is one. *)
Definition linePercentage (l : consoleLine) : option (option Z) :=
  match l with
  | LineResult _ p _ _ _ => Some p
  | _ => None
  end.

(** * Properties *)

(** ** Strings *)

Section Strings.

Lemma eqb_refl (a : jsstring) : JsString.eqb a a = true.
Proof.
  induction a as [|x a IH]; simpl; [done|].
  by rewrite N.eqb_refl, IH.
Qed.

Lemma eqb_eq (a b : jsstring) : JsString.eqb a b = true ↔ a = b.
Proof.
  split; [|intros ->; apply eqb_refl].
  revert b; induction a as [|x a IH]; intros [|y b]; simpl; try done.
  intros [Hxy Hab]%andb_prop.
  apply N.eqb_eq in Hxy. apply IH in Hab. by subst.
Qed.

Lemma eqb_neq (a b : jsstring) : JsString.eqb a b = false ↔ a ≠ b.
Proof.
  rewrite <- eqb_eq. destruct (JsString.eqb a b); split; done.
Qed.

End Strings.

(** ** The aggregation map *)

Section Aggregation.

Lemma mapGet_app (k : jsstring) (m1 m2 : statsMap) :
  mapGet k (m1 ++ m2) =
  match mapGet k m1 with Some v => Some v | None => mapGet k m2 end.
Proof.
  induction m1 as [|[k' v'] m1 IH]; simpl; [done|].
  destruct (JsString.eqb k' k); [done|apply IH].
Qed.

Lemma mapGet_mutate (k k' : jsstring) (f : stat → stat) (m : statsMap) :
  mapGet k' (mapMutate k f m) =
  if JsString.eqb k k' then f <$> mapGet k' m else mapGet k' m.
Proof.
  induction m as [|[k0 v0] m IH]; simpl.
  - by destruct (JsString.eqb k k').
  - destruct (JsString.eqb k0 k) eqn:E0; simpl.
    + apply eqb_eq in E0 as ->.
      by destruct (JsString.eqb k k').
    + destruct (JsString.eqb k0 k') eqn:E1; simpl.
      * apply eqb_eq in E1. apply eqb_neq in E0.
        replace (JsString.eqb k k') with false; [done|].
        symmetry. apply eqb_neq. congruence.
      * apply IH.
Qed.

(** The record of a signature after one more call with that signature. *)
Lemma recordTimerCall_same (ty : timerType) (stk : option jsstring)
    (m : statsMap) :
  mapGet (extractCallSiteSignature stk) (recordTimerCall ty stk m) =
  match mapGet (extractCallSiteSignature stk) m with
  | Some r => Some {| count := count r + 1; type := ty;
                      signature := signature r; stack := stack r;
                      caller := caller r |}
  | None => Some {| count := 1; type := ty;
                    signature := extractCallSiteSignature stk;
                    stack := stk; caller := extractCallerInfo stk |}
  end.
Proof.
  unfold recordTimerCall, mapHas, mapSetNew.
  destruct (mapGet (extractCallSiteSignature stk) m) as [r|] eqn:E.
  - by rewrite mapGet_mutate, eqb_refl, E.
  - rewrite mapGet_app, E. simpl. by rewrite eqb_refl.
Qed.

(** The records of the other signatures stay as they are. *)
Lemma recordTimerCall_other (ty : timerType) (stk : option jsstring)
    (m : statsMap) (k : jsstring) :
  k ≠ extractCallSiteSignature stk →
  mapGet k (recordTimerCall ty stk m) = mapGet k m.
Proof.
  intros Hk. unfold recordTimerCall, mapHas, mapSetNew.
  assert (JsString.eqb (extractCallSiteSignature stk) k = false) as E
    by (apply eqb_neq; congruence).
  destruct (mapGet (extractCallSiteSignature stk) m) as [r|].
  - by rewrite mapGet_mutate, E.
  - rewrite mapGet_app. simpl. rewrite E. by destruct (mapGet k m).
Qed.

Lemma recordAll_present (calls : list (timerType * option jsstring))
    (sig : jsstring) (m : statsMap) (r : stat) :
  Forall (λ c, extractCallSiteSignature c.2 = sig) calls →
  mapGet sig m = Some r →
  ∃ r', mapGet sig (recordAll calls m) = Some r'
        ∧ count r' = count r + N.of_nat (length calls)
        ∧ type r' = default (type r) (fst <$> last calls).
Proof.
  intros Hall. revert m r.
  induction Hall as [|[ty stk] calls Hsig Hall IH]; intros m r Hm.
  - exists r. simpl. split_and!; [done|lia|done].
  - simpl in Hsig. subst sig.
    pose proof (recordTimerCall_same ty stk m) as Hrec. rewrite Hm in Hrec.
    destruct (IH _ _ Hrec) as (r' & Hget & Hcount & Htype).
    exists r'. split_and!; [done|simpl in *; lia|].
    rewrite Htype. simpl. rewrite last_cons.
    by destruct (last calls).
Qed.

End Aggregation.

(** C5.  After N >= 1 intercepted calls that all yield the signature [sig],
    made on a map that has no record for [sig] yet, the record of [sig] has
    count N and the kind of the last call. *)
Theorem recordTimerCall_count_and_last_kind
    (calls : list (timerType * option jsstring)) (sig : jsstring)
    (m : statsMap) :
  calls ≠ [] →
  Forall (λ c, extractCallSiteSignature c.2 = sig) calls →
  mapGet sig m = None →
  ∃ r, mapGet sig (recordAll calls m) = Some r
       ∧ count r = N.of_nat (length calls)
       ∧ Some (type r) = fst <$> last calls.
Proof.
  intros Hne Hall Hm.
  destruct calls as [|[ty stk] calls]; [done|].
  apply Forall_cons in Hall as [Hsig Hall]. simpl in Hsig. subst sig.
  pose proof (recordTimerCall_same ty stk m) as Hrec. rewrite Hm in Hrec.
  destruct (recordAll_present calls _ _ _ Hall Hrec) as (r & Hget & Hcount & Htype).
  exists r. split_and!; [done|simpl in *; lia|].
  rewrite Htype, last_cons. simpl. by destruct (last calls).
Qed.

(** Five calls from one synthetic site, the last one repeating. *)
Lemma recordTimerCall_count_and_last_kind_witness :
  let trace := Some (unlines [js "Error"; js "(at poll /app/main.js:7:3)"]) in
  let calls := [(SetTimeout, trace); (SetInterval, trace); (SetTimeout, trace);
                (SetTimeout, trace); (SetInterval, trace)] in
  ∃ r, mapGet (js "main.js:7 (poll)") (recordAll calls []) = Some r
       ∧ count r = 5 ∧ Some (type r) = Some SetInterval.
Proof.
  intros trace calls.
  apply (recordTimerCall_count_and_last_kind calls (js "main.js:7 (poll)") []).
  - discriminate.
  - repeat constructor.
  - reflexivity.
Defined.

(** ** The cancellation wrappers *)

(** C6.  For every handle and every state, [trackedClearTimeout] and
    [trackedClearInterval] take the handle out of the active set (the set
    is unchanged when the handle is not in it), hand the same handle to the
    original cancellation function, and end as that function ends: the
    wrapper raises no error of its own, whether the handle is known or
    not. *)
Theorem trackedClear_removes_and_delegates (env : environment)
    (orig : originals) (timerId : N) (st : state) :
  cancelSpec env (originalClearTimeout orig) timerId st
    (trackedClearTimeout env orig timerId st)
  ∧ cancelSpec env (originalClearInterval orig) timerId st
      (trackedClearInterval env orig timerId st).
Proof.
  split; unfold cancelSpec; simpl; split_and!; try done.
  all: try (rewrite elem_of_difference, elem_of_singleton; tauto).
  all: try (intros x Hx; rewrite elem_of_difference, elem_of_singleton; tauto).
  all: intros Hout; apply set_eq; intros x;
    rewrite elem_of_difference, elem_of_singleton; split; [tauto|];
    intros Hx; split; [done|]; by intros ->.
Qed.

(** Cancelling a scheduled handle, then the same handle again, then an
    unknown one. *)
Lemma trackedClear_removes_and_delegates_witness :
  let env := {| errorStack := λ _, None; scheduleReply := λ _, Returns 0;
                cancelReply := λ _, Returns tt; logReply := λ _, Returns tt;
                window := [] |} in
  let orig := {| originalSetTimeout := 1; originalSetInterval := 2;
                 originalClearTimeout := 3; originalClearInterval := 4 |} in
  let st := withActive {[ 7; 8 ]} (initialState orig) in
  let out1 := trackedClearTimeout env orig 7 st in
  let out2 := trackedClearTimeout env orig 7 out1.2 in
  let out3 := trackedClearInterval env orig 99 out2.2 in
  activeTimers out1.2 = {[ 8 ]} ∧ activeTimers out2.2 = {[ 8 ]}
  ∧ activeTimers out3.2 = {[ 8 ]}
  ∧ out1.1 = Returns tt ∧ out2.1 = Returns tt ∧ out3.1 = Returns tt
  ∧ hostCalls out3.2 =
      [HostCancelCall 3 7; HostCancelCall 3 7; HostCancelCall 4 99].
Proof.
  intros env orig st out1 out2 out3.
  destruct (trackedClear_removes_and_delegates env orig 7 st)
    as [(_ & _ & _ & _ & H1 & _ & R1 & _) _].
  destruct (trackedClear_removes_and_delegates env orig 7 out1.2)
    as [(_ & _ & _ & _ & H2 & _ & R2 & _) _].
  destruct (trackedClear_removes_and_delegates env orig 99 out2.2)
    as [_ (_ & _ & _ & _ & H3 & _ & R3 & _)].
  split_and!; [by vm_compute|by vm_compute|by vm_compute| | | |by vm_compute].
  - by apply R1.
  - by apply R2.
  - by apply R3.
Defined.

(** ** Ranking *)

Section Ranking.

Lemma insertBy_perm (x : stat) (l : list stat) :
  insertBy byCountDesc x l ≡ₚ x :: l.
Proof.
  induction l as [|y l IH]; simpl; [done|].
  destruct (0 <? byCountDesc x y)%Z; [|done].
  rewrite IH. apply Permutation_swap.
Qed.

Lemma sortBy_perm (l : list stat) : sortBy byCountDesc l ≡ₚ l.
Proof.
  induction l as [|x l IH]; simpl; [done|].
  by rewrite insertBy_perm, IH.
Qed.

Lemma insertBy_sorted (x : stat) (l : list stat) :
  StronglySorted ranksBefore l →
  StronglySorted ranksBefore (insertBy byCountDesc x l).
Proof.
  induction 1 as [|y l Hs IH Hy]; simpl.
  - repeat constructor.
  - destruct (0 <? byCountDesc x y)%Z eqn:E.
    + apply Z.ltb_lt in E. constructor; [done|].
      rewrite insertBy_perm. constructor; [|done].
      unfold ranksBefore, byCountDesc in *. lia.
    + apply Z.ltb_ge in E. constructor; [by constructor|].
      assert (ranksBefore x y) as Hxy
        by (unfold ranksBefore, byCountDesc in *; lia).
      constructor; [done|].
      eapply Forall_impl; [exact Hy|].
      unfold ranksBefore in *. intros z Hz. lia.
Qed.

Lemma sortBy_sorted (l : list stat) :
  StronglySorted ranksBefore (sortBy byCountDesc l).
Proof.
  induction l as [|x l IH]; simpl; [constructor|].
  by apply insertBy_sorted.
Qed.

(** Stability: inserting keeps the order among the records of one count. *)
Lemma insertBy_withCount (c : N) (x : stat) (l : list stat) :
  withCount c (insertBy byCountDesc x l) = withCount c (x :: l).
Proof.
  unfold withCount.
  induction l as [|y l IH]; simpl; [done|].
  destruct (0 <? byCountDesc x y)%Z eqn:E; [|done].
  apply Z.ltb_lt in E. unfold byCountDesc in E.
  rewrite (filter_cons _ y), IH, !filter_cons.
  repeat case_decide; try done; lia.
Qed.

Lemma sortBy_withCount (c : N) (l : list stat) :
  withCount c (sortBy byCountDesc l) = withCount c l.
Proof.
  induction l as [|x l IH]; simpl; [done|].
  rewrite insertBy_withCount. unfold withCount in *.
  by rewrite !filter_cons, IH.
Qed.

(** A ranking is determined by the records and their insertion order:
    two lists in non-increasing order of count that list the records of
    every count in the same order are equal. *)
Lemma stable_ranking_unique (s1 s2 : list stat) :
  StronglySorted ranksBefore s1 →
  StronglySorted ranksBefore s2 →
  (∀ c, withCount c s1 = withCount c s2) →
  s1 = s2.
Proof.
  intros H1. revert s2.
  induction H1 as [|a s1 Hs1 IH Ha]; intros s2 H2 Heq.
  - destruct s2 as [|b s2]; [done|].
    specialize (Heq (count b)). unfold withCount in Heq.
    rewrite filter_nil, filter_cons in Heq. by case_decide.
  - destruct H2 as [|b s2 Hs2 Hb].
    { specialize (Heq (count a)). unfold withCount in Heq.
      rewrite filter_nil, filter_cons in Heq. by case_decide. }
    assert (count a = count b) as Hab.
    { pose proof (Heq (count a)) as Ea. pose proof (Heq (count b)) as Eb.
      unfold withCount in Ea, Eb.
      assert (a ∈ filter (λ s, count s = count a) (b :: s2)) as Ia
        by (rewrite <- Ea; apply list_elem_of_filter; split; [done|left]).
      assert (b ∈ filter (λ s, count s = count b) (a :: s1)) as Ib
        by (rewrite Eb; apply list_elem_of_filter; split; [done|left]).
      apply list_elem_of_filter in Ia as [_ Ia].
      apply list_elem_of_filter in Ib as [_ Ib].
      assert (ranksBefore b a) as Hba.
      { apply elem_of_cons in Ia as [->|Ia]; [unfold ranksBefore; lia|].
        by eapply Forall_forall in Hb. }
      assert (ranksBefore a b) as Hab'.
      { apply elem_of_cons in Ib as [->|Ib]; [unfold ranksBefore; lia|].
        by eapply Forall_forall in Ha. }
      unfold ranksBefore in *. lia. }
    assert (a = b ∧ ∀ c, withCount c s1 = withCount c s2) as [-> Htl].
    { split.
      - specialize (Heq (count a)). unfold withCount in Heq.
        rewrite !filter_cons in Heq. rewrite !decide_True in Heq by done.
        congruence.
      - intros c. specialize (Heq c). unfold withCount in *.
        rewrite !filter_cons in Heq.
        repeat case_decide; try congruence. }
    f_equal. by apply IH.
Qed.

Lemma topCount_positive (opts : options) :
  ∃ n, topCount opts = Some n ∧ (1 ≤ n)%Z.
Proof.
  unfold topCount.
  destruct (numOr (parseInt10 (valuesTop opts)) (Some 20%Z)) as [k|] eqn:E.
  - exists (Z.max 1 k). split; [done|lia].
  - unfold numOr in E. by destruct (parseInt10 (valuesTop opts)) as [[]|].
Qed.

Lemma StronglySorted_take (n : nat) (l : list stat) :
  StronglySorted ranksBefore l → StronglySorted ranksBefore (take n l).
Proof.
  intros H. revert n.
  induction H as [|a l Hs IH Ha]; intros [|n]; simpl; try constructor.
  - apply IH.
  - by apply Forall_take.
Qed.

Lemma sorted_lookup (l : list stat) (i j : nat) (a b : stat) :
  StronglySorted ranksBefore l → (i < j)%nat →
  l !! i = Some a → l !! j = Some b → ranksBefore a b.
Proof.
  intros H. revert i j.
  induction H as [|x l Hs IH Hx]; intros i j Hij Hi Hj; [done|].
  destruct j as [|j]; [lia|]. simpl in Hj.
  destruct i as [|i]; simpl in Hi.
  - simplify_eq. eapply Forall_forall in Hx; [done|].
    by eapply list_elem_of_lookup_2.
  - apply (IH i j); [lia|done|done].
Qed.

End Ranking.

(** C7.  The top-N list has at most N entries (N is at least 1), its
    counts do not increase from first to last, the records of one count
    stand in their insertion order, and the list is the first N of the one
    ranking that has these properties: whatever stable sort produces the
    ranking, the top-N list is the same. *)
Theorem topCallSites_ranked (opts : options) (m : statsMap) :
  let top := topCallSites (topCount opts) m in
  (∃ n, topCount opts = Some n ∧ (1 ≤ n)%Z ∧ (length top ≤ Z.to_nat n)%nat
        ∧ ∀ ranking, StronglySorted ranksBefore ranking →
            (∀ c, withCount c ranking = withCount c (mapValues m)) →
            top = take (Z.to_nat n) ranking)
  ∧ StronglySorted ranksBefore top
  ∧ (∀ i j a b, (i ≤ j)%nat → top !! i = Some a → top !! j = Some b →
       count b ≤ count a)
  ∧ (∀ c, withCount c top `prefix_of` withCount c (mapValues m))
  ∧ (∃ rest, top ++ rest ≡ₚ mapValues m
       ∧ ∀ a b, a ∈ top → b ∈ rest → count b ≤ count a).
Proof.
  intros top.
  destruct (topCount_positive opts) as (n & Hn & Hpos).
  assert (top = take (Z.to_nat n) (sortBy byCountDesc (mapValues m))) as Htop
    by (unfold top, topCallSites; by rewrite Hn).
  pose proof (sortBy_sorted (mapValues m)) as Hsorted.
  assert (StronglySorted ranksBefore top) as Hs
    by (rewrite Htop; by apply StronglySorted_take).
  split_and!.
  - exists n. split_and!; [done|done| |].
    + rewrite Htop, length_take. lia.
    + intros ranking Hr Hc. rewrite Htop. f_equal.
      apply stable_ranking_unique; [done|done|].
      intros c. by rewrite sortBy_withCount, Hc.
  - done.
  - intros i j a b Hij Hi Hj.
    destruct (decide (i = j)) as [->|Hne]; [by simplify_eq|].
    assert (i < j)%nat as Hlt by lia.
    exact (sorted_lookup _ _ _ _ _ Hs Hlt Hi Hj).
  - intros c. exists (withCount c (drop (Z.to_nat n) (sortBy byCountDesc (mapValues m)))).
    rewrite Htop. unfold withCount.
    rewrite <- filter_app, take_drop. apply symmetry, sortBy_withCount.
  - exists (drop (Z.to_nat n) (sortBy byCountDesc (mapValues m))). split.
    + rewrite Htop, take_drop. apply sortBy_perm.
    + intros a b Ha Hb. rewrite Htop in Ha.
      apply list_elem_of_lookup in Ha as [i Hi].
      apply list_elem_of_lookup in Hb as [j Hj].
      rewrite lookup_drop in Hj.
      pose proof (lookup_lt_Some _ _ _ Hi) as Hlen. rewrite length_take in Hlen.
      rewrite lookup_take_lt in Hi by lia.
      assert (i < Z.to_nat n + j)%nat as Hlt by lia.
      exact (sorted_lookup _ _ _ _ _ Hsorted Hlt Hi Hj).
Qed.

(** ** The run of the profiler *)

Section RunProperties.

Context (env : environment) (orig : originals) (opts : options).

Lemma keepsGlobal_bind {A B} (m : M A) (f : A → M B) :
  keepsGlobal m → (∀ a, keepsGlobal (f a)) → keepsGlobal (m ≫= f).
Proof.
  intros Hm Hf st. unfold mbind, M_bind.
  specialize (Hm st). destruct (m st) as [[a|e] st']; simpl in *.
  - by rewrite Hf.
  - done.
Qed.

Lemma keepsGlobal_ret {A} (a : A) : keepsGlobal (mret a).
Proof. done. Qed.

Lemma keepsGlobal_hostSchedule fn cb delay :
  keepsGlobal (hostSchedule env fn cb delay).
Proof. done. Qed.

Lemma keepsGlobal_hostCancel fn timerId :
  keepsGlobal (hostCancel env fn timerId).
Proof. done. Qed.

Lemma keepsGlobal_consoleLog line : keepsGlobal (consoleLog env line).
Proof. intros st. unfold consoleLog. by destruct (logReply env _). Qed.

Lemma keepsGlobal_applySched f cb delay :
  keepsGlobal (applySched env orig f cb delay).
Proof.
  destruct f; simpl; [apply keepsGlobal_hostSchedule| |];
    (apply keepsGlobal_bind; [done|]; intros stk;
     apply keepsGlobal_bind; [done|]; intros _;
     apply keepsGlobal_bind; [apply keepsGlobal_hostSchedule|]; intros h;
     apply keepsGlobal_bind; [done|]; intros _; apply keepsGlobal_ret).
Qed.

Lemma keepsGlobal_applyCancel f timerId :
  keepsGlobal (applyCancel env orig f timerId).
Proof.
  destruct f; simpl; [apply keepsGlobal_hostCancel| |];
    (apply keepsGlobal_bind; [done|]; intros _; apply keepsGlobal_hostCancel).
Qed.

Lemma keepsGlobal_perform c : keepsGlobal (perform env orig c).
Proof.
  destruct c as [[] cb delay|[] timerId]; simpl.
  - apply keepsGlobal_bind; [|intros; apply keepsGlobal_ret].
    intros st. apply keepsGlobal_applySched.
  - apply keepsGlobal_bind; [|intros; apply keepsGlobal_ret].
    intros st. apply keepsGlobal_applySched.
  - intros st. apply keepsGlobal_applyCancel.
  - intros st. apply keepsGlobal_applyCancel.
Qed.

(** Whatever the callbacks of the window schedule or cancel, and however
    many calls they make, the bindings stay as they are. *)
Lemma keepsGlobal_performAll cs : keepsGlobal (performAll env orig cs).
Proof.
  induction cs as [|c cs IH]; simpl; [done|].
  apply keepsGlobal_bind; [apply keepsGlobal_perform|done].
Qed.

Lemma keepsGlobal_selfSchedule : keepsGlobal (selfSchedule env orig opts).
Proof.
  unfold selfSchedule.
  repeat (apply keepsGlobal_bind; [|intros ?]);
    try apply keepsGlobal_ret; try apply keepsGlobal_hostSchedule;
    intros st; apply keepsGlobal_applySched.
Qed.

Lemma keepsGlobal_announce : keepsGlobal (announce env opts).
Proof.
  unfold announce.
  repeat (apply keepsGlobal_bind; [apply keepsGlobal_consoleLog|intros ?]).
  apply keepsGlobal_consoleLog.
Qed.

Lemma runProfilerStart_split (st : state) :
  runProfilerStart env orig opts st =
  match announce env opts st with
  | (Returns _, st') => selfSchedule env orig opts (withGlobal trackedBindings st')
  | (Throws e, st') => (Throws e, st')
  end.
Proof.
  unfold runProfilerStart, announce, selfSchedule, mbind, M_bind.
  destruct (consoleLog env (MsgStarting _) st) as [[[]|e0] st0]; [|done].
  destruct (consoleLog env (MsgOutputFormat _) st0) as [[[]|e1] st1]; [|done].
  destruct (consoleLog env MsgRecording st1) as [[[]|e2] st2]; [|done].
  done.
Qed.

(** When the start returns, the wrappers are installed. *)
Lemma runProfilerStart_installed (st st1 : state) :
  runProfilerStart env orig opts st = (Returns tt, st1) →
  global st1 = trackedBindings.
Proof.
  rewrite runProfilerStart_split.
  destruct (announce env opts st) as [[[]|e] st'] eqn:E; [|done].
  intros H. pose proof (keepsGlobal_selfSchedule (withGlobal trackedBindings st')) as Hk.
  by rewrite H in Hk.
Qed.

(** The resumption restores the originals, whether it then returns or
    throws while it writes the report. *)
Lemma runProfilerResume_restored (st : state) :
  global (runProfilerResume env orig opts st).2 = hostBindings orig.
Proof.
  unfold runProfilerResume, restoreOriginals, mbind, M_bind, modify.
  set (st' := withGlobal (hostBindings orig) st).
  pose proof (keepsGlobal_consoleLog (MsgReport (report opts st')) st') as H1.
  destruct (consoleLog env (MsgReport _) st') as [[[]|e] st2]; simpl in *; [|done].
  by rewrite keepsGlobal_consoleLog.
Qed.

(** [isNaN(duration) || duration < 1] is false for every command line:
    the default [|| 2] and [Math.max(1, ...)] come first. *)
Lemma badDuration_never : badDuration opts = false.
Proof.
  unfold badDuration, duration.
  destruct (numOr (parseInt10 (valuesDuration opts)) (Some 2%Z)) as [k|] eqn:E.
  - simpl. apply Z.ltb_ge. lia.
  - unfold numOr in E. by destruct (parseInt10 (valuesDuration opts)) as [[]|].
Qed.

Lemma main_runs (Hhelp : optHelp opts = false) (Hout : badOutput opts = false) :
  main env orig opts = runProfiler env orig opts (initialState orig).
Proof. unfold main. by rewrite Hhelp, Hout, badDuration_never. Qed.

End RunProperties.

(** C4.  For every run whose observation window completes -- the start of
    [runProfiler] returns and so do all the calls the callbacks make during
    the wait, however many they are -- the four bindings are the wrappers
    during the window and, once the run is over, the references they held
    before the install. *)
Theorem install_uninstall_round_trip (env : environment) (orig : originals)
    (opts : options) (st st1 st2 : state) :
  global st = hostBindings orig →
  runProfilerStart env orig opts st = (Returns tt, st1) →
  performAll env orig (window env) st1 = (Returns tt, st2) →
  global st1 = trackedBindings
  ∧ global st2 = trackedBindings
  ∧ global (runProfiler env orig opts st).2 = global st.
Proof.
  intros Hg Hstart Hwin.
  pose proof (runProfilerStart_installed _ _ _ _ _ Hstart) as H1.
  pose proof (keepsGlobal_performAll env orig (window env) st1) as H2.
  rewrite Hwin in H2. simpl in H2.
  split_and!; [done|congruence|].
  unfold runProfiler. rewrite Hstart, Hwin.
  pose proof (runProfilerResume_restored env orig opts st2) as H3.
  destruct (runProfilerResume env orig opts st2) as [[[]|e] st3]; simpl in *; congruence.
Qed.

(** A run with one timer scheduled and one cancelled during the window. *)
Lemma install_uninstall_round_trip_witness :
  let env := answeringHost [Schedule SetInterval CbEmpty (Some 100%Z);
                            Cancel SetTimeout 102] in
  global (runProfiler env hostFns noOptions (initialState hostFns)).2
  = hostBindings hostFns.
Proof.
  intros env.
  destruct (runProfilerStart env hostFns noOptions (initialState hostFns))
    as [r1 st1] eqn:E1.
  destruct (performAll env hostFns (window env) st1) as [r2 st2] eqn:E2.
  refine (proj2 (proj2 (install_uninstall_round_trip env hostFns noOptions
            (initialState hostFns) st1 st2 eq_refl _ _))).
  - rewrite E1. vm_compute in E1. by inversion E1.
  - rewrite E2. vm_compute in E1. inversion E1; subst st1.
    vm_compute in E2. by inversion E2.
Defined.

Section Cleanup.

Context (env : environment) (orig : originals) (opts : options).

Lemma announce_returns :
  (∀ n, (n < 3)%nat → logReply env n = Returns tt) →
  ∃ st', announce env opts (initialState orig) = (Returns tt, st')
         ∧ timerStats st' = [] ∧ activeTimers st' = ∅ ∧ hostCalls st' = []
         ∧ stderr st' = [].
Proof.
  intros Hlog. unfold announce, consoleLog, mbind, M_bind. simpl.
  rewrite (Hlog 0%nat) by lia. simpl.
  rewrite (Hlog 1%nat) by lia. simpl.
  rewrite (Hlog 2%nat) by lia. simpl.
  eexists. split_and!; done.
Qed.

(** An exception in the start of [runProfiler] comes after the install
    whenever the three opening lines were written. *)
Lemma runProfilerStart_throws_installed (e : N) (st1 : state) :
  (∀ n, (n < 3)%nat → logReply env n = Returns tt) →
  runProfilerStart env orig opts (initialState orig) = (Throws e, st1) →
  global st1 = trackedBindings.
Proof.
  intros Hlog. rewrite runProfilerStart_split.
  destruct (announce_returns Hlog) as (st' & -> & _).
  intros H.
  pose proof (keepsGlobal_selfSchedule env orig opts (withGlobal trackedBindings st')) as Hk.
  by rewrite H in Hk.
Qed.

End Cleanup.

(** C2, as the code has it.  The originals are restored by the one
    statement that follows the end-of-window wait, not on every exit path.
    Once the three opening lines are written: an exception in the start of
    [runProfiler] ends the process with status 1 and the wrappers still
    installed; an exception that escapes a callback of the window leaves
    them installed too; when the window completes, the originals are back
    before the report is written, so that an exception raised while the
    report is written finds them restored when the handler exits with
    status 1. *)
Theorem restore_only_after_window (env : environment) (orig : originals)
    (opts : options) :
  optHelp opts = false →
  badOutput opts = false →
  (∀ n, (n < 3)%nat → logReply env n = Returns tt) →
  let out := main env orig opts in
  match runProfilerStart env orig opts (initialState orig) with
  | (Throws e, _) => out.1 = Exited 1 ∧ global out.2 = trackedBindings
  | (Returns _, st1) =>
      match performAll env orig (window env) st1 with
      | (Throws e, _) => out.1 = Uncaught e ∧ global out.2 = trackedBindings
      | (Returns _, st2) =>
          global out.2 = hostBindings orig
          ∧ match runProfilerResume env orig opts st2 with
            | (Throws e, _) => out.1 = Exited 1
            | (Returns _, _) => out.1 = Completed
            end
      end
  end.
Proof.
  intros Hhelp Hout Hlog out. subst out.
  rewrite (main_runs env orig opts Hhelp Hout). unfold runProfiler.
  destruct (runProfilerStart env orig opts (initialState orig))
    as [[[]|e] st1] eqn:E1.
  - pose proof (runProfilerStart_installed _ _ _ _ _ E1) as H1.
    pose proof (keepsGlobal_performAll env orig (window env) st1) as H2.
    destruct (performAll env orig (window env) st1) as [[[]|e] st2] eqn:E2;
      simpl in H2.
    + pose proof (runProfilerResume_restored env orig opts st2) as H3.
      destruct (runProfilerResume env orig opts st2) as [[[]|e] st3];
        simpl in *; done.
    + simpl. split; [done|congruence].
  - simpl. split; [done|].
    by eapply runProfilerStart_throws_installed.
Qed.

(** The report cannot be written: the handler exits with status 1 and
    the originals are in place. *)
Lemma restore_only_after_window_witness :
  (main failingReport hostFns noOptions).1 = Exited 1
  ∧ global (main failingReport hostFns noOptions).2 = hostBindings hostFns.
Proof.
  assert (∀ n, (n < 3)%nat → logReply failingReport n = Returns tt) as Hlog.
  { intros [|[|[|n]]] Hn; try reflexivity. lia. }
  generalize (restore_only_after_window failingReport hostFns noOptions
                eq_refl eq_refl Hlog).
  vm_compute. intros [Hg Hs]. split; [exact Hs|exact Hg].
Defined.

(** C2, counterexample.  The host's [setInterval] throws at the first of
    the profiler's own calls: the handler prints the error and exits with
    status 1 while the four bindings still hold the wrappers. *)
Lemma cleanup_on_error_path_counterexample :
  let out := main failingScheduler hostFns noOptions in
  out.1 = Exited 1
  ∧ stderr out.2 = [MsgProfilingError 13]
  ∧ global out.2 = trackedBindings
  ∧ global out.2 ≠ global (initialState hostFns).
Proof. vm_compute. split_and!; try reflexivity. discriminate. Qed.

(** ** The profiler's own timers *)

Section OwnTimers.

Lemma totalCalls_from (a : N) (l : list stat) :
  foldl (λ sum s, sum + count s) a l = a + totalCalls l.
Proof.
  unfold totalCalls. revert a.
  induction l as [|x l IH]; intros a; simpl; [lia|].
  rewrite (IH (a + count x)), (IH (0 + count x)). lia.
Qed.

Lemma totalCalls_cons (x : stat) (l : list stat) :
  totalCalls (x :: l) = count x + totalCalls l.
Proof. unfold totalCalls at 1. simpl. by rewrite totalCalls_from. Qed.

Lemma totalCalls_app (l1 l2 : list stat) :
  totalCalls (l1 ++ l2) = totalCalls l1 + totalCalls l2.
Proof.
  induction l1 as [|x l1 IH]; simpl; [done|].
  rewrite !totalCalls_cons, IH. lia.
Qed.

Lemma sumCounts_mutate (key : jsstring) (f : stat → stat) (m : statsMap)
    (r : stat) :
  mapGet key m = Some r →
  sumCounts (mapMutate key f m) + count r = sumCounts m + count (f r).
Proof.
  unfold sumCounts, mapValues.
  induction m as [|[k v] m IH]; simpl; [done|].
  destruct (JsString.eqb k key); simpl; rewrite !totalCalls_cons.
  - intros [= ->]. lia.
  - intros H. specialize (IH H). lia.
Qed.

(** Every recorded call adds one to the sum of the counts. *)
Lemma sumCounts_record (ty : timerType) (stk : option jsstring) (m : statsMap) :
  sumCounts (recordTimerCall ty stk m) = sumCounts m + 1.
Proof.
  unfold recordTimerCall, mapHas, mapSetNew.
  destruct (mapGet (extractCallSiteSignature stk) m) as [r|] eqn:E.
  - pose proof (sumCounts_mutate _
      (λ stat, {| count := count stat + 1; type := ty;
                  signature := signature stat; stack := stack stat;
                  caller := caller stat |}) _ _ E) as H.
    simpl in H. lia.
  - unfold sumCounts, mapValues. rewrite map_app, totalCalls_app. simpl.
    rewrite totalCalls_cons. simpl. unfold totalCalls. simpl. lia.
Qed.

Context (env : environment) (orig : originals) (opts : options).

(** While the wrappers are installed, a call of the window that returns
    adds one to the sum of the counts when it schedules, nothing when it
    cancels. *)
Lemma perform_tracked_sum (c : call) (st st' : state) :
  global st = trackedBindings →
  perform env orig c st = (Returns tt, st') →
  sumCounts (timerStats st') = sumCounts (timerStats st) + scheduled [c].
Proof.
  intros Hg.
  destruct c as [[] cb delay|[] timerId];
    unfold perform, callSetTimeout, callSetInterval, callClearTimeout,
      callClearInterval, mbind, M_bind; rewrite Hg; simpl;
    unfold trackedSetTimeout, trackedSetInterval, trackedClearTimeout,
      trackedClearInterval, hostSchedule, hostCancel, captureStack, modify,
      mbind, M_bind, mret, M_ret; simpl.
  - destruct (scheduleReply env _); intros [= <-]; simpl.
    by rewrite sumCounts_record.
  - destruct (scheduleReply env _); intros [= <-]; simpl.
    by rewrite sumCounts_record.
  - intros [= _ <-]. simpl. lia.
  - intros [= _ <-]. simpl. lia.
Qed.

(** While the wrappers are installed, a scheduling call is recorded with
    the name of the primitive and the stack captured in the wrapper,
    whatever the original function then answers. *)
Lemma perform_schedule_records (t : timerType) (cb : callback)
    (delay : number) (st : state) :
  global st = trackedBindings →
  timerStats (perform env orig (Schedule t cb delay) st).2
  = recordTimerCall t (errorStack env (length (hostCalls st))) (timerStats st).
Proof.
  intros Hg.
  destruct t; unfold perform, callSetTimeout, callSetInterval, mbind, M_bind;
    rewrite Hg; unfold_wrappers; by destruct (scheduleReply env _).
Qed.

Lemma performAll_tracked_sum (cs : list call) (st st' : state) :
  global st = trackedBindings →
  performAll env orig cs st = (Returns tt, st') →
  sumCounts (timerStats st') = sumCounts (timerStats st) + scheduled cs.
Proof.
  revert st. induction cs as [|c cs IH]; intros st Hg; simpl.
  - intros [= <-]. lia.
  - unfold mbind, M_bind.
    pose proof (keepsGlobal_perform env orig c st) as Hk.
    destruct (perform env orig c st) as [[[]|e] st1] eqn:E; [|done].
    simpl in Hk. intros H.
    apply IH in H; [|congruence].
    apply perform_tracked_sum in E; [|done].
    rewrite H, E. simpl. destruct c; lia.
Qed.

Lemma runProfilerResume_stats (st st' : state) (r : resp unit) :
  runProfilerResume env orig opts st = (r, st') →
  timerStats st' = timerStats st ∧ activeTimers st' = activeTimers st.
Proof.
  unfold runProfilerResume, restoreOriginals, consoleLog, modify, mbind, M_bind.
  simpl. destruct (logReply env _); [|by intros [= _ <-]].
  simpl. destruct (logReply env _); by intros [= _ <-].
Qed.

End OwnTimers.

(** C10.  Whenever the start of [runProfiler] returns, the profiler has
    issued, through the wrappers, two [setInterval] calls and one
    [setTimeout] call of its own: the three calls are in the map (the
    counts sum to 3), their three handles are the active set, and they
    reached the original functions; the end-of-window wait went to the
    original [setTimeout] directly and is in neither.  A run that
    completes has recorded these three calls and the scheduling calls of
    the window, so that the sum is 3 in an idle process. *)
Theorem own_timers_are_recorded (env : environment) (orig : originals)
    (opts : options) (st1 : state) :
  runProfilerStart env orig opts (initialState orig) = (Returns tt, st1) →
  (∃ h1 h2 h3 h4,
     scheduleReply env 0 = Returns h1 ∧ scheduleReply env 1 = Returns h2
     ∧ scheduleReply env 2 = Returns h3 ∧ scheduleReply env 3 = Returns h4
     ∧ activeTimers st1 = {[h1; h2; h3]})
  ∧ timerStats st1 =
      recordAll [(SetInterval, errorStack env 0); (SetInterval, errorStack env 1);
                 (SetTimeout, errorStack env 2)] []
  ∧ sumCounts (timerStats st1) = 3
  ∧ hostCalls st1 =
      [HostSchedule (originalSetInterval orig) CbEmpty (Some 500%Z);
       HostSchedule (originalSetInterval orig) CbEmpty (Some 250%Z);
       HostSchedule (originalSetTimeout orig) CbSpawnInterval (Some 100%Z);
       HostSchedule (originalSetTimeout orig) CbResolve (windowDelay opts)]
  ∧ (∀ st, runProfiler env orig opts (initialState orig) = (Completed, st) →
       sumCounts (timerStats st) = 3 + scheduled (window env)).
Proof.
  intros Hstart.
  assert (timerStats st1 =
      recordAll [(SetInterval, errorStack env 0); (SetInterval, errorStack env 1);
                 (SetTimeout, errorStack env 2)] []
    ∧ (∃ h1 h2 h3 h4,
     scheduleReply env 0 = Returns h1 ∧ scheduleReply env 1 = Returns h2
     ∧ scheduleReply env 2 = Returns h3 ∧ scheduleReply env 3 = Returns h4
     ∧ activeTimers st1 = {[h1; h2; h3]})
    ∧ hostCalls st1 =
      [HostSchedule (originalSetInterval orig) CbEmpty (Some 500%Z);
       HostSchedule (originalSetInterval orig) CbEmpty (Some 250%Z);
       HostSchedule (originalSetTimeout orig) CbSpawnInterval (Some 100%Z);
       HostSchedule (originalSetTimeout orig) CbResolve (windowDelay opts)])
    as (Hstats & Hactive & Hcalls).
  { revert Hstart.
    unfold runProfilerStart, consoleLog, installWrappers, callSetInterval,
      callSetTimeout, modify, mbind, M_bind, mret, M_ret. simpl.
    destruct (logReply env 0%nat); [simpl|done].
    destruct (logReply env 1%nat); [simpl|done].
    destruct (logReply env 2%nat); [simpl|done].
    unfold_wrappers.
    destruct (scheduleReply env 0%nat) as [h1|]; [unfold_wrappers|done].
    destruct (scheduleReply env 1%nat) as [h2|]; [unfold_wrappers|done].
    destruct (scheduleReply env 2%nat) as [h3|]; [unfold_wrappers|done].
    destruct (scheduleReply env 3%nat) as [h4|]; [simpl|done].
    intros [= <-]. simpl. split_and!; [done| |done].
    exists h1, h2, h3, h4. split_and!; try done.
    apply set_eq. intros x.
    rewrite !elem_of_union, !elem_of_singleton, elem_of_empty. tauto. }
  assert (sumCounts (timerStats st1) = 3) as Hsum.
  { rewrite Hstats. unfold recordAll. simpl. by rewrite !sumCounts_record. }
  split_and!; try done.
  intros st. unfold runProfiler. rewrite Hstart.
  pose proof (runProfilerStart_installed _ _ _ _ _ Hstart) as Hg.
  destruct (performAll env orig (window env) st1) as [[[]|e] st2] eqn:E2; [|done].
  apply performAll_tracked_sum in E2; [|done].
  destruct (runProfilerResume env orig opts st2) as [[[]|e] st3] eqn:E3; [|done].
  apply runProfilerResume_stats in E3 as [E3 _].
  intros [= <-]. rewrite E3, E2, Hsum. done.
Qed.

(** The run of an idle process on V8: the three calls share one record. *)
Lemma own_timers_are_recorded_witness :
  let out := runProfiler (answeringHost []) hostFns noOptions (initialState hostFns) in
  out.1 = Completed ∧ sumCounts (timerStats out.2) = 3
  ∧ activeTimers out.2 = {[100; 101; 102]}.
Proof.
  destruct (runProfilerStart (answeringHost []) hostFns noOptions
              (initialState hostFns)) as [r1 st1] eqn:E1.
  assert (r1 = Returns tt) as -> by (vm_compute in E1; by inversion E1).
  generalize (own_timers_are_recorded (answeringHost []) hostFns noOptions st1 E1).
  intros (_ & _ & _ & _ & Hrun).
  vm_compute in E1. inversion E1 as [Hst1]. clear E1.
  split_and!; [by vm_compute| |by vm_compute].
  destruct (runProfiler (answeringHost []) hostFns noOptions (initialState hostFns))
    as [r st] eqn:E.
  assert (r = Completed) as -> by (vm_compute in E; by inversion E).
  exact (Hrun st eq_refl).
Defined.

(** ** The duration option *)

(** C3, on the code.  No value of [--duration] is an error: the check
    that would print 'Error: --duration must be a positive number' is
    false for every command line, a value [parseInt] makes [NaN] of
    becomes 2, and unless [--help] or a bad [--output] ends the module
    first it goes on to [runProfiler]. *)
Theorem non_numeric_duration_is_accepted (env : environment)
    (orig : originals) (opts : options) :
  optHelp opts = false →
  badOutput opts = false →
  badDuration opts = false
  ∧ (parseInt10 (valuesDuration opts) = None → duration opts = Some 2%Z)
  ∧ main env orig opts = runProfiler env orig opts (initialState orig).
Proof.
  intros Hhelp Hout. split_and!.
  - apply badDuration_never.
  - intros Hnan. unfold duration. by rewrite Hnan.
  - by apply main_runs.
Qed.

(** [--duration abc] on a host that answers every call: the run completes
    with nothing on the error stream, the wrappers having been installed
    (three calls recorded) and the window set to 2000 ms. *)
Lemma non_numeric_duration_is_accepted_witness :
  let out := main (answeringHost []) hostFns durationAbc in
  parseInt10 (js "abc") = None
  ∧ duration durationAbc = Some 2%Z
  ∧ out = runProfiler (answeringHost []) hostFns durationAbc (initialState hostFns)
  ∧ out.1 = Completed
  ∧ stderr out.2 = []
  ∧ sumCounts (timerStats out.2) = 3
  ∧ last (hostCalls out.2) = Some (HostSchedule 1 CbResolve (Some 2000%Z)).
Proof.
  intros out.
  destruct (non_numeric_duration_is_accepted (answeringHost []) hostFns
              durationAbc eq_refl eq_refl) as (_ & Hdur & Hmain).
  split_and!.
  - by vm_compute.
  - by apply Hdur.
  - exact Hmain.
  - by vm_compute.
  - by vm_compute.
  - by vm_compute.
  - by vm_compute.
Defined.

(** ** Signatures of call sites *)

Section Signatures.

Lemma scanSignature_cons (l : jsstring) (rest : list jsstring) :
  scanSignature (l :: rest) =
  if negb (truthy (trim l)) || startsWith (js "at ") (trim l)
  then scanSignature rest
  else match exec 4 locationPattern (trim l) with
       | Some m => cliSignature m
       | None => scanSignature rest
       end.
Proof. reflexivity. Qed.

Lemma scanSite_cons (l : jsstring) (rest : list jsstring) :
  scanSite (l :: rest) =
  match exec 4 locationPattern (trim l) with
  | Some m => consoleSignature m
  | None => scanSite rest
  end.
Proof. reflexivity. Qed.

(** The lines that are passed over never reach the pattern. *)
Lemma scanSignature_passedOver (lines : list jsstring) :
  forallb passedOver lines = true →
  scanSignature lines = js "<unknown call site>".
Proof.
  induction lines as [|l lines IH]; [done|].
  cbn [forallb]. intros [Hl Hrest]%andb_prop.
  unfold passedOver in Hl. rewrite scanSignature_cons, Hl. by apply IH.
Qed.

Lemma extractCallSiteSignature_absent :
  extractCallSiteSignature None = js "<unknown>"
  ∧ extractCallSiteSignature (Some []) = js "<unknown>".
Proof. done. Qed.

End Signatures.

(** C1, on the code.  A trace in which every line after the first is
    blank or begins, once trimmed, with 'at ' gets the signature
    '<unknown call site>': the loop passes over these lines before it
    tries the pattern, whether the pattern would match them or not. *)
Theorem at_frames_are_passed_over (s : jsstring) :
  s ≠ [] →
  forallb passedOver (tail (split LF s)) = true →
  extractCallSiteSignature (Some s) = js "<unknown call site>".
Proof.
  intros Hs Hlines. unfold extractCallSiteSignature.
  destruct s as [|c s]; [done|]. cbn [truthy negb].
  by apply scanSignature_passedOver.
Qed.

(** The pattern finds the function, the path and the line in
    [at foo (/a/b.js:10:5)], and the path and the line in
    [at /a/b.js:10:5]; the traces made of these frames, and the trace of
    V8 inside the wrappers, get '<unknown call site>'. *)
Lemma at_frames_are_passed_over_witness :
  let fnFrame := js "    at foo (/a/b.js:10:5)" in
  let pathFrame := js "    at /a/b.js:10:5" in
  exec 4 locationPattern (trim fnFrame)
    = Some [Some (js "at foo (/a/b.js:10:5)"); Some (js "foo");
            Some (js "/a/b.js"); Some (js "10"); Some (js "5")]
  ∧ exec 4 locationPattern (trim pathFrame)
    = Some [Some (js "at /a/b.js:10:5"); None;
            Some (js "/a/b.js"); Some (js "10"); Some (js "5")]
  ∧ extractCallSiteSignature (Some (unlines [js "Error"; fnFrame]))
    = js "<unknown call site>"
  ∧ extractCallSiteSignature (Some (unlines [js "Error"; pathFrame]))
    = js "<unknown call site>"
  ∧ extractCallSiteSignature (Some v8Trace) = js "<unknown call site>".
Proof.
  intros fnFrame pathFrame. split_and!.
  - by vm_compute.
  - by vm_compute.
  - apply at_frames_are_passed_over; [discriminate|by vm_compute].
  - apply at_frames_are_passed_over; [discriminate|by vm_compute].
  - apply at_frames_are_passed_over; [discriminate|by vm_compute].
Defined.

(** ** What a match of the pattern tells about the line *)

Section Matcher.

Lemma starGreedy_sound (p : N → bool) (s : jsstring)
    (k : jsstring → option captures) (m : captures) :
  starGreedy p s k = Some m → ∃ u t, s = u ++ t ∧ k t = Some m.
Proof.
  induction s as [|c s IH]; simpl.
  - intros H. by exists [], [].
  - destruct (p c).
    + destruct (starGreedy p s k) as [m'|] eqn:E.
      * intros [= ->]. destruct (IH eq_refl) as (u & t & -> & Hk).
        by exists (c :: u), t.
      * intros H. by exists [], (c :: s).
    + intros H. by exists [], (c :: s).
Qed.

Lemma starLazy_sound (p : N → bool) (s : jsstring)
    (k : jsstring → option captures) (m : captures) :
  starLazy p s k = Some m → ∃ u t, s = u ++ t ∧ k t = Some m.
Proof.
  induction s as [|c s IH]; simpl.
  - destruct (k []) eqn:E; [|done]. intros [= ->]. by exists [], [].
  - destruct (k (c :: s)) eqn:E.
    + intros [= ->]. by exists [], (c :: s).
    + destruct (p c); [|done]. intros H.
      destruct (IH H) as (u & t & -> & Hk). by exists (c :: u), t.
Qed.

(** A successful match of [r] consumed a prefix [u] of the input and the
    rest of the pattern succeeded on what is left, with captures that
    differ from the ones before [r] in the groups of [r] only. *)
Lemma rmatch_sound (r : regex) (s : jsstring) (caps : captures) (k : cont)
    (m : captures) :
  rmatch r s caps k = Some m →
  ∃ u t caps', s = u ++ t ∧ k t caps' = Some m
               ∧ length caps' = length caps
               ∧ ∀ i, i ∉ groupsOf r → caps' !! i = caps !! i.
Proof.
  revert s caps k.
  induction r as [c|p|p|r1 IH1|r1 IH1 r2 IH2|n r1 IH1]; intros s caps k; simpl.
  - destruct s as [|x s]; [done|]. destruct (x =? c); [|done].
    intros H. by exists [x], s, caps.
  - destruct s as [|x s]; [done|]. destruct (p x); [|done].
    intros H. apply starGreedy_sound in H as (u & t & -> & Hk).
    by exists (x :: u), t, caps.
  - destruct s as [|x s]; [done|]. destruct (p x); [|done].
    intros H. apply starLazy_sound in H as (u & t & -> & Hk).
    by exists (x :: u), t, caps.
  - destruct (rmatch r1 s caps k) as [m'|] eqn:E.
    + intros [= ->]. by apply IH1.
    + intros H. by exists [], s, caps.
  - intros H.
    apply IH1 in H as (u1 & t1 & c1 & -> & H & Hlen1 & Hframe1).
    apply IH2 in H as (u2 & t2 & c2 & -> & H & Hlen2 & Hframe2).
    exists (u1 ++ u2), t2, c2. split_and!; [by rewrite app_assoc|done|congruence|].
    intros i Hi. rewrite not_elem_of_app in Hi. destruct Hi as [Hi1 Hi2].
    by rewrite Hframe2, Hframe1.
  - intros H.
    apply IH1 in H as (u & t & c1 & -> & H & Hlen & Hframe).
    exists u, t, (<[n := Some (take (length (u ++ t) - length t) (u ++ t))]> c1).
    split_and!; [done|exact H| |].
    + by rewrite length_insert.
    + intros i Hi. rewrite not_elem_of_cons in Hi. destruct Hi as [Hne Hi].
      rewrite list_lookup_insert_ne by done. by apply Hframe.
Qed.

(** A match of [s.match(r)] is a match at some position of [s]. *)
Lemma exec_sound (ngroups : nat) (r : regex) (s : jsstring) (m : captures) :
  exec ngroups r s = Some m →
  ∃ pre t, s = pre ++ t
    ∧ rmatch (Group 0 r) t (replicate (S ngroups) None) (λ _ caps, Some caps)
      = Some m.
Proof.
  induction s as [|x s IH].
  - cbn [exec].
    destruct (rmatch (Group 0 r) [] _ _) as [m'|] eqn:E; [|done].
    intros [= ->]. by exists [], [].
  - cbn [exec].
    destruct (rmatch (Group 0 r) (x :: s) _ _) as [m'|] eqn:E.
    + intros [= ->]. by exists [], (x :: s).
    + intros H. destruct (IH H) as (pre & t & -> & Hm).
      by exists (x :: pre), t.
Qed.

Lemma rmatch_Seq (r1 r2 : regex) (s : jsstring) (caps : captures) (k : cont) :
  rmatch (Seq r1 r2) s caps k = rmatch r1 s caps (λ t caps', rmatch r2 t caps' k).
Proof. reflexivity. Qed.

Lemma rmatch_Group (n : nat) (r : regex) (s : jsstring) (caps : captures)
    (k : cont) :
  rmatch (Group n r) s caps k =
  rmatch r s caps
    (λ t caps', k t (<[n := Some (take (length s - length t) s)]> caps')).
Proof. reflexivity. Qed.

Lemma rmatch_Chr (c : N) (s : jsstring) (caps : captures) (k : cont)
    (m : captures) :
  rmatch (Chr c) s caps k = Some m → ∃ t, s = c :: t ∧ k t caps = Some m.
Proof.
  destruct s as [|x s]; simpl; [done|].
  destruct (x =? c) eqn:E; [|done]. apply N.eqb_eq in E as ->.
  intros H. by exists s.
Qed.

(** In a match of the location pattern, the path (group 2) stands in the
    line right before a colon. *)
Lemma locationPattern_path (line : jsstring) (m : captures) :
  exec 4 locationPattern line = Some m →
  occursIn (groupStr m 2 ++ [58]) line.
Proof.
  intros H. apply exec_sound in H as (pre & t & -> & H).
  unfold locationPattern in H. rewrite rmatch_Group in H.
  (* 'a', 't', the white space, the optional function name, the optional
     parenthesis *)
  rewrite rmatch_Seq in H.
  apply rmatch_sound in H as (u1 & t1 & c1 & -> & H & L1 & _). cbv beta in H.
  rewrite rmatch_Seq in H.
  apply rmatch_sound in H as (u2 & t2 & c2 & -> & H & L2 & _). cbv beta in H.
  rewrite rmatch_Seq in H.
  apply rmatch_sound in H as (u3 & t3 & c3 & -> & H & L3 & _). cbv beta in H.
  rewrite rmatch_Seq in H.
  apply rmatch_sound in H as (u4 & t4 & c4 & -> & H & L4 & _). cbv beta in H.
  rewrite rmatch_Seq in H.
  apply rmatch_sound in H as (u5 & t5 & c5 & -> & H & L5 & _). cbv beta in H.
  (* the path, lazily, and the colon *)
  rewrite rmatch_Seq, rmatch_Group in H.
  apply rmatch_sound in H as (u6 & t6 & c6 & -> & H & L6 & _). cbv beta in H.
  rewrite rmatch_Seq in H.
  apply rmatch_Chr in H as (t6' & -> & H).
  (* the line number, the colon, the column, the closing parenthesis *)
  rewrite rmatch_Seq in H.
  apply rmatch_sound in H as (u7 & t7 & c7 & -> & H & L7 & F7). cbv beta in H.
  rewrite rmatch_Seq in H.
  apply rmatch_sound in H as (u8 & t8 & c8 & -> & H & L8 & F8). cbv beta in H.
  rewrite rmatch_Seq in H.
  apply rmatch_sound in H as (u9 & t9 & c9 & -> & H & L9 & F9). cbv beta in H.
  apply rmatch_sound in H as (u10 & t10 & c10 & -> & H & L10 & F10).
  injection H as <-.
  unfold groupStr, group.
  rewrite list_lookup_insert_ne by done.
  rewrite F10, F9, F8, F7
    by (simpl; repeat (apply not_elem_of_cons; split; [done|]);
        apply not_elem_of_nil).
  rewrite list_lookup_insert_eq
    by (rewrite L6, L5, L4, L3, L2, L1; simpl; lia).
  simpl. rewrite length_app, Nat.add_sub, take_app_length.
  exists (pre ++ u1 ++ u2 ++ u3 ++ u4 ++ u5), (u7 ++ u8 ++ u9 ++ u10 ++ t10).
  by rewrite <- !app_assoc.
Qed.

End Matcher.

(** ** The console snippet against the CLI profiler *)

Section ConsoleAgainstCli.

Lemma slashColon_cons (c : N) (s : jsstring) :
  slashColon s = true → slashColon (c :: s) = true.
Proof.
  intros H. destruct s as [|d r]; [done|].
  cbn [slashColon] in *. rewrite H. apply orb_true_r.
Qed.

Lemma occursIn_slashColon (s : jsstring) :
  occursIn [47; 58] s → slashColon s = true.
Proof.
  intros (pre & post & ->).
  induction pre as [|c pre IH]; [done|].
  by apply slashColon_cons.
Qed.

Lemma occursIn_app_l (t s pre : jsstring) : occursIn t s → occursIn t (pre ++ s).
Proof.
  intros (a & b & ->). exists (pre ++ a), b. by rewrite <- app_assoc.
Qed.

Lemma occursIn_app_r (t s post : jsstring) : occursIn t s → occursIn t (s ++ post).
Proof.
  intros (a & b & ->). exists a, (b ++ post). by rewrite <- !app_assoc.
Qed.

Lemma trimStart_suffix (s : jsstring) : ∃ pre, s = pre ++ trimStart s.
Proof.
  induction s as [|c s [pre IH]]; simpl; [by exists []|].
  destruct (isWhiteSpace c).
  - exists (c :: pre). simpl. by rewrite <- IH.
  - by exists [].
Qed.

Lemma trim_occursIn (t l : jsstring) : occursIn t (trim l) → occursIn t l.
Proof.
  unfold trim, trimEnd. intros H.
  destruct (trimStart_suffix l) as [pre Hpre].
  destruct (trimStart_suffix (rev (trimStart l))) as [pre' Hpre'].
  apply (f_equal (@rev N)) in Hpre'. rewrite rev_involutive, rev_app_distr in Hpre'.
  rewrite Hpre, Hpre'. by apply occursIn_app_l, occursIn_app_r.
Qed.

Lemma split_nonempty (sep : N) (s : jsstring) : split sep s ≠ [].
Proof.
  destruct s as [|c s]; simpl; [done|].
  destruct (c =? sep); [done|]. by destruct (split sep s).
Qed.

Lemma split_head_prefix (sep : N) (s : jsstring) :
  ∃ h t post, split sep s = h :: t ∧ s = h ++ post.
Proof.
  induction s as [|c s (h & t & post & IH & Hs)]; simpl.
  - by exists [], [], [].
  - destruct (c =? sep).
    + by exists [], (split sep s), (c :: s).
    + rewrite IH. exists (c :: h), t, post. by rewrite Hs at 1.
Qed.

(** A line of [s.split(sep)] is a run of adjacent code units of [s]. *)
Lemma split_occursIn (sep : N) (s l : jsstring) :
  l ∈ split sep s → occursIn l s.
Proof.
  revert l. induction s as [|c s IH]; intros l; simpl.
  - intros ->%list_elem_of_singleton. by exists [], [].
  - destruct (c =? sep).
    + intros [->|H]%elem_of_cons.
      * by exists [], (c :: s).
      * apply (occursIn_app_l _ _ [c]). by apply IH.
    + destruct (split_head_prefix sep s) as (h & t & post & E & Hs).
      rewrite E in *.
      intros [->|H]%elem_of_cons.
      * exists [], post. simpl. by rewrite Hs at 1.
      * apply (occursIn_app_l _ _ [c]). apply IH. by right.
Qed.

End ConsoleAgainstCli.

Section SignaturesCompared.

Lemma last_split_empty (p : jsstring) :
  pop (split 47 p) = [] → p = [] ∨ ∃ q, p = q ++ [47].
Proof.
  unfold pop. induction p as [|c p IH]; [by left|]. intros H. right.
  simpl in H.
  destruct (split_head_prefix 47 p) as (h & t & post & E & Hs).
  destruct (c =? 47) eqn:Ec.
  - apply N.eqb_eq in Ec as ->. rewrite E in *.
    destruct (IH H) as [->|[q ->]]; [by exists []|by exists (47 :: q)].
  - rewrite E in *.
    destruct t as [|h' t]; [done|].
    destruct (IH H) as [->|[q ->]]; [done|by exists (c :: q)].
Qed.

Lemma orElse_nonempty (a b : jsstring) : a ≠ [] → orElse a b = a.
Proof. by destruct a. Qed.

(** The two signatures of a match differ only when the path ends in a
    slash, where the console snippet has an empty file name. *)
Lemma signatures_agree (m : captures) :
  (∀ q, groupStr m 2 ≠ q ++ [47]) → cliSignature m = consoleSignature m.
Proof.
  intros Hp. unfold cliSignature, consoleSignature.
  destruct (decide (pop (split 47 (groupStr m 2)) = [])) as [E|E].
  - destruct (last_split_empty _ E) as [E'|[q E']]; [|by destruct (Hp q)].
    by rewrite E'.
  - by rewrite orElse_nonempty.
Qed.

Lemma cliSignature_colon (m : captures) : 58 ∈ cliSignature m.
Proof.
  unfold cliSignature.
  destruct (group m 1) as [fn|]; [destruct (truthy fn)|];
    apply elem_of_app; right; left.
Qed.

Lemma consoleSignature_colon (m : captures) : 58 ∈ consoleSignature m.
Proof.
  unfold consoleSignature.
  destruct (group m 1) as [fn|]; [destruct (truthy fn)|];
    apply elem_of_app; right; left.
Qed.

Lemma sentinels_without_colon :
  (58 ∉ js "<unknown call site>") ∧ (58 ∉ js "<unknown>").
Proof.
  split; intros H; vm_compute in H;
    repeat (apply elem_of_cons in H as [H|H]; [done|]);
    by apply elem_of_nil in H.
Qed.

(** Where no line begins with 'at ', the two loops stop at the same line:
    both fall through to their sentinels, or both format the same match. *)
Lemma scans_related (lines : list jsstring) :
  forallb (λ l, negb (startsWith (js "at ") (trim l))) lines = true →
  (scanSignature lines = js "<unknown call site>"
   ∧ scanSite lines = js "<unknown>")
  ∨ (∃ l m, l ∈ lines ∧ exec 4 locationPattern (trim l) = Some m
            ∧ scanSignature lines = cliSignature m
            ∧ scanSite lines = consoleSignature m).
Proof.
  induction lines as [|l lines IH]; [by left|].
  cbn [forallb]. intros [Hl Hrest]%andb_prop. apply negb_true_iff in Hl.
  rewrite scanSignature_cons, scanSite_cons, Hl, orb_false_r.
  destruct (trim l) as [|c line] eqn:Et.
  - cbn [truthy negb].
    replace (exec 4 locationPattern []) with (@None captures) by done.
    destruct (IH Hrest) as [?|(l' & m & Hin & ?)]; [by left|].
    right. exists l', m. split; [by right|done].
  - cbn [truthy negb].
    destruct (exec 4 locationPattern (c :: line)) as [m|] eqn:Em.
    + right. exists l, m. rewrite Et. split; [left|done].
    + destruct (IH Hrest) as [?|(l' & m & Hin & ?)]; [by left|].
      right. exists l', m. split; [by right|done].
Qed.

End SignaturesCompared.

(** C9, as the code has it.  The console snippet and the CLI profiler use
    the same pattern and both answer '<unknown>' to an absent or empty
    trace.  On a trace none of whose lines after the first begins, once
    trimmed, with 'at ': the console snippet answers '<unknown>' exactly
    when the CLI answers '<unknown call site>' (no line matches: the
    sentinels differ); and when a line matches, the two signatures are
    equal provided no slash stands right before a colon in the trace
    (the console snippet has no fallback for a path that ends in a
    slash). *)
Theorem console_signature_against_cli (s : jsstring) :
  (extractCallSite None = js "<unknown>"
   ∧ extractCallSiteSignature None = js "<unknown>"
   ∧ extractCallSite (Some []) = js "<unknown>"
   ∧ extractCallSiteSignature (Some []) = js "<unknown>")
  ∧ (s ≠ [] → noAtFrames s = true →
     (extractCallSite (Some s) = js "<unknown>"
      ↔ extractCallSiteSignature (Some s) = js "<unknown call site>")
     ∧ (extractCallSiteSignature (Some s) ≠ js "<unknown call site>" →
        slashColon s = false →
        extractCallSite (Some s) = extractCallSiteSignature (Some s))).
Proof.
  split; [done|]. intros Hs Hat.
  unfold extractCallSite, extractCallSiteSignature.
  destruct s as [|c s]; [done|]. cbn [truthy negb].
  destruct sentinels_without_colon as [Hcli Hconsole].
  destruct (scans_related _ Hat) as [[E1 E2]|(l & m & Hin & Hm & E1 & E2)];
    rewrite E1, E2.
  - split; [done|]. by intros H.
  - split.
    + split; intros H; exfalso.
      * apply Hconsole. rewrite <- H. apply consoleSignature_colon.
      * apply Hcli. rewrite <- H. apply cliSignature_colon.
    + intros _ Hsc. symmetry. apply signatures_agree. intros q Hq.
      apply locationPattern_path in Hm. rewrite Hq in Hm.
      assert (occursIn [47; 58] (trim l)) as Ho.
      { destruct Hm as (pre & post & ->). exists (pre ++ q), post.
        by rewrite <- !app_assoc. }
      apply trim_occursIn in Ho.
      assert (occursIn l (c :: s)) as (pre & post & Hl).
      { apply (split_occursIn LF).
        destruct (split LF (c :: s)) as [|l0 ls]; [done|by right]. }
      rewrite Hl in Hsc.
      rewrite occursIn_slashColon in Hsc; [done|].
      by apply occursIn_app_l, occursIn_app_r.
Qed.

(** A frame that does not begin with 'at ': both functions give the same
    signature. *)
Lemma console_signature_against_cli_witness :
  let s := unlines [js "Error"; js "(at poll /app/main.js:7:3)"] in
  extractCallSite (Some s) = extractCallSiteSignature (Some s).
Proof.
  intros s.
  refine (proj2 (proj2 (console_signature_against_cli s) _ eq_refl) _ eq_refl).
  - discriminate.
  - by vm_compute.
Defined.

(** C9, counterexample.  A trace without a frame: the CLI profiler answers
    '<unknown call site>', the console snippet '<unknown>'.  A frame whose
    path ends in a slash: the CLI falls back to the path, the console
    snippet prints an empty file name. *)
Lemma console_signature_differs_counterexample :
  let noFrame := Some (unlines [js "Error"; js "no frame here"]) in
  let slashPath := Some (unlines [js "Error"; js "(at /srv/app/:3:1)"]) in
  extractCallSiteSignature noFrame = js "<unknown call site>"
  ∧ extractCallSite noFrame = js "<unknown>"
  ∧ extractCallSite noFrame ≠ extractCallSiteSignature noFrame
  ∧ extractCallSiteSignature slashPath = js "/srv/app/:3"
  ∧ extractCallSite slashPath = js ":3"
  ∧ extractCallSite slashPath ≠ extractCallSiteSignature slashPath.
Proof. vm_compute. split_and!; done. Qed.

(** ** Percentages *)

Section Binary64.

Local Open Scope Q_scope.

Lemma pow2_pos (e : Z) : 0 < pow2 e.
Proof. apply Qpower_0_lt. reflexivity. Qed.

Lemma pow2_add (a b : Z) : pow2 (a + b) == pow2 a * pow2 b.
Proof. apply Qpower_plus. discriminate. Qed.

Lemma pow2_of_Z (n : Z) : (0 ≤ n)%Z → inject_Z (2 ^ n) == pow2 n.
Proof. intros Hn. unfold pow2. by rewrite Zpower_Qpower. Qed.

Lemma nearestEven_error (s : Q) :
  s - (1 # 2) <= inject_Z (nearestEven s) <= s + (1 # 2).
Proof.
  unfold nearestEven.
  pose proof (Qfloor_le s) as Hlo. pose proof (Qlt_floor s) as Hhi.
  rewrite inject_Z_plus in Hhi. change (inject_Z 1) with 1 in Hhi.
  destruct (Qle_bool (s - inject_Z (Qfloor s)) (1 # 2)) eqn:E1.
  - apply Qle_bool_iff in E1.
    destruct (Qle_bool (1 # 2) (s - inject_Z (Qfloor s))) eqn:E2.
    + apply Qle_bool_iff in E2.
      destruct (Z.even (Qfloor s)); rewrite ?inject_Z_plus;
        change (inject_Z 1) with 1; lra.
    + lra.
  - assert (¬ s - inject_Z (Qfloor s) <= 1 # 2) as Hr.
    { intros Hc. apply Qle_bool_iff in Hc. congruence. }
    rewrite inject_Z_plus. change (inject_Z 1) with 1. lra.
Qed.

Lemma log2_bounds (a : Z) :
  (0 < a)%Z →
  pow2 (Z.log2 a) <= inject_Z a ∧ inject_Z a <= pow2 (Z.log2 a + 1).
Proof.
  intros Ha. destruct (Z.log2_spec a Ha) as [Hlo Hhi].
  pose proof (Z.log2_nonneg a) as Hnn.
  rewrite <- !pow2_of_Z by lia. rewrite <- !Zle_Qle.
  unfold Z.succ in Hhi. lia.
Qed.

(** The value scaled by the chosen exponent is at least [2^52]. *)
Lemma ulpExponent_lower (x : Q) :
  0 < x → pow2 52 * pow2 (ulpExponent x) <= x.
Proof.
  intros Hx. unfold ulpExponent.
  set (e1 := (Z.log2 (Qnum x) - Z.log2 (Z.pos (Qden x)) - 53)%Z).
  pose proof (pow2_pos e1) as Hp.
  destruct (Qle_bool (pow2 53) (x / pow2 e1)) eqn:E.
  - apply Qle_bool_iff in E.
    assert (x == x / pow2 e1 * pow2 e1) as Hxe by (field; lra).
    assert (pow2 53 * pow2 e1 <= x / pow2 e1 * pow2 e1) as H
      by (apply Qmult_le_compat_r; lra).
    rewrite pow2_add.
    let v := eval vm_compute in (pow2 53) in change (pow2 53) with v in H.
    let v := eval vm_compute in (pow2 52) in change (pow2 52) with v.
    let v := eval vm_compute in (pow2 1) in change (pow2 1) with v.
    lra.
  - clear E. destruct x as [a b]. cbn [Qnum Qden] in *.
    assert (0 < a)%Z as Ha by (unfold Qlt in Hx; simpl in Hx; lia).
    destruct (log2_bounds a Ha) as [Hla _].
    destruct (log2_bounds (Z.pos b) eq_refl) as [_ Hlb].
    assert (pow2 52 * pow2 e1 * pow2 (Z.log2 (Z.pos b) + 1)
            == pow2 (Z.log2 a)) as Heq.
    { rewrite <- !pow2_add. unfold e1. f_equiv. lia. }
    assert (0 < inject_Z (Z.pos b)) as Hb by reflexivity.
    rewrite (Qmake_Qdiv a b). apply Qle_shift_div_l; [done|].
    assert (pow2 52 * pow2 e1 * inject_Z (Z.pos b)
            <= pow2 52 * pow2 e1 * pow2 (Z.log2 (Z.pos b) + 1)) as H.
    { apply Qmult_le_l; [|done].
      apply Qmult_lt_0_compat; [reflexivity|done]. }
    lra.
Qed.

Lemma roundPositive_error (x : Q) :
  0 < x →
  x * (1 - unitRoundoff) <= roundPositive x <= x * (1 + unitRoundoff).
Proof.
  intros Hx. unfold roundPositive.
  set (e := ulpExponent x).
  pose proof (ulpExponent_lower x Hx) as Hlow. fold e in Hlow.
  pose proof (pow2_pos e) as Hp.
  pose proof (nearestEven_error (x / pow2 e)) as [Hm1 Hm2].
  set (m := inject_Z (nearestEven (x / pow2 e))) in *.
  assert (x == x / pow2 e * pow2 e) as Hxe by (field; lra).
  apply (Qmult_le_compat_r _ _ (pow2 e)) in Hm1; [|lra].
  apply (Qmult_le_compat_r _ _ (pow2 e)) in Hm2; [|lra].
  assert (pow2 52 * unitRoundoff == 1 # 2) as Hu by reflexivity.
  set (s := x / pow2 e) in *. set (P := pow2 e) in *.
  assert (P * (1 # 2) <= x * unitRoundoff) as Hhalf.
  { assert (pow2 52 * P * unitRoundoff <= x * unitRoundoff) as H
      by (apply Qmult_le_compat_r; [done|discriminate]).
    assert (pow2 52 * P * unitRoundoff == P * (pow2 52 * unitRoundoff)) as H'
      by ring.
    rewrite H', Hu in H. done. }
  split; lra.
Qed.

(** Rounding to the nearest double changes a value by at most one unit
    roundoff of it. *)
Lemma fl_error (x : Q) :
  0 <= x → x * (1 - unitRoundoff) <= fl x <= x * (1 + unitRoundoff).
Proof.
  intros Hx. unfold fl. destruct x as [[|a|a] b]; cbn [Qnum].
  - assert ((0 # b) == 0) as H0 by reflexivity. rewrite H0.
    unfold unitRoundoff. lra.
  - apply roundPositive_error. reflexivity.
  - exfalso. unfold Qle in Hx. simpl in Hx. lia.
Qed.

(** The double [(count / total) * 100] is within 300 unit roundoffs of
    the exact share. *)
Lemma share_error (c t : Z) :
  (0 < c ≤ t)%Z →
  let y := inject_Z c / inject_Z t * 100 in
  let x := fl (fl (inject_Z c / inject_Z t) * 100) in
  y - 300 * unitRoundoff <= x <= y + 300 * unitRoundoff.
Proof.
  intros [Hc Hct] y x.
  assert (0 < inject_Z c) as Hcq by (rewrite <- (Zlt_Qlt 0); lia).
  assert (0 < inject_Z t) as Htq by (rewrite <- (Zlt_Qlt 0); lia).
  assert (inject_Z c <= inject_Z t) as Hle by (by rewrite <- Zle_Qle).
  set (q := inject_Z c / inject_Z t) in *.
  assert (0 < q) as Hq0 by (apply Qlt_shift_div_l; lra).
  assert (q <= 1) as Hq1 by (apply Qle_shift_div_r; lra).
  assert (0 <= q) as Hq by lra.
  pose proof (fl_error q Hq) as [H1 H2].
  unfold unitRoundoff in *.
  assert (0 <= fl q * 100) as Hx1 by lra.
  pose proof (fl_error (fl q * 100) Hx1) as [H3 H4].
  unfold unitRoundoff in *. subst x y. split; lra.
Qed.

(** With at most 10^11 displayed calls, the printed percentage is a
    number and within half a unit of the last digit of the exact share. *)
Lemma percentage_error (d : nat) (cnt total : N) :
  (d ≤ 2)%nat → (0 < cnt ≤ total)%N → (total ≤ 10 ^ 11)%N →
  ∃ p, percentage d cnt total = Some p
       ∧ (2 * Z.abs (p * Z.of_N total - Z.of_N cnt * hundred d)
          ≤ Z.of_N total)%Z.
Proof.
  intros Hd [Hc Hct] Ht. unfold percentage, hundred.
  destruct (N.eqb_spec total 0) as [->|Hne]; [lia|].
  eexists. split; [done|].
  set (c := Z.of_N cnt). set (t := Z.of_N total).
  assert (0 < c ≤ t)%Z as Hct' by (unfold c, t; lia).
  assert (t ≤ 10 ^ 11)%Z as Ht' by (unfold t; lia).
  pose proof (share_error c t Hct') as [H1 H2]. cbn zeta in H1, H2.
  set (x := fl (fl (inject_Z c / inject_Z t) * 100)) in *.
  unfold toFixed.
  set (k := inject_Z (10 ^ Z.of_nat d)).
  pose proof (Qfloor_le (x * k + (1 # 2))) as Hlo.
  pose proof (Qlt_floor (x * k + (1 # 2))) as Hhi.
  set (n := Qfloor (x * k + (1 # 2))) in *.
  rewrite inject_Z_plus in Hhi. change (inject_Z 1) with 1 in Hhi.
  assert (0 < inject_Z t) as Htq by (rewrite <- (Zlt_Qlt 0); lia).
  assert (inject_Z t <= 100000000000) as Htq'.
  { change 100000000000 with (inject_Z (10 ^ 11)). by rewrite <- Zle_Qle. }
  assert (inject_Z c / inject_Z t * inject_Z t == inject_Z c) as Hy
    by (field; lra).
  unfold unitRoundoff in *.
  assert (2 * inject_Z n * inject_Z t - 2 * inject_Z c * (100 * k)
            < inject_Z t + 1
          ∧ 2 * inject_Z c * (100 * k) - 2 * inject_Z n * inject_Z t
            < inject_Z t + 1)
    as [Hup Hdown].
  { destruct d as [|[|[|d]]]; [| | |lia]; subst k;
      [change (inject_Z (10 ^ Z.of_nat 0)) with 1 in *
      |change (inject_Z (10 ^ Z.of_nat 1)) with 10 in *
      |change (inject_Z (10 ^ Z.of_nat 2)) with 100 in *];
      set (q := inject_Z c / inject_Z t) in *;
      set (T := inject_Z t) in *;
      assert (inject_Z n * T <= (x * _ + (1 # 2)) * T) as Ha
        by (apply Qmult_le_compat_r; [exact Hlo|lra]);
      assert ((x * _ + (1 # 2)) * T < (inject_Z n + 1) * T) as Hb
        by (apply Qmult_lt_compat_r; [lra|exact Hhi]);
      assert ((q * 100 - 300 * (1 # 9007199254740992)) * T <= x * T) as Hc'
        by (apply Qmult_le_compat_r; [exact H1|lra]);
      assert (x * T <= (q * 100 + 300 * (1 # 9007199254740992)) * T) as Hd'
        by (apply Qmult_le_compat_r; [exact H2|lra]);
      split; nra. }
  assert (100 * inject_Z (10 ^ Z.of_nat d)
          == inject_Z (100 * 10 ^ Z.of_nat d)) as Hk
    by (by rewrite inject_Z_mult).
  subst k. rewrite Hk in Hup, Hdown.
  change 2 with (inject_Z 2) in Hup, Hdown.
  change 1 with (inject_Z 1) in Hup, Hdown.
  rewrite <- !inject_Z_mult, <- !inject_Z_plus in Hup, Hdown.
  unfold Qminus in Hup, Hdown.
  rewrite <- !inject_Z_opp, <- !inject_Z_plus in Hup, Hdown.
  rewrite <- Zlt_Qlt in Hup, Hdown. lia.
Qed.

(** [fl] against the standard library's binary64: the printed digits are
    the same for all counts and totals up to 40, at both precisions. *)
Lemma fl_agrees_with_binary64 :
  sharesAgree 1 40 = true ∧ sharesAgree 2 40 = true
  ∧ percentage 2 1 160 = percentage64 2 1 160
  ∧ percentage 1 1 80 = percentage64 1 1 80.
Proof. split_and!; by vm_compute. Qed.

End Binary64.

Section Percentages.

Local Open Scope Z_scope.

Lemma sumPercent_cons (p : option Z) (l : list (option Z)) :
  sumPercent (p :: l) = default 0 p + sumPercent l.
Proof. reflexivity. Qed.

(** Summed over records, the printed percentages are off the exact
    shares by at most half a unit each. *)
Lemma sumPercent_bounds (d : nat) (total : N) (l : list stat) :
  (d ≤ 2)%nat → (total ≤ 10 ^ 11)%N →
  Forall (λ site, 0 < count site ≤ total)%N l →
  let t := Z.of_N total in
  let s := sumPercent ((λ site, percentage d (count site) total) <$> l) in
  2 * hundred d * Z.of_N (totalCalls l) - Z.of_nat (length l) * t ≤ 2 * t * s
  ∧ 2 * t * s ≤ 2 * hundred d * Z.of_N (totalCalls l) + Z.of_nat (length l) * t.
Proof.
  intros Hd Ht Hl t. induction Hl as [|x l Hx Hl IH].
  { simpl. unfold totalCalls. simpl. lia. }
  cbn zeta in *. rewrite fmap_cons, sumPercent_cons, totalCalls_cons.
  destruct (percentage_error d (count x) total Hd Hx Ht) as (p & -> & Hp).
  cbn [default]. fold t in Hp. simpl length. unfold id.
  rewrite N2Z.inj_add, Nat2Z.inj_succ.
  assert (- t ≤ 2 * (p * t - Z.of_N (count x) * hundred d) ≤ t) as Hp' by lia.
  lia.
Qed.

Lemma totalCalls_elem (s : stat) (l : list stat) :
  s ∈ l → (count s ≤ totalCalls l)%N.
Proof.
  induction 1 as [s l|s x l _ IH]; rewrite totalCalls_cons; lia.
Qed.

Lemma totalCalls_take (n : nat) (l : list stat) :
  (totalCalls (take n l) ≤ totalCalls l)%N.
Proof.
  rewrite <- (take_drop n l) at 2. rewrite totalCalls_app. lia.
Qed.

(** Every record of the map has been counted at least once. *)
Lemma recordTimerCall_positive (ty : timerType) (stk : option jsstring)
    (m : statsMap) :
  Forall (λ s, (1 ≤ count s)%N) (mapValues m) →
  Forall (λ s, (1 ≤ count s)%N) (mapValues (recordTimerCall ty stk m)).
Proof.
  unfold recordTimerCall, mapSetNew, mapValues.
  destruct (mapHas _ m).
  - induction m as [|[k v] m IH]; simpl; [done|].
    intros [Hv Hm]%Forall_cons.
    destruct (JsString.eqb k _); simpl; constructor; try done.
    + simpl. lia.
    + by apply IH.
  - intros H. rewrite map_app. apply Forall_app. split; [done|].
    by repeat constructor.
Qed.

Lemma recordAll_positive (calls : list (timerType * option jsstring))
    (m : statsMap) :
  Forall (λ s, (1 ≤ count s)%N) (mapValues m) →
  Forall (λ s, (1 ≤ count s)%N) (mapValues (recordAll calls m)).
Proof.
  revert m. induction calls as [|[ty stk] calls IH]; intros m Hm; [done|].
  apply IH. by apply recordTimerCall_positive.
Qed.

Lemma topCallSites_subset (top : number) (m : statsMap) (s : stat) :
  s ∈ topCallSites top m → s ∈ mapValues m.
Proof.
  unfold topCallSites, slice0. destruct top as [k|]; [|by intros ?%elem_of_nil].
  intros (i & Hi & _)%elem_of_take.
  apply list_elem_of_lookup_2 in Hi. by rewrite sortBy_perm in Hi.
Qed.

End Percentages.

(** C8, as the code has it.  For the records of any sequence of
    intercepted calls and the top-N list made of them, with at most 10^11
    displayed calls: every displayed record has a count between 1 and the
    displayed total, so that no percentage divides by zero; each
    percentage of the JSON (two decimals) and of the frequency analysis
    (one decimal, first five entries) is a number within half a unit of
    the last digit of the share [count / total * 100]; the percentages of
    the JSON sum to 100% give or take half a unit per entry, those of the
    frequency analysis to at most 100% plus half a unit per entry; and
    without any call the lists are empty and the totals 0: no percentage
    is computed. *)
Theorem percentages_are_rounded_shares
    (calls : list (timerType * option jsstring)) (opts : options)
    (active : gset N) :
  let m := recordAll calls [] in
  let sites := topCallSites (topCount opts) m in
  let total := Z.of_N (totalCalls sites) in
  let j := formatJsonOutput (duration opts) active m sites in
  let t := formatTableOutput (duration opts) active sites in
  totalCalls sites ≤ 10 ^ 11 →
  (∀ i site, sites !! i = Some site →
     (1 ≤ count site ≤ totalCalls sites)
     ∧ (∃ p, jsonPercentage <$> jsonTopCallSites j !! i = Some (Some p)
           ∧ (2 * Z.abs (p * total - Z.of_N (count site) * hundred 2) ≤ total)%Z)
     ∧ ((i < 5)%nat →
        ∃ p, freqPercentage <$> tableFrequency t !! i = Some (Some p)
           ∧ (2 * Z.abs (p * total - Z.of_N (count site) * hundred 1) ≤ total)%Z))
  ∧ (2 * sumPercent (jsonPercentages j) ≤ 2 * hundred 2 + Z.of_nat (length sites))%Z
  ∧ (sites ≠ [] →
     2 * hundred 2 - Z.of_nat (length sites) ≤ 2 * sumPercent (jsonPercentages j))%Z
  ∧ (2 * sumPercent (tablePercentages t) ≤ 2 * hundred 1 + 5)%Z
  ∧ (calls = [] →
     jsonTopCallSites j = [] ∧ jsonTotalCalls j = 0
     ∧ tableRows t = [] ∧ tableFrequency t = [] ∧ tableTotalCalls t = 0).
Proof.
  intros m sites total j t Hbound.
  assert (Forall (λ s, 0 < count s ≤ totalCalls sites) sites) as Hpos.
  { apply Forall_forall. intros s Hs.
    pose proof (totalCalls_elem _ _ Hs) as Hle.
    apply topCallSites_subset in Hs.
    assert (Forall (λ s, 1 ≤ count s) (mapValues m)) as Hall
      by (by apply recordAll_positive).
    eapply Forall_forall in Hall; [|done]. lia. }
  assert (jsonPercentages j
          = (λ site, percentage 2 (count site) (totalCalls sites)) <$> sites) as Hj.
  { unfold jsonPercentages, j, formatJsonOutput. cbn [jsonTopCallSites].
    rewrite fmap_imap.
    apply (imap_const (λ site, percentage 2 (count site) (totalCalls sites))). }
  assert (tablePercentages t
          = (λ site, percentage 1 (count site) (totalCalls sites)) <$> take 5 sites)
    as Ht.
  { unfold tablePercentages, t, formatTableOutput. cbn [tableFrequency].
    rewrite fmap_imap.
    apply (imap_const (λ site, percentage 1 (count site) (totalCalls sites))). }
  assert (sites ≠ [] → 0 < total)%Z as Htotal.
  { intros Hne. destruct sites as [|s0 sites'] eqn:Es; [done|].
    apply Forall_cons in Hpos as [Hs0 _]. unfold total. lia. }
  split_and!.
  - intros i site Hi.
    assert (site ∈ sites) as Hin by by eapply list_elem_of_lookup_2.
    eapply Forall_forall in Hpos; [|done].
    split_and!.
    + lia.
    + lia.
    + destruct (percentage_error 2 (count site) (totalCalls sites))
        as (p & Hp & Herr); [lia|done|done|].
      exists p. split; [|done].
      unfold j, formatJsonOutput. cbn [jsonTopCallSites].
      rewrite list_lookup_imap, Hi. cbn. by rewrite Hp.
    + intros Hlt.
      destruct (percentage_error 1 (count site) (totalCalls sites))
        as (p & Hp & Herr); [lia|done|done|].
      exists p. split; [|done].
      unfold t, formatTableOutput. cbn [tableFrequency].
      rewrite list_lookup_imap, lookup_take_lt, Hi by done. cbn.
      by rewrite Hp.
  - destruct (decide (sites = [])) as [E|E].
    { rewrite Hj, E. unfold hundred. simpl. lia. }
    pose proof (sumPercent_bounds 2 _ sites (le_n 2) Hbound Hpos) as [_ H].
    cbn zeta in H. rewrite <- Hj in H. fold total in H.
    specialize (Htotal E). nia.
  - intros E.
    pose proof (sumPercent_bounds 2 _ sites (le_n 2) Hbound Hpos) as [H _].
    cbn zeta in H. rewrite <- Hj in H. fold total in H.
    specialize (Htotal E). nia.
  - destruct (decide (sites = [])) as [E|E].
    { rewrite Ht, E. unfold hundred. simpl. lia. }
    assert (Forall (λ s, 0 < count s ≤ totalCalls sites) (take 5 sites)) as Hpos5
      by (by apply Forall_take).
    pose proof (sumPercent_bounds 1 _ (take 5 sites) (le_S 1 1 (le_n 1))
                  Hbound Hpos5) as [_ H].
    cbn zeta in H. rewrite <- Ht in H. fold total in H.
    pose proof (totalCalls_take 5 sites) as Htake.
    assert (length (take 5 sites) ≤ 5)%nat as Hlen by (rewrite length_take; lia).
    specialize (Htotal E).
    assert (0 < hundred 1)%Z by (unfold hundred; lia).
    assert (Z.of_N (totalCalls (take 5 sites)) ≤ total)%Z by (unfold total; lia).
    nia.
  - intros ->. subst m sites j t.
    assert (topCallSites (topCount opts) (recordAll [] []) = []) as ->; [|done].
    unfold topCallSites, slice0. simpl.
    destruct (topCount opts); [apply take_nil|done].
Qed.

(** Six sites called once each: every percentage of the JSON is a number,
    and their sum is within three units of 100.00. *)
Lemma percentages_are_rounded_shares_witness :
  let six := recordAll sixSites [] in
  let j := formatJsonOutput (duration noOptions) ∅ six
             (topCallSites (topCount noOptions) six) in
  (2 * hundred 2 - 6 ≤ 2 * sumPercent (jsonPercentages j) ≤ 2 * hundred 2 + 6)%Z.
Proof.
  intros six j.
  assert (totalCalls (topCallSites (topCount noOptions) six) ≤ 10 ^ 11) as Hb
    by (by vm_compute).
  destruct (percentages_are_rounded_shares sixSites noOptions ∅ Hb)
    as (_ & Hup & Hdown & _).
  split.
  - apply Hdown. by vm_compute.
  - exact Hup.
Defined.

(** C8, counterexample.  Six sites called once each print 16.67% six
    times in the JSON, which sums to 100.02%; four sites called 2, 2, 2
    and 1 times print 28.6%, 28.6%, 28.6% and 14.3% in the frequency
    analysis, which sums to 100.1%.  The binary64 computation prints the
    same digits. *)
Lemma percentages_exceed_100_counterexample :
  let six := recordAll sixSites [] in
  let j := formatJsonOutput (Some 2%Z) ∅ six (topCallSites (Some 20%Z) six) in
  let four := recordAll fourSites [] in
  let t := formatTableOutput (Some 2%Z) ∅ (topCallSites (Some 20%Z) four) in
  jsonPercentages j = [Some 1667; Some 1667; Some 1667; Some 1667; Some 1667;
                       Some 1667]%Z
  ∧ sumPercent (jsonPercentages j) = 10002%Z
  ∧ ¬ (sumPercent (jsonPercentages j) ≤ hundred 2)%Z
  ∧ tablePercentages t = [Some 286; Some 286; Some 286; Some 143]%Z
  ∧ sumPercent (tablePercentages t) = 1001%Z
  ∧ ¬ (sumPercent (tablePercentages t) ≤ hundred 1)%Z
  ∧ percentage64 2 1 6 = Some 1667%Z
  ∧ percentage64 1 2 7 = Some 286%Z
  ∧ percentage64 1 1 7 = Some 143%Z.
Proof. vm_compute. split_and!; try reflexivity; by intros H. Qed.

(** * Further properties *)

(** ** Lines and path segments *)

Section Lines.

Lemma split_app_sep (sep : N) (a b : jsstring) :
  split sep (a ++ sep :: b) = split sep a ++ split sep b.
Proof.
  induction a as [|c a IH]; simpl.
  - by rewrite N.eqb_refl.
  - destruct (c =? sep); [by rewrite IH|].
    rewrite IH. destruct (split sep a) as [|h t] eqn:E; [|done].
    by destruct (split_nonempty sep a).
Qed.

Lemma split_no_sep (sep : N) (s : jsstring) : sep ∉ s → split sep s = [s].
Proof.
  induction s as [|c s IH]; [done|]. intros H.
  apply not_elem_of_cons in H as [Hne Hs]. simpl.
  destruct (c =? sep) eqn:E; [apply N.eqb_eq in E; congruence|].
  by rewrite IH.
Qed.

Lemma split_unlines (x : jsstring) (r : list jsstring) :
  Forall (λ l, LF ∉ l) (x :: r) → split LF (unlines (x :: r)) = x :: r.
Proof.
  revert x. induction r as [|y r IH]; intros x H.
  - simpl. rewrite app_nil_r. apply split_no_sep. by inversion H.
  - inversion H as [|? ? Hx Hr]; subst.
    change (unlines (x :: y :: r)) with (x ++ LF :: unlines (y :: r)).
    rewrite split_app_sep, IH by done. by rewrite split_no_sep.
Qed.

Lemma pop_app (l : list jsstring) (x : jsstring) : pop (l ++ [x]) = x.
Proof. unfold pop. by rewrite last_last. Qed.

Lemma pop_split_app (a b : jsstring) :
  pop (split 47 (a ++ 47 :: b)) = pop (split 47 b).
Proof.
  rewrite split_app_sep. unfold pop.
  destruct (split 47 b) as [|h t] eqn:E; [by destruct (split_nonempty 47 b)|].
  clear E. revert h. induction (split 47 a) as [|z l IH]; intros h; [done|].
  simpl. destruct (l ++ h :: t) eqn:E'; [by destruct l|]. rewrite <- E'. apply IH.
Qed.

Lemma split_spec (sep : N) (s : jsstring) :
  ∃ h t, split sep s = h :: t ∧ (sep ∉ h) ∧ Forall (λ l, sep ∉ l) t
         ∧ s = h ++ concat (map (λ y, sep :: y) t).
Proof.
  induction s as [|c s (h & t & Hs & Hh & Ht & Heq)].
  - exists [], []. split_and!; [done|apply not_elem_of_nil|done|done].
  - simpl. destruct (c =? sep) eqn:E.
    + apply N.eqb_eq in E as ->. exists [], (h :: t).
      split_and!; [by rewrite Hs|apply not_elem_of_nil|by constructor|].
      simpl. by rewrite Heq at 1.
    + apply N.eqb_neq in E. rewrite Hs. exists (c :: h), t.
      split_and!; [done| |done|by rewrite Heq at 1].
      apply not_elem_of_cons. by split; [congruence|].
Qed.

(** The final segment is what follows the last slash. *)
Lemma pop_split_suffix (p : jsstring) :
  (47 ∉ pop (split 47 p))
  ∧ (p = pop (split 47 p) ∨ ∃ dir, p = dir ++ [47] ++ pop (split 47 p)).
Proof.
  destruct (split_spec 47 p) as (h & t & Hs & Hh & Ht & Heq).
  rewrite Hs. destruct (decide (t = [])) as [->|Hne].
  - simpl in *. rewrite app_nil_r in Heq. split; [done|by left].
  - destruct (exists_last Hne) as (t' & z & ->).
    rewrite app_comm_cons, pop_app.
    pose proof (proj1 (Forall_app (λ l : jsstring, 47 ∉ l) t' [z]) Ht) as [_ Hz].
    inversion Hz as [|? ? Hz' _]; subst.
    split; [done|]. right.
    exists (h ++ concat (map (λ y, 47 :: y) t')).
    rewrite map_app, concat_app. simpl. by rewrite app_nil_r, <- app_assoc.
Qed.

End Lines.

(** X1 ([extractCallSiteSignature], [extractCallerInfo]: [const basename =
    filePath.split('/').pop() || filePath]).  The basename of a path is
    what follows its last slash, whatever the directories before it; a
    path without a slash is its own basename; and a path that ends with a
    slash has no final segment and is kept whole. *)
Theorem basename_is_final_segment (dir name : jsstring) :
  47 ∉ name → name ≠ [] →
  basename (dir ++ [47] ++ name) = name
  ∧ basename name = name
  ∧ basename (dir ++ [47] ++ name ++ [47]) = dir ++ [47] ++ name ++ [47].
Proof.
  intros Hno Hne. unfold basename.
  change ([47] ++ name) with (47 :: name).
  change ([47] ++ name ++ [47]) with (47 :: name ++ [47]). split_and!.
  - rewrite pop_split_app, split_no_sep by done.
    by apply orElse_nonempty.
  - rewrite split_no_sep by done. by apply orElse_nonempty.
  - replace (dir ++ 47 :: name ++ [47]) with ((dir ++ 47 :: name) ++ 47 :: [])
      by (by rewrite <- !app_assoc).
    rewrite pop_split_app. simpl. by rewrite <- !app_assoc.
Qed.

Lemma basename_is_final_segment_witness :
  basename (js "/srv/app/main.js") = js "main.js"
  ∧ basename (js "main.js") = js "main.js"
  ∧ basename (js "/srv/app/main.js/") = js "/srv/app/main.js/".
Proof.
  apply (basename_is_final_segment (js "/srv/app") (js "main.js")).
  - by_computation.
  - discriminate.
Defined.

(** ** The lines a trace is scanned for *)

Section ScannedLines.

Lemma scanSignature_app (pre rest : list jsstring) :
  Forall noSignature pre → scanSignature (pre ++ rest) = scanSignature rest.
Proof.
  induction 1 as [|l pre Hl _ IH]; [done|].
  rewrite <- app_comm_cons, scanSignature_cons.
  destruct Hl as [Hl|Hl].
  - unfold passedOver in Hl. by rewrite Hl.
  - rewrite Hl. by destruct (_ || _).
Qed.

Lemma unlines_nonempty (x y : jsstring) (r : list jsstring) :
  unlines (x :: y :: r) ≠ [].
Proof.
  change (unlines (x :: y :: r)) with (x ++ LF :: unlines (y :: r)).
  by destruct x.
Qed.

End ScannedLines.

(** X2 ([extractCallSiteSignature]: [for (let i = 1; ...)]).  The first
    line of a trace is never examined: two traces that differ in their
    first lines only have the same signature, and a trace of one line has
    the signature of a trace in which nothing matches. *)
Theorem first_line_is_never_examined (first first' rest : jsstring) :
  LF ∉ first → LF ∉ first' →
  extractCallSiteSignature (Some (first ++ LF :: rest))
  = extractCallSiteSignature (Some (first' ++ LF :: rest))
  ∧ (first ≠ [] →
     extractCallSiteSignature (Some first) = js "<unknown call site>").
Proof.
  intros H H'. split.
  - unfold extractCallSiteSignature.
    replace (truthy (first ++ LF :: rest)) with true by (by destruct first).
    replace (truthy (first' ++ LF :: rest)) with true by (by destruct first').
    cbn [negb]. rewrite !split_app_sep.
    by rewrite (split_no_sep LF first), (split_no_sep LF first').
  - intros Hne. unfold extractCallSiteSignature.
    replace (truthy first) with true by (by destruct first).
    cbn [negb]. by rewrite split_no_sep.
Qed.

Lemma first_line_is_never_examined_witness :
  let rest := js "(at poll /app/main.js:7:3)" in
  extractCallSiteSignature (Some (js "Error" ++ LF :: rest))
  = extractCallSiteSignature (Some (js "at boot /app/boot.js:1:1" ++ LF :: rest))
  ∧ (js "Error" ≠ [] →
     extractCallSiteSignature (Some (js "Error")) = js "<unknown call site>").
Proof.
  intros rest.
  apply (first_line_is_never_examined (js "Error") (js "at boot /app/boot.js:1:1") rest);
    by_computation.
Defined.

(** X3 ([extractCallSiteSignature]: the loop and its [return]).  The
    signature is made of the first line, after the first one, that is
    neither blank nor begins with 'at ' once trimmed and that the pattern
    matches: the lines before it and all the lines after it have no
    influence. *)
Theorem first_eligible_frame_decides (first l : jsstring)
    (pre post : list jsstring) (m : captures) :
  Forall (λ x, LF ∉ x) (first :: pre ++ l :: post) →
  Forall noSignature pre →
  passedOver l = false →
  exec 4 locationPattern (trim l) = Some m →
  extractCallSiteSignature (Some (unlines (first :: pre ++ l :: post)))
  = cliSignature m.
Proof.
  intros Hlf Hpre Hl Hm. unfold extractCallSiteSignature.
  replace (truthy (unlines (first :: pre ++ l :: post))) with true.
  2: { pose proof (unlines_nonempty first) as Hne.
       destruct pre as [|p pre]; simpl app.
       - specialize (Hne l post). by destruct (unlines _).
       - specialize (Hne p (pre ++ l :: post)). by destruct (unlines _). }
  cbn [negb]. rewrite split_unlines by done. cbn [tail].
  rewrite scanSignature_app by done. rewrite scanSignature_cons.
  unfold passedOver in Hl. by rewrite Hl, Hm.
Qed.

Lemma first_eligible_frame_decides_witness :
  extractCallSiteSignature
    (Some (unlines [js "Error"; js "   at hidden (/app/wrap.js:2:2)"; js "";
                    js "no frame"; js "(at poll /app/main.js:7:3)";
                    js "(at later /app/other.js:9:9)"]))
  = js "main.js:7 (poll)".
Proof.
  generalize (first_eligible_frame_decides (js "Error")
                (js "(at poll /app/main.js:7:3)")
                [js "   at hidden (/app/wrap.js:2:2)"; js ""; js "no frame"]
                [js "(at later /app/other.js:9:9)"]
                [Some (js "at poll /app/main.js:7:3)"); Some (js "poll");
                 Some (js "/app/main.js"); Some (js "7"); Some (js "3")]).
  intros H. apply H.
  - repeat constructor; by_computation.
  - repeat constructor; try (left; by vm_compute); right; by vm_compute.
  - by vm_compute.
  - by vm_compute.
Defined.

(** ** The groups of a match *)

Section Groups.

Lemma starGreedy_class (p : N → bool) (s : jsstring)
    (k : jsstring → option captures) (m : captures) :
  starGreedy p s k = Some m →
  ∃ u t, s = u ++ t ∧ Forall (λ c, p c = true) u ∧ k t = Some m.
Proof.
  induction s as [|c s IH]; simpl.
  - intros H. by exists [], [].
  - destruct (p c) eqn:Hp.
    + destruct (starGreedy p s k) as [m'|] eqn:E.
      * intros [= ->]. destruct (IH eq_refl) as (u & t & -> & Hu & Hk).
        exists (c :: u), t. split_and!; [done|by constructor|done].
      * intros H. by exists [], (c :: s).
    + intros H. by exists [], (c :: s).
Qed.

Lemma starLazy_class (p : N → bool) (s : jsstring)
    (k : jsstring → option captures) (m : captures) :
  starLazy p s k = Some m →
  ∃ u t, s = u ++ t ∧ Forall (λ c, p c = true) u ∧ k t = Some m.
Proof.
  induction s as [|c s IH]; simpl.
  - destruct (k []) eqn:E; [|done]. intros [= ->]. by exists [], [].
  - destruct (k (c :: s)) eqn:E.
    + intros [= ->]. by exists [], (c :: s).
    + destruct (p c) eqn:Hp; [|done]. intros H.
      destruct (IH H) as (u & t & -> & Hu & Hk).
      exists (c :: u), t. split_and!; [done|by constructor|done].
Qed.

Lemma take_consumed (u t : jsstring) :
  take (length (u ++ t) - length t) (u ++ t) = u.
Proof. by rewrite length_app, Nat.add_sub, take_app_length. Qed.

(** [(cls+)]: the group holds a non-empty run of the class. *)
Lemma rmatch_Group_PlusGreedy (n : nat) (p : N → bool) (s : jsstring)
    (caps : captures) (k : cont) (m : captures) :
  rmatch (Group n (PlusGreedy p)) s caps k = Some m →
  ∃ u t, s = u ++ t ∧ run p u ∧ k t (<[n := Some u]> caps) = Some m.
Proof.
  rewrite rmatch_Group. cbn [rmatch].
  destruct s as [|x s]; [done|]. destruct (p x) eqn:Hp; [|done].
  intros H. apply starGreedy_class in H as (u & t & -> & Hu & Hk).
  exists (x :: u), t. split_and!; [done|by split; [|constructor]|].
  change (x :: u ++ t) with ((x :: u) ++ t) in Hk.
  by rewrite take_consumed in Hk.
Qed.

(** [(cls+?)] *)
Lemma rmatch_Group_PlusLazy (n : nat) (p : N → bool) (s : jsstring)
    (caps : captures) (k : cont) (m : captures) :
  rmatch (Group n (PlusLazy p)) s caps k = Some m →
  ∃ u t, s = u ++ t ∧ run p u ∧ k t (<[n := Some u]> caps) = Some m.
Proof.
  rewrite rmatch_Group. cbn [rmatch].
  destruct s as [|x s]; [done|]. destruct (p x) eqn:Hp; [|done].
  intros H. apply starLazy_class in H as (u & t & -> & Hu & Hk).
  exists (x :: u), t. split_and!; [done|by split; [|constructor]|].
  change (x :: u ++ t) with ((x :: u) ++ t) in Hk.
  by rewrite take_consumed in Hk.
Qed.

(** A pattern without groups leaves the captures as they are. *)
Lemma rmatch_nogroups (r : regex) (s : jsstring) (caps : captures) (k : cont)
    (m : captures) :
  groupsOf r = [] → rmatch r s caps k = Some m →
  ∃ u t, s = u ++ t ∧ k t caps = Some m.
Proof.
  intros Hg H. apply rmatch_sound in H as (u & t & c & -> & H & Hlen & Hframe).
  exists u, t. split; [done|]. replace caps with c; [done|].
  apply list_eq. intros i. apply Hframe. rewrite Hg. apply not_elem_of_nil.
Qed.

Lemma rmatch_Opt (r : regex) (s : jsstring) (caps : captures) (k : cont)
    (m : captures) :
  rmatch (Opt r) s caps k = Some m →
  rmatch r s caps k = Some m ∨ k s caps = Some m.
Proof.
  cbn [rmatch]. destruct (rmatch r s caps k) as [m'|]; [by left|by right].
Qed.

(** The end of the two patterns fills the groups 2, 3 and 4. *)
Lemma locationTail_groups (s : jsstring) (c : captures) (k : cont)
    (m : captures) :
  rmatch locationTail s c k = Some m →
  ∃ path line col t,
    run notSpace path ∧ run isDigit line ∧ run isDigit col
    ∧ k t (<[4%nat := Some col]> (<[3%nat := Some line]> (<[2%nat := Some path]> c)))
      = Some m.
Proof.
  unfold locationTail. rewrite rmatch_Seq. intros H.
  apply rmatch_nogroups in H as (u1 & t1 & -> & H); [|done].
  rewrite rmatch_Seq in H.
  apply rmatch_Group_PlusLazy in H as (path & t2 & -> & Hpath & H).
  rewrite rmatch_Seq in H. apply rmatch_Chr in H as (t3 & -> & H).
  rewrite rmatch_Seq in H.
  apply rmatch_Group_PlusGreedy in H as (line & t4 & -> & Hline & H).
  rewrite rmatch_Seq in H. apply rmatch_Chr in H as (t5 & -> & H).
  rewrite rmatch_Seq in H.
  apply rmatch_Group_PlusGreedy in H as (col & t6 & -> & Hcol & H).
  apply rmatch_nogroups in H as (u7 & t7 & -> & H); [|done].
  by exists path, line, col, t7.
Qed.

Lemma locationPattern_groups (line : jsstring) (m : captures) :
  exec 4 locationPattern line = Some m →
  ∃ whole fn path ln col,
    m = [Some whole; fn; Some path; Some ln; Some col]
    ∧ run notSpace path ∧ run isDigit ln ∧ run isDigit col
    ∧ ∀ f, fn = Some f → run notSpace f.
Proof.
  intros H. apply exec_sound in H as (pre & t & -> & H).
  rewrite rmatch_Group in H.
  change locationPattern with
    (Seq (Chr 97) (Seq (Chr 116) (Seq (PlusGreedy isWhiteSpace)
       (Seq (Opt (Seq (Group 1 (PlusGreedy notSpace)) (PlusGreedy isWhiteSpace)))
            locationTail)))) in H.
  rewrite rmatch_Seq in H. apply rmatch_Chr in H as (t1 & -> & H).
  rewrite rmatch_Seq in H. apply rmatch_Chr in H as (t2 & -> & H).
  rewrite rmatch_Seq in H.
  apply rmatch_nogroups in H as (u3 & t3 & -> & H); [|done].
  rewrite rmatch_Seq in H. apply rmatch_Opt in H as [H|H].
  - rewrite rmatch_Seq in H.
    apply rmatch_Group_PlusGreedy in H as (fn & t4 & -> & Hfn & H).
    apply rmatch_nogroups in H as (u5 & t5 & -> & H); [|done].
    apply locationTail_groups in H as (path & ln & col & t6 & Hp & Hl & Hc & H).
    injection H as <-. eexists _, (Some fn), path, ln, col.
    split_and!; [reflexivity|done..|]. by intros f [= <-].
  - apply locationTail_groups in H as (path & ln & col & t6 & Hp & Hl & Hc & H).
    injection H as <-. eexists _, None, path, ln, col.
    split_and!; [reflexivity|done..].
Qed.

Lemma callerPattern_groups (line : jsstring) (m : captures) :
  exec 4 callerPattern line = Some m →
  ∃ whole fn path ln col,
    m = [Some whole; Some fn; Some path; Some ln; Some col]
    ∧ run notSpace fn ∧ run notSpace path ∧ run isDigit ln ∧ run isDigit col.
Proof.
  intros H. apply exec_sound in H as (pre & t & -> & H).
  rewrite rmatch_Group in H.
  change callerPattern with
    (Seq (Chr 97) (Seq (Chr 116) (Seq (PlusGreedy isWhiteSpace)
       (Seq (Group 1 (PlusGreedy notSpace)) (Seq (PlusGreedy isWhiteSpace)
            locationTail))))) in H.
  rewrite rmatch_Seq in H. apply rmatch_Chr in H as (t1 & -> & H).
  rewrite rmatch_Seq in H. apply rmatch_Chr in H as (t2 & -> & H).
  rewrite rmatch_Seq in H.
  apply rmatch_nogroups in H as (u3 & t3 & -> & H); [|done].
  rewrite rmatch_Seq in H.
  apply rmatch_Group_PlusGreedy in H as (fn & t4 & -> & Hfn & H).
  rewrite rmatch_Seq in H.
  apply rmatch_nogroups in H as (u5 & t5 & -> & H); [|done].
  apply locationTail_groups in H as (path & ln & col & t6 & Hp & Hl & Hc & H).
  injection H as <-. by eexists _, fn, path, ln, col.
Qed.

End Groups.

(** ** The texts of signatures and callers *)

Section Formats.

Lemma scanSignature_cases (lines : list jsstring) :
  scanSignature lines = js "<unknown call site>"
  ∨ ∃ l m, l ∈ lines ∧ exec 4 locationPattern (trim l) = Some m
           ∧ scanSignature lines = cliSignature m.
Proof.
  induction lines as [|l lines IH]; [by left|].
  rewrite scanSignature_cons.
  assert (Hrest : scanSignature lines = js "<unknown call site>"
            ∨ ∃ l0 m, l0 ∈ l :: lines ∧ exec 4 locationPattern (trim l0) = Some m
                      ∧ scanSignature lines = cliSignature m).
  { destruct IH as [IH|(l0 & m & Hin & Hm & IH)]; [by left|right].
    exists l0, m. split_and!; [by right|done..]. }
  destruct (_ || _); [done|].
  destruct (exec 4 locationPattern (trim l)) as [m|] eqn:E; [|done].
  right. exists l, m. split_and!; [by left|done..].
Qed.

Lemma scanCaller_cases (lines : list jsstring) :
  scanCaller lines = js "<unknown>"
  ∨ ∃ l m, l ∈ lines ∧ exec 4 callerPattern (trim l) = Some m
           ∧ scanCaller lines
             = callerText (groupStr m 1) (basename (groupStr m 2)) (groupStr m 3).
Proof.
  induction lines as [|l lines IH]; [by left|].
  cbn [scanCaller].
  destruct (exec 4 callerPattern (trim l)) as [m|] eqn:E.
  - right. exists l, m. split_and!; [by left|done..].
  - destruct IH as [IH|(l0 & m & Hin & Hm & IH)]; [by left|right].
    exists l0, m. split_and!; [by right|done..].
Qed.

Lemma run_basename (path : jsstring) :
  run notSpace path → run notSpace (basename path).
Proof.
  intros [Hne Hall]. unfold basename, orElse.
  destruct (truthy (pop (split 47 path))) eqn:E; [|done].
  split; [by destruct (pop (split 47 path))|].
  destruct (pop_split_suffix path) as [_ [Heq|(dir & Heq)]].
  - by rewrite <- Heq.
  - rewrite Heq in Hall. apply Forall_app in Hall as [_ Hall].
    by apply Forall_app in Hall as [_ Hall].
Qed.

Lemma cliSignature_groups (whole path ln col : jsstring) (fn : option jsstring) :
  cliSignature [Some whole; fn; Some path; Some ln; Some col]
  = match fn with
    | Some f =>
        if truthy f then signatureText (basename path) ln (Some f)
        else signatureText (basename path) ln None
    | None => signatureText (basename path) ln None
    end.
Proof. by destruct fn. Qed.

Lemma tail_elem_of (l : jsstring) (lines : list jsstring) :
  l ∈ tail lines → l ∈ lines.
Proof. destruct lines; [done|]. by right. Qed.

Lemma run_truthy (p : N → bool) (s : jsstring) : run p s → truthy s = true.
Proof. intros [Hne _]. by destruct s. Qed.

Lemma callerText_nonempty (fn base line : jsstring) : callerText fn base line ≠ [].
Proof. unfold callerText. by destruct fn. Qed.

(** The caller description is never the empty string. *)
Lemma extractCallerInfo_nonempty (stack : option jsstring) :
  extractCallerInfo stack ≠ [].
Proof.
  unfold extractCallerInfo. destruct stack as [s|]; [|done].
  destruct (negb (truthy s)); [done|].
  destruct (scanCaller_cases (take 3 (drop 2 (split LF s))))
    as [->|(l & m & _ & _ & ->)]; [done|apply callerText_nonempty].
Qed.

End Formats.

(** X4 ([extractCallSiteSignature]: the pattern and the two template
    strings).  A signature is one of the two sentinels, or it reads
    [base:line] or [base:line (fn)] where [line] is a non-empty run of
    digits, [fn] (when there is one) and [base] are non-empty and free of
    white space, and [base] is the basename of a path that stands in the
    trace right before a colon. *)
Theorem signature_is_sentinel_or_well_formed (stack : option jsstring) :
  extractCallSiteSignature stack = js "<unknown>"
  ∨ extractCallSiteSignature stack = js "<unknown call site>"
  ∨ ∃ s path line fn,
      stack = Some s
      ∧ extractCallSiteSignature stack = signatureText (basename path) line fn
      ∧ run notSpace path ∧ run notSpace (basename path)
      ∧ run isDigit line
      ∧ (∀ f, fn = Some f → run notSpace f)
      ∧ occursIn (path ++ js ":") s.
Proof.
  unfold extractCallSiteSignature. destruct stack as [s|]; [|by left].
  destruct (negb (truthy s)); [by left|]. right.
  destruct (scanSignature_cases (tail (split LF s)))
    as [->|(l & m & Hin & Hm & ->)]; [by left|right].
  pose proof (locationPattern_path _ _ Hm) as Hocc.
  apply locationPattern_groups in Hm
    as (whole & fn & path & ln & col & -> & Hpath & Hln & Hcol & Hfn).
  exists s, path, ln, fn. split_and!; try done.
  - rewrite cliSignature_groups. destruct fn as [f|]; [|done].
    by rewrite (run_truthy notSpace f) by by apply Hfn.
  - by apply run_basename.
  - apply trim_occursIn in Hocc. destruct Hocc as (a & b & Hl).
    apply tail_elem_of, split_occursIn in Hin as (a' & b' & ->).
    unfold groupStr, group in Hl. cbn in Hl. rewrite Hl.
    exists (a' ++ a), (b ++ b'). by rewrite <- !app_assoc.
Qed.

(** X5 ([extractCallerInfo]: the pattern and the template string).  A
    caller description is ['<unknown>'] or reads [fn (base:line)] with a
    function name: [fn] and [base] are non-empty and free of white space
    and [line] is a non-empty run of digits.  It is never the empty
    string. *)
Theorem caller_is_unknown_or_well_formed (stack : option jsstring) :
  extractCallerInfo stack ≠ []
  ∧ (extractCallerInfo stack = js "<unknown>"
     ∨ ∃ fn path line,
         extractCallerInfo stack = callerText fn (basename path) line
         ∧ run notSpace fn ∧ run notSpace path ∧ run notSpace (basename path)
         ∧ run isDigit line).
Proof.
  split; [apply extractCallerInfo_nonempty|].
  unfold extractCallerInfo. destruct stack as [s|]; [|by left].
  destruct (negb (truthy s)); [by left|].
  destruct (scanCaller_cases (take 3 (drop 2 (split LF s))))
    as [->|(l & m & _ & Hm & ->)]; [by left|right].
  apply callerPattern_groups in Hm
    as (whole & fn & path & ln & col & -> & Hfn & Hpath & Hln & Hcol).
  exists fn, path, ln. split_and!; try done. by apply run_basename.
Qed.



(** ** The aggregation over arbitrary sequences of calls *)

Section AggregationAll.

Lemma last_with_default {A} (x y : A) (l : list A) :
  List.last (y :: l) x = List.last l y.
Proof.
  revert x y. induction l as [|z l IH]; intros x y; [done|].
  change (List.last (y :: z :: l) x) with (List.last (z :: l) x).
  by rewrite !IH.
Qed.

Lemma last_default_cons {A} (x : A) (l : list A) :
  Some (List.last l x) = last (x :: l).
Proof.
  revert x. induction l as [|y l IH]; intros x; [done|].
  by rewrite last_cons_cons, last_with_default, IH.
Qed.

Lemma recordAll_snoc (calls : list (timerType * option jsstring))
    (c : timerType * option jsstring) (m : statsMap) :
  recordAll (calls ++ [c]) m = recordTimerCall c.1 c.2 (recordAll calls m).
Proof. unfold recordAll. by rewrite foldl_app. Qed.

Lemma mapHas_keys (k : jsstring) (m : statsMap) :
  mapHas k m = true ↔ k ∈ mapKeys m.
Proof.
  unfold mapHas, mapKeys. induction m as [|[k' v] m IH]; simpl.
  - split; [done|]. intros H. by apply elem_of_nil in H.
  - destruct (JsString.eqb k' k) eqn:E.
    + apply eqb_eq in E as ->. split; [|done]. intros _. by left.
    + apply eqb_neq in E. rewrite IH. split; [by right|].
      intros H. apply elem_of_cons in H as [H|H]; [congruence|done].
Qed.

Lemma mapKeys_mutate (k : jsstring) (f : stat → stat) (m : statsMap) :
  mapKeys (mapMutate k f m) = mapKeys m.
Proof.
  unfold mapKeys. induction m as [|[k' v] m IH]; [done|]. simpl.
  destruct (JsString.eqb k' k); simpl; [done|by rewrite IH].
Qed.

Lemma mapKeys_record (ty : timerType) (stk : option jsstring) (m : statsMap) :
  mapKeys (recordTimerCall ty stk m)
  = if bool_decide (extractCallSiteSignature stk ∈ mapKeys m)
    then mapKeys m else mapKeys m ++ [extractCallSiteSignature stk].
Proof.
  unfold recordTimerCall.
  destruct (mapHas (extractCallSiteSignature stk) m) eqn:E.
  - rewrite mapKeys_mutate. apply mapHas_keys in E. by rewrite bool_decide_eq_true_2.
  - rewrite bool_decide_eq_false_2.
    + unfold mapSetNew, mapKeys. by rewrite map_app.
    + intros H. apply mapHas_keys in H. congruence.
Qed.

Lemma keptUnder_mutate (k : jsstring) (ty : timerType) (m : statsMap) :
  Forall (λ kv, keptUnder kv.1 kv.2) m →
  Forall (λ kv, keptUnder kv.1 kv.2)
    (mapMutate k (λ stat, {| count := count stat + 1; type := ty;
                             signature := signature stat;
                             stack := stack stat; caller := caller stat |}) m).
Proof.
  induction 1 as [|[k' v] m Hv Hm IH]; [done|]. simpl.
  destruct (JsString.eqb k' k); constructor; try done.
  destruct Hv as (? & ? & ? & ?). split_and!; try done. simpl in *. lia.
Qed.

Lemma firstOccurrences_elem (x : jsstring) (l : list jsstring) :
  x ∈ firstOccurrences l ↔ x ∈ l.
Proof.
  induction l as [|y l IH]; [done|]. simpl.
  rewrite !elem_of_cons, list_elem_of_filter, IH.
  destruct (decide (x = y)) as [->|Hne]; [split; by left|].
  split; [intros [H|[_ H]]; [done|by right]|intros [H|H]; [done|by right]].
Qed.

Lemma filter_id_notin (x : jsstring) (l : list jsstring) :
  x ∉ l → filter (λ y, y ≠ x) l = l.
Proof.
  induction l as [|y l IH]; [done|]. intros H.
  apply not_elem_of_cons in H as [Hne Hl].
  rewrite filter_cons_True by done. by rewrite IH.
Qed.

Lemma firstOccurrences_snoc (l : list jsstring) (x : jsstring) :
  firstOccurrences (l ++ [x])
  = if bool_decide (x ∈ firstOccurrences l) then firstOccurrences l
    else firstOccurrences l ++ [x].
Proof.
  induction l as [|y l IH]; [done|].
  cbn [app firstOccurrences]. rewrite IH.
  destruct (decide (x = y)) as [->|Hne].
  - rewrite (bool_decide_eq_true_2 (y ∈ y :: _)) by by left.
    destruct (bool_decide (y ∈ firstOccurrences l)); [done|].
    rewrite filter_app, filter_cons_False, filter_nil, app_nil_r; [done|].
    by intros H.
  - destruct (bool_decide (x ∈ firstOccurrences l)) eqn:E.
    + apply bool_decide_eq_true in E.
      rewrite bool_decide_eq_true_2; [done|].
      right. apply list_elem_of_filter. by split.
    + apply bool_decide_eq_false in E.
      rewrite bool_decide_eq_false_2.
      * by rewrite filter_app, filter_cons_True, filter_nil by done.
      * intros H. apply elem_of_cons in H as [H|H]; [done|].
        apply list_elem_of_filter in H as [_ H]. done.
Qed.

Lemma firstOccurrences_NoDup (l : list jsstring) : NoDup (firstOccurrences l).
Proof.
  induction l as [|x l IH]; [constructor|]. simpl. constructor.
  - intros H. apply list_elem_of_filter in H as [H _]. done.
  - by apply NoDup_filter.
Qed.

Lemma mapKeys_recordAll (calls : list (timerType * option jsstring)) :
  mapKeys (recordAll calls []) = firstOccurrences (signaturesOf calls).
Proof.
  induction calls as [|c calls IH] using rev_ind; [done|].
  rewrite recordAll_snoc, mapKeys_record, IH.
  unfold signaturesOf. rewrite fmap_app. cbn [fmap list_fmap].
  by rewrite firstOccurrences_snoc.
Qed.

Lemma keptUnder_recordAll (calls : list (timerType * option jsstring)) :
  Forall (λ kv, keptUnder kv.1 kv.2) (recordAll calls []).
Proof.
  induction calls as [|c calls IH] using rev_ind; [constructor|].
  rewrite recordAll_snoc. unfold recordTimerCall.
  destruct (mapHas _ _).
  - by apply keptUnder_mutate.
  - apply Forall_app. split; [done|]. constructor; [|done].
    by split_and!.
Qed.

Lemma sumCounts_recordAll (calls : list (timerType * option jsstring))
    (m : statsMap) :
  sumCounts (recordAll calls m) = sumCounts m + N.of_nat (length calls).
Proof.
  induction calls as [|c calls IH] using rev_ind.
  - simpl. lia.
  - rewrite recordAll_snoc, sumCounts_record, IH, length_app. simpl. lia.
Qed.

Lemma mapGet_recordAll
    (calls : list (timerType * option jsstring)) (sig : jsstring) :
  mapGet sig (recordAll calls []) =
  match callsAt sig calls with
  | [] => None
  | first :: others =>
      Some {| count := N.of_nat (length (first :: others));
              type := (List.last others first).1;
              signature := sig;
              stack := first.2;
              caller := extractCallerInfo first.2 |}
  end.
Proof.
  induction calls as [|c calls IH] using rev_ind; [done|].
  rewrite recordAll_snoc. unfold callsAt in *. rewrite filter_app.
  destruct (decide (extractCallSiteSignature c.2 = sig)) as [<-|Hc].
  - rewrite filter_cons_True, filter_nil by done.
    rewrite recordTimerCall_same, IH.
    destruct (filter _ calls) as [|first others]; [done|].
    cbn [app]. rewrite last_last, !length_cons, length_app.
    cbn [length]. do 2 f_equal. cbn [count]. lia.
  - rewrite filter_cons_False, filter_nil, app_nil_r by done.
    by rewrite recordTimerCall_other.
Qed.

End AggregationAll.

(** X7 ([recordTimerCall]).  Whatever the order in which the call sites
    take their turns: the record of a signature counts the calls that fall
    under it, has the type of the last of them, and keeps the stack and
    the caller description of the first; a signature under which no call
    falls has no record. *)
Theorem record_counts_calls_per_signature
    (calls : list (timerType * option jsstring)) (sig : jsstring) :
  let mine := callsAt sig calls in
  (mine = [] ↔ mapGet sig (recordAll calls []) = None)
  ∧ (∀ first others, mine = first :: others →
       ∃ r, mapGet sig (recordAll calls []) = Some r
            ∧ count r = N.of_nat (length mine)
            ∧ Some (type r) = fst <$> last mine
            ∧ stack r = first.2
            ∧ caller r = extractCallerInfo first.2
            ∧ signature r = sig).
Proof.
  intros mine. subst mine. rewrite mapGet_recordAll.
  destruct (callsAt sig calls) as [|c0 rest]; split; try done.
  intros first others [= <- <-]. eexists. split; [reflexivity|].
  cbn [count type stack caller signature]. split_and!; try done.
  by rewrite <- last_default_cons.
Qed.

(** X8 ([recordTimerCall], [timerStats]).  The keys of the map are the
    distinct signatures of the calls, each once and in the order in which
    they first occurred; every record is stored under its own [signature]
    field, which is the signature of the stack it keeps, its caller
    description is the one of that stack, and its count is at least 1. *)
Theorem map_keys_are_the_distinct_signatures
    (calls : list (timerType * option jsstring)) :
  let m := recordAll calls [] in
  mapKeys m = firstOccurrences (signaturesOf calls)
  ∧ NoDup (mapKeys m)
  ∧ (∀ sig, sig ∈ mapKeys m ↔ sig ∈ signaturesOf calls)
  ∧ Forall (λ kv, keptUnder kv.1 kv.2) m.
Proof.
  intros m. subst m. rewrite mapKeys_recordAll. split_and!.
  - done.
  - apply firstOccurrences_NoDup.
  - intros sig. apply firstOccurrences_elem.
  - apply keptUnder_recordAll.
Qed.

(** X9 ([recordTimerCall]).  No call is lost and none is counted twice:
    the counts of all the records add up to what they added up to before,
    plus the number of calls. *)
Theorem counts_add_up_to_the_calls
    (calls : list (timerType * option jsstring)) (m : statsMap) :
  sumCounts (recordAll calls m) = sumCounts m + N.of_nat (length calls)
  ∧ sumCounts (recordAll calls []) = N.of_nat (length calls).
Proof.
  split; [apply sumCounts_recordAll|].
  by rewrite sumCounts_recordAll.
Qed.

Section OneRecord.

Lemma v8Like_signature (stk : option jsstring) :
  v8Like stk = true → extractCallSiteSignature stk = js "<unknown call site>".
Proof.
  destruct stk as [s|]; [|done]. simpl. intros H.
  apply andb_true_iff in H as [Hs Hl]. rewrite Hs. simpl.
  by apply scanSignature_passedOver.
Qed.

Lemma firstOccurrences_constant (x : jsstring) (l : list jsstring) :
  Forall (λ y, y = x) l → l ≠ [] → firstOccurrences l = [x].
Proof.
  induction 1 as [|y l -> Hl IH]; [done|]. intros _. simpl. f_equal.
  destruct (decide (l = [])) as [->|Hne]; [done|].
  rewrite IH by done. by rewrite filter_cons_False, filter_nil by (by intros H).
Qed.

Lemma callsAt_all (sig : jsstring) (calls : list (timerType * option jsstring)) :
  Forall (λ c, extractCallSiteSignature c.2 = sig) calls →
  callsAt sig calls = calls.
Proof.
  unfold callsAt. induction 1 as [|c calls Hc _ IH]; [done|].
  by rewrite filter_cons_True, IH.
Qed.

End OneRecord.

(** X10 ([recordTimerCall] with [extractCallSiteSignature] and
    [extractCallerInfo]).  When all the traces have the format of V8
    (every line after the first begins with 'at '), all the calls fall
    into one record, under the sentinel ['<unknown call site>']: it counts
    all the calls, has the type of the last call, and its caller
    description is the one of the first call, whoever made the others. *)
Theorem v8_traces_fall_into_one_record
    (first : timerType * option jsstring)
    (others : list (timerType * option jsstring)) :
  forallb (λ c, v8Like c.2) (first :: others) = true →
  recordAll (first :: others) [] =
  [(js "<unknown call site>",
    {| count := N.of_nat (length (first :: others));
       type := (List.last others first).1;
       signature := js "<unknown call site>";
       stack := first.2;
       caller := extractCallerInfo first.2 |})].
Proof.
  intros H. apply Is_true_true_2, forallb_True in H.
  assert (Hsig : Forall (λ c : timerType * option jsstring,
                   extractCallSiteSignature c.2 = js "<unknown call site>")
                   (first :: others)).
  { eapply Forall_impl; [exact H|]. intros c Hc. apply v8Like_signature.
    by apply Is_true_true_1. }
  pose proof (mapKeys_recordAll (first :: others)) as Hkeys.
  rewrite (firstOccurrences_constant (js "<unknown call site>")) in Hkeys.
  2: { unfold signaturesOf. by apply Forall_fmap. }
  2: { done. }
  pose proof (mapGet_recordAll (first :: others)
                (js "<unknown call site>")) as Hget.
  rewrite callsAt_all in Hget by done.
  destruct (recordAll (first :: others) []) as [|[k r] [|? ?]]; try done.
  unfold mapKeys in Hkeys. simpl in Hkeys. injection Hkeys as ->.
  simpl in Hget. by injection Hget as ->.
Qed.

Lemma v8_traces_fall_into_one_record_witness :
  let other := Some (unlines [js "Error";
                              js "    at trackedSetTimeout (file:///app/p.js:194:16)";
                              js "    at poll (file:///app/main.js:7:3)"]) in
  recordAll [(SetInterval, Some v8Trace); (SetTimeout, other); (SetTimeout, other)] []
  = [(js "<unknown call site>",
      {| count := 3; type := SetTimeout; signature := js "<unknown call site>";
         stack := Some v8Trace;
         caller := js "runProfiler (performance-profiler.js:384)" |})].
Proof.
  intros other.
  generalize (v8_traces_fall_into_one_record (SetInterval, Some v8Trace)
                [(SetTimeout, other); (SetTimeout, other)]).
  vm_compute. intros H. by apply H.
Defined.

(** ** The scheduling wrappers and the active set *)

(** X11 ([trackedSetTimeout], [trackedSetInterval]).  A scheduling
    wrapper records the call under the stack captured in the wrapper and
    the name of its primitive, then passes the same callback and delay to
    the captured original and ends as the original ends: the handle the
    original returns is added to the active set and returned unchanged;
    when the original throws, the exception propagates, the call stays
    recorded and the active set is as before.  Bindings and output streams
    are untouched. *)
Theorem trackedSet_records_and_delegates (env : environment)
    (orig : originals) (cb : callback) (delay : number) (st : state) :
  scheduleSpec env SetTimeout (originalSetTimeout orig) cb delay st
    (trackedSetTimeout env orig cb delay st)
  ∧ scheduleSpec env SetInterval (originalSetInterval orig) cb delay st
      (trackedSetInterval env orig cb delay st).
Proof.
  split; unfold scheduleSpec; unfold_wrappers;
    by destruct (scheduleReply env (length (hostCalls st))).
Qed.

(** X12 (the four wrappers and [activeTimers]).  While the wrappers are
    installed, a scheduling call that returns the handle [h] puts [h] in
    the active set, and cancelling [h] afterwards, with either of the two
    cancellation primitives, takes it out again: the set is the one from
    before the two calls without [h], hence the same set when [h] was not
    in it.  The recorded call stays recorded. *)
Theorem scheduled_then_cancelled (env : environment) (orig : originals)
    (t t' : timerType) (cb : callback) (delay : number) (h : N) (st : state) :
  global st = trackedBindings →
  scheduleReply env (length (hostCalls st)) = Returns h →
  let st1 := (perform env orig (Schedule t cb delay) st).2 in
  let st2 := (perform env orig (Cancel t' h) st1).2 in
  (h ∈ activeTimers st1)
  ∧ activeTimers st2 = activeTimers st ∖ {[h]}
  ∧ (h ∉ activeTimers st → activeTimers st2 = activeTimers st)
  ∧ sumCounts (timerStats st2) = sumCounts (timerStats st) + 1
  ∧ hostCalls st2 =
      hostCalls st
      ++ [HostSchedule (match t with
                        | SetTimeout => originalSetTimeout orig
                        | SetInterval => originalSetInterval orig
                        end) cb delay;
          HostCancelCall (match t' with
                          | SetTimeout => originalClearTimeout orig
                          | SetInterval => originalClearInterval orig
                          end) h].
Proof.
  intros Hg Hh st1 st2. subst st1 st2.
  assert (Hset : ∀ X : gset N, ({[h]} ∪ X) ∖ {[h]} = X ∖ {[h]}).
  { intros X. apply set_eq. intros x.
    rewrite !elem_of_difference, elem_of_union, elem_of_singleton. tauto. }
  destruct t, t';
    unfold perform, callSetTimeout, callSetInterval, callClearTimeout,
      callClearInterval, mbind, M_bind; rewrite Hg; unfold_wrappers;
    rewrite Hh; simpl; rewrite ?Hg; unfold_wrappers;
    (split_and!;
     [apply elem_of_union_l; by apply elem_of_singleton
     |apply Hset
     |intros Hno; rewrite Hset; apply set_eq; intros x;
      rewrite elem_of_difference, elem_of_singleton; split; [tauto|];
      intros Hx; split; [done|]; by intros ->
     |by rewrite sumCounts_record
     |by rewrite <- app_assoc]).
Qed.

Lemma scheduled_then_cancelled_witness :
  let st := withActive {[ 7 ]} (withGlobal trackedBindings (initialState hostFns)) in
  let st1 := (perform (answeringHost []) hostFns
                (Schedule SetTimeout (CbOther 1) (Some 50%Z)) st).2 in
  let st2 := (perform (answeringHost []) hostFns (Cancel SetInterval 100) st1).2 in
  activeTimers st2 = activeTimers st
  ∧ sumCounts (timerStats st2) = 1
  ∧ hostCalls st2 = [HostSchedule 1 (CbOther 1) (Some 50%Z); HostCancelCall 4 100].
Proof.
  intros st st1 st2.
  destruct (scheduled_then_cancelled (answeringHost []) hostFns SetTimeout
              SetInterval (CbOther 1) (Some 50%Z) 100 st eq_refl eq_refl)
    as (_ & _ & Hsame & Hsum & Hcalls).
  split_and!.
  - apply Hsame. by_computation.
  - exact Hsum.
  - exact Hcalls.
Defined.

Section ActiveSet.

Context (env : environment) (orig : originals) (opts : options).

Lemma preserves_bind (P : state → Prop) {A B} (m : M A) (f : A → M B) :
  preserves P m → (∀ a, preserves P (f a)) → preserves P (m ≫= f).
Proof.
  intros Hm Hf st HP. unfold mbind, M_bind.
  specialize (Hm st HP). destruct (m st) as [[a|e] st1]; [|done].
  by apply Hf.
Qed.

Lemma preserves_ret (P : state → Prop) {A} (a : A) : preserves P (mret a).
Proof. by intros st HP. Qed.

Lemma size_add (h : N) (X : gset N) : (size ({[h]} ∪ X) ≤ S (size X))%nat.
Proof.
  rewrite size_union_alt, size_singleton.
  pose proof (subseteq_size (X ∖ {[h]}) X) as Hs.
  assert (X ∖ {[h]} ⊆ X) as Hsub.
  { intros x. rewrite elem_of_difference. tauto. }
  specialize (Hs Hsub). lia.
Qed.

Lemma size_remove (h : N) (X : gset N) : (size (X ∖ {[h]}) ≤ size X)%nat.
Proof.
  apply subseteq_size. intros x. rewrite elem_of_difference. tauto.
Qed.

Lemma activeWithinCalls_applySched (f : schedFn) (cb : callback)
    (delay : number) :
  preserves activeWithinCalls (applySched env orig f cb delay).
Proof.
  intros st HP. unfold activeWithinCalls in *.
  destruct f; unfold applySched; unfold_wrappers; [done|..];
    destruct (scheduleReply env _) as [h|e]; simpl;
    rewrite sumCounts_record; try lia;
    pose proof (size_add h (activeTimers st)); lia.
Qed.

Lemma activeWithinCalls_applyCancel (f : cancelFn) (timerId : N) :
  preserves activeWithinCalls (applyCancel env orig f timerId).
Proof.
  intros st HP. unfold activeWithinCalls in *.
  destruct f; unfold applyCancel; unfold_wrappers; [done|..];
    pose proof (size_remove timerId (activeTimers st)); lia.
Qed.

Lemma activeWithinCalls_perform (c : call) :
  preserves activeWithinCalls (perform env orig c).
Proof.
  destruct c as [[] cb delay|[] timerId]; unfold perform.
  - apply preserves_bind; [|intros; apply preserves_ret].
    intros st HP. by apply activeWithinCalls_applySched.
  - apply preserves_bind; [|intros; apply preserves_ret].
    intros st HP. by apply activeWithinCalls_applySched.
  - intros st HP. by apply activeWithinCalls_applyCancel.
  - intros st HP. by apply activeWithinCalls_applyCancel.
Qed.

Lemma activeWithinCalls_performAll (cs : list call) :
  preserves activeWithinCalls (performAll env orig cs).
Proof.
  induction cs as [|c cs IH]; [apply preserves_ret|].
  apply preserves_bind; [apply activeWithinCalls_perform|done].
Qed.

Lemma activeWithinCalls_consoleLog (line : message) :
  preserves activeWithinCalls (consoleLog env line).
Proof.
  intros st HP. unfold consoleLog. by destruct (logReply env _).
Qed.

Lemma activeWithinCalls_runProfilerStart :
  preserves activeWithinCalls (runProfilerStart env orig opts).
Proof.
  unfold runProfilerStart.
  repeat (apply preserves_bind; [|intros _]);
    first [apply activeWithinCalls_consoleLog
          |apply preserves_ret
          |intros st HP; exact HP
          |intros st HP; by apply activeWithinCalls_applySched].
Qed.

Lemma activeWithinCalls_runProfilerResume :
  preserves activeWithinCalls (runProfilerResume env orig opts).
Proof.
  unfold runProfilerResume.
  repeat (apply preserves_bind; [|intros _]);
    first [apply activeWithinCalls_consoleLog
          |intros st HP; exact HP
          |intros st HP; by apply activeWithinCalls_consoleLog].
Qed.

End ActiveSet.

(** X13 (the wrappers, [runProfiler]).  However the process ends, the
    active set holds at most as many handles as calls were recorded: each
    recorded call adds one handle at most, and nothing else adds one. *)
Theorem active_timers_within_recorded_calls (env : environment)
    (orig : originals) (opts : options) :
  activeWithinCalls (main env orig opts).2
  ∧ ∀ cs st, activeWithinCalls st →
      activeWithinCalls (performAll env orig cs st).2.
Proof.
  split; [|intros cs; apply activeWithinCalls_performAll].
  assert (H0 : activeWithinCalls (initialState orig)).
  { unfold activeWithinCalls, initialState. cbn [activeTimers timerStats].
    by rewrite size_empty. }
  unfold main. destruct (optHelp opts).
  { pose proof (activeWithinCalls_consoleLog env MsgHelp _ H0) as H.
    by destruct (consoleLog env MsgHelp (initialState orig)) as [[]]. }
  destruct (badOutput opts); [done|]. destruct (badDuration opts); [done|].
  unfold runProfiler.
  pose proof (activeWithinCalls_runProfilerStart env orig opts _ H0) as H1.
  destruct (runProfilerStart env orig opts (initialState orig)) as [[[]|e] st1];
    [|exact H1].
  cbn [snd] in H1.
  pose proof (activeWithinCalls_performAll env orig (window env) _ H1) as H2.
  destruct (performAll env orig (window env) st1) as [[[]|e] st2]; [|exact H2].
  cbn [snd] in H2.
  pose proof (activeWithinCalls_runProfilerResume env orig opts _ H2) as H3.
  destruct (runProfilerResume env orig opts st2) as [[[]|e] st3]; exact H3.
Qed.

(** ** The numbers of the command line *)

Section Numbers.







End Numbers.




(** ** The exits before the profiler runs *)

(** X16 (module body: [if (values.help)], [if (outputFormat !== 'table' &&
    outputFormat !== 'json')]).  With [--help] the help text is the only
    thing written and the process exits with status 0, whatever the other
    options are.  Otherwise a value of [--output] that is neither 'table'
    nor 'json' once lower-cased ends the process with status 1 and the one
    error line.  Neither exit has called a timer function, installed a
    wrapper or recorded anything.  Any other value, whatever its case,
    lets the profiler run. *)
Theorem configuration_exits_leave_no_trace (env : environment)
    (orig : originals) (opts : options) :
  let out := main env orig opts in
  (optHelp opts = true →
   global out.2 = hostBindings orig ∧ hostCalls out.2 = []
   ∧ timerStats out.2 = [] ∧ activeTimers out.2 = ∅ ∧ stderr out.2 = []
   ∧ match logReply env 0 with
     | Returns _ => out.1 = Exited 0 ∧ stdout out.2 = [MsgHelp]
     | Throws e => out.1 = Uncaught e ∧ stdout out.2 = []
     end)
  ∧ (optHelp opts = false →
     outputFormat opts ≠ js "table" → outputFormat opts ≠ js "json" →
     out.1 = Exited 1
     ∧ stderr out.2 = [MsgBadOutput] ∧ stdout out.2 = []
     ∧ global out.2 = hostBindings orig ∧ hostCalls out.2 = []
     ∧ timerStats out.2 = [] ∧ activeTimers out.2 = ∅)
  ∧ (optHelp opts = false →
     outputFormat opts = js "table" ∨ outputFormat opts = js "json" →
     out = runProfiler env orig opts (initialState orig))
  ∧ (optOutput opts = None → badOutput opts = false).
Proof.
  intros out. subst out. split_and!.
  - intros Hhelp. unfold main. rewrite Hhelp. unfold consoleLog. simpl.
    by destruct (logReply env 0).
  - intros Hhelp Ht Hj. unfold main, badOutput. rewrite Hhelp.
    apply eqb_neq in Ht, Hj. by rewrite Ht, Hj.
  - intros Hhelp Hfmt. apply main_runs; [done|]. unfold badOutput.
    destruct Hfmt as [->| ->]; by vm_compute.
  - unfold badOutput, outputFormat, valuesOutput. by intros ->.
Qed.

Lemma configuration_exits_leave_no_trace_witness :
  (runWithOutput "xml" true).1 = Exited 0
  ∧ stdout (runWithOutput "xml" true).2 = [MsgHelp]
  ∧ (runWithOutput "xml" false).1 = Exited 1
  ∧ stderr (runWithOutput "xml" false).2 = [MsgBadOutput]
  ∧ hostCalls (runWithOutput "xml" false).2 = []
  ∧ runWithOutput "JSON" false
    = runProfiler (answeringHost []) hostFns (outputGiven "JSON" false)
        (initialState hostFns).
Proof.
  unfold runWithOutput.
  destruct (configuration_exits_leave_no_trace (answeringHost []) hostFns
              (outputGiven "xml" true)) as (H1 & _).
  destruct (configuration_exits_leave_no_trace (answeringHost []) hostFns
              (outputGiven "xml" false)) as (_ & H2 & _).
  destruct (configuration_exits_leave_no_trace (answeringHost []) hostFns
              (outputGiven "JSON" false)) as (_ & _ & H3 & _).
  destruct (H1 eq_refl) as (_ & _ & _ & _ & _ & H1a & H1b).
  destruct H2 as (H2a & H2b & _ & _ & H2c & _);
    [reflexivity|by vm_compute|by vm_compute|].
  split_and!; [exact H1a|exact H1b|exact H2a|exact H2b|exact H2c|].
  apply H3; [reflexivity|right; by vm_compute].
Defined.

(** ** What the report shows of the map *)

Section Shown.

Lemma totalCalls_perm (l1 l2 : list stat) :
  l1 ≡ₚ l2 → totalCalls l1 = totalCalls l2.
Proof.
  induction 1 as [|x l1 l2 _ IH|x y l|l1 l2 l3 _ IH1 _ IH2].
  - done.
  - by rewrite !totalCalls_cons, IH.
  - rewrite !totalCalls_cons. lia.
  - congruence.
Qed.

Lemma totalCalls_take_drop (n : nat) (l : list stat) :
  totalCalls (take n l) + totalCalls (drop n l) = totalCalls l.
Proof. by rewrite <- totalCalls_app, take_drop. Qed.

Lemma totalCalls_positive (l : list stat) :
  Forall (λ s, 1 ≤ count s) l → l ≠ [] → 1 ≤ totalCalls l.
Proof.
  intros Hl Hne. destruct Hl as [|x l Hx _]; [done|].
  rewrite totalCalls_cons. lia.
Qed.

Lemma length_mapValues_recordAll (calls : list (timerType * option jsstring)) :
  length (mapValues (recordAll calls []))
  = length (firstOccurrences (signaturesOf calls)).
Proof.
  rewrite <- mapKeys_recordAll. unfold mapValues, mapKeys.
  by rewrite !length_map.
Qed.

End Shown.

(** X17 ([runProfiler]: sort, [slice(0, topCount)], and the total of the
    header).  The list shown has as many entries as there are distinct
    signatures, or [topCount] if that is less.  The total of the header,
    summed over the entries shown, never exceeds the number of intercepted
    calls, and equals it exactly when no signature is cut off; then the
    entries shown are all the records. *)
Theorem shown_total_against_all_calls
    (calls : list (timerType * option jsstring)) (opts : options) :
  let m := recordAll calls [] in
  let top := topCallSites (topCount opts) m in
  let distinct := length (firstOccurrences (signaturesOf calls)) in
  ∃ n, topCount opts = Some n
    ∧ length top = (Z.to_nat n `min` distinct)%nat
    ∧ totalCalls top ≤ N.of_nat (length calls)
    ∧ (totalCalls top = N.of_nat (length calls) ↔ (distinct ≤ Z.to_nat n)%nat)
    ∧ ((distinct ≤ Z.to_nat n)%nat → top ≡ₚ mapValues m).
Proof.
  intros m top distinct.
  destruct (topCount_positive opts) as (n & Hn & Hpos). exists n.
  subst top. unfold topCallSites. rewrite Hn. cbn [slice0].
  set (sorted := sortBy byCountDesc (mapValues m)).
  assert (Hperm : sorted ≡ₚ mapValues m) by apply sortBy_perm.
  assert (Hlen : length sorted = distinct).
  { rewrite Hperm. apply length_mapValues_recordAll. }
  assert (Htotal : totalCalls sorted = N.of_nat (length calls)).
  { rewrite (totalCalls_perm _ _ Hperm). fold (sumCounts m).
    unfold m. by rewrite sumCounts_recordAll. }
  assert (Hcounts : Forall (λ s, 1 ≤ count s) sorted).
  { rewrite Hperm. by apply recordAll_positive. }
  pose proof (totalCalls_take_drop (Z.to_nat n) sorted) as Hsplit.
  split_and!.
  - done.
  - rewrite length_take. lia.
  - lia.
  - split.
    + intros Heq. destruct (decide (distinct ≤ Z.to_nat n)%nat) as [|Hgt]; [done|].
      assert (1 ≤ totalCalls (drop (Z.to_nat n) sorted)); [|lia].
      apply totalCalls_positive.
      * by apply Forall_drop.
      * intros Hnil. apply (f_equal length) in Hnil.
        rewrite length_drop in Hnil. simpl in Hnil. lia.
    + intros Hle. by rewrite take_ge by lia.
  - intros Hle. by rewrite take_ge by lia.
Qed.

(** X18 ([formatTableOutput]).  The table has one row per entry, ranked
    1, 2, ... in the order of the list, with the entry's count and type;
    the 'Call Site' column is always 33 code units wide: the first 33
    units of the label, followed by spaces when the label is shorter.
    The frequency analysis has a line for each of the first five entries
    and no more, with the label in full.  The header's total is the sum
    over the entries of the list. *)
Theorem table_layout (dur : number) (active : gset N) (sites : list stat) :
  let t := formatTableOutput dur active sites in
  tableTotalCalls t = totalCalls sites
  ∧ tableActiveTimers t = size active
  ∧ length (tableRows t) = length sites
  ∧ length (tableFrequency t) = (5 `min` length sites)%nat
  ∧ (∀ i site, sites !! i = Some site →
       ∃ row, tableRows t !! i = Some row
         ∧ rowRank row = S i ∧ rowCount row = count site
         ∧ rowType row = type site
         ∧ length (rowSite row) = 33%nat
         ∧ rowSite row
           = take 33 (label site) ++ replicate (33 - length (label site)) 32)
  ∧ (∀ i line, tableFrequency t !! i = Some line →
       (i < 5)%nat ∧ freqRank line = S i
       ∧ ∃ site, sites !! i = Some site ∧ freqSite line = label site
           ∧ freqPercentage line = percentage 1 (count site) (totalCalls sites)).
Proof.
  intros t. subst t. unfold formatTableOutput. cbn. split_and!; try done.
  - by rewrite length_imap.
  - by rewrite length_imap, length_take.
  - intros i site Hi. rewrite list_lookup_imap, Hi.
    eexists. split; [reflexivity|]. cbn [rowRank rowCount rowType rowSite].
    fold (label site). split_and!; try reflexivity.
    + lia.
    + unfold fitTo. rewrite length_app, length_replicate, length_take. lia.
    + unfold fitTo. rewrite length_take. do 2 f_equal. lia.
  - intros i line Hi. rewrite list_lookup_imap in Hi.
    destruct (take 5 sites !! i) as [site|] eqn:E; [|done].
    apply lookup_take_Some in E as [E Hlt].
    cbn in Hi. injection Hi as <-. cbn.
    split_and!; [done|lia|]. by exists site.
Qed.

Section Labels.

Lemma totalCalls_top (top : number)
    (calls : list (timerType * option jsstring)) :
  totalCalls (topCallSites top (recordAll calls [])) ≤ N.of_nat (length calls).
Proof.
  unfold topCallSites, slice0.
  destruct top as [n|]; [|change (totalCalls []) with 0; lia].
  pose proof (totalCalls_take (Z.to_nat n)
                (sortBy byCountDesc (mapValues (recordAll calls [])))) as H.
  rewrite (totalCalls_perm _ _ (sortBy_perm _)) in H.
  fold (sumCounts (recordAll calls [])) in H.
  rewrite sumCounts_recordAll in H. change (sumCounts []) with 0 in H. lia.
Qed.

Lemma mapGet_member (m : statsMap) (k : jsstring) (r : stat) :
  NoDup (mapKeys m) → (k, r) ∈ m → mapGet k m = Some r.
Proof.
  unfold mapKeys. induction m as [|[k' r'] m IH]; intros Hnd Hin.
  - by apply elem_of_nil in Hin.
  - cbn [map fst] in Hnd. apply NoDup_cons in Hnd as [Hnotin Hnd].
    apply elem_of_cons in Hin as [[= <- <-]|Hin]; cbn [mapGet].
    + by rewrite eqb_refl.
    + destruct (JsString.eqb k' k) eqn:E; [|by apply IH].
      apply eqb_eq in E as ->. exfalso. apply Hnotin.
      apply list_elem_of_fmap. by exists (k, r).
Qed.

Lemma recorded_site (top : number)
    (calls : list (timerType * option jsstring)) (site : stat) :
  site ∈ topCallSites top (recordAll calls []) →
  keptUnder (signature site) site
  ∧ mapGet (signature site) (recordAll calls []) = Some site.
Proof.
  intros H. apply topCallSites_subset in H.
  unfold mapValues in H. apply list_elem_of_fmap in H as ([k r] & -> & Hin).
  pose proof (proj1 (Forall_forall _ _) (keptUnder_recordAll calls) _ Hin) as Hk.
  cbn [fst snd] in *. destruct Hk as (Hs & Hk). rewrite Hs.
  split; [by split|]. apply mapGet_member; [|done].
  rewrite mapKeys_recordAll. apply firstOccurrences_NoDup.
Qed.

End Labels.

(** X19 ([formatTableOutput]: [const bar = '█'.repeat(Math.floor(percentage
    / 2))]).  For at most 10^11 intercepted calls, every line of the
    frequency analysis has a percentage between 0.0 and 100.0 and a bar of
    [floor(percentage / 2)] blocks, between 0 and 50: the argument of
    [repeat] is never negative. *)
Theorem frequency_bars_fit (calls : list (timerType * option jsstring))
    (opts : options) (dur : number) (active : gset N) :
  let sites := topCallSites (topCount opts) (recordAll calls []) in
  let t := formatTableOutput dur active sites in
  N.of_nat (length calls) ≤ 10 ^ 11 →
  ∀ line, line ∈ tableFrequency t →
    ∃ p, freqPercentage line = Some p ∧ (0 ≤ p ≤ 1000)%Z
         ∧ freqBar line = Some (p / 20)%Z ∧ (0 ≤ p / 20 ≤ 50)%Z.
Proof.
  intros sites t Hmax line Hline. subst t. unfold formatTableOutput in Hline.
  cbn [tableFrequency] in Hline.
  apply list_elem_of_lookup in Hline as (i & Hi).
  rewrite list_lookup_imap in Hi.
  destruct (take 5 sites !! i) as [site|] eqn:E; [|done].
  apply lookup_take_Some in E as [E _]. cbn in Hi. injection Hi as <-.
  cbn [freqPercentage freqBar].
  assert (Hin : site ∈ sites) by by eapply list_elem_of_lookup_2.
  pose proof (totalCalls_elem _ _ Hin) as Hle.
  pose proof (totalCalls_top (topCount opts) calls) as Htot. fold sites in Htot.
  destruct (recorded_site _ _ _ Hin) as [(_ & _ & _ & Hpos) _].
  destruct (percentage_error 1 (count site) (totalCalls sites))
    as (p & -> & Herr); [lia|lia|lia|].
  exists p. cbn [fmap option_fmap option_map].
  unfold hundred in Herr. change (100 * 10 ^ Z.of_nat 1)%Z with 1000%Z in Herr.
  assert (Hp : (0 ≤ p ≤ 1000)%Z).
  { assert (Ht : (0 < Z.of_N (totalCalls sites))%Z) by lia.
    assert (Hc : (0 < Z.of_N (count site) ≤ Z.of_N (totalCalls sites))%Z) by lia.
    revert Herr Ht Hc. generalize (Z.of_N (totalCalls sites)) (Z.of_N (count site)).
    intros T C Herr Ht Hc.
    assert (H2 : (- T ≤ 2 * (p * T - C * 1000) ≤ T)%Z) by lia.
    split; nia. }
  split_and!; try done; try lia.
  - apply Z.div_pos; lia.
  - apply Z.div_le_upper_bound; lia.
Qed.

Lemma frequency_bars_fit_witness :
  let t := formatTableOutput (Some 2%Z) ∅
             (topCallSites (topCount noOptions) (recordAll fourSites [])) in
  Forall (λ line, ∃ p, freqPercentage line = Some p ∧ (0 ≤ p ≤ 1000)%Z
                       ∧ freqBar line = Some (p / 20)%Z ∧ (0 ≤ p / 20 ≤ 50)%Z)
    (tableFrequency t).
Proof.
  intros t. apply Forall_forall.
  apply (frequency_bars_fit fourSites noOptions (Some 2%Z) ∅).
  by_computation.
Defined.

(** X20 ([formatTableOutput]: [site.caller || site.signature], with
    [recordTimerCall] and [extractCallerInfo]).  The caller description of
    a record is never empty, so the label of every entry shown is its
    caller description and never its signature; and it is the caller found
    in the trace of the first call that fell under the signature. *)
Theorem label_is_the_first_caller
    (calls : list (timerType * option jsstring)) (opts : options) (site : stat) :
  site ∈ topCallSites (topCount opts) (recordAll calls []) →
  label site = caller site
  ∧ label site ≠ []
  ∧ ∃ first others,
      callsAt (signature site) calls = first :: others
      ∧ caller site = extractCallerInfo first.2
      ∧ count site = N.of_nat (length (first :: others)).
Proof.
  intros Hin. destruct (recorded_site _ _ _ Hin) as [(_ & _ & Hcaller & _) Hget].
  pose proof (extractCallerInfo_nonempty (stack site)) as Hne.
  rewrite <- Hcaller in Hne.
  assert (Hlabel : label site = caller site) by by apply orElse_nonempty.
  split_and!; [done|by rewrite Hlabel|].
  rewrite mapGet_recordAll in Hget.
  destruct (callsAt (signature site) calls) as [|first others]; [done|].
  exists first, others. injection Hget as <-. by split_and!.
Qed.

Lemma label_is_the_first_caller_witness :
  let other := Some (unlines [js "Error";
                              js "    at trackedSetTimeout (file:///app/p.js:194:16)";
                              js "    at poll (file:///app/main.js:7:3)"]) in
  let site := {| count := 2; type := SetTimeout;
                 signature := js "<unknown call site>";
                 stack := Some v8Trace;
                 caller := js "runProfiler (performance-profiler.js:384)" |} in
  label site = js "runProfiler (performance-profiler.js:384)".
Proof.
  intros other site.
  destruct (label_is_the_first_caller
              [(SetInterval, Some v8Trace); (SetTimeout, other)] noOptions site)
    as [H _].
  - vm_compute. by left.
  - exact H.
Defined.

(** X21 ([formatJsonOutput]).  In the JSON, [uniqueCallSites] is the
    number of distinct signatures among the intercepted calls, and
    [allCallSites] lists every one of them once, in the order of their
    first calls, with counts that add up to the number of calls;
    [topCallSites] repeats the entries shown with the ranks 1, 2, ...,
    and [totalCalls] is summed over these and never exceeds the number of
    calls. *)
Theorem json_report_contents (calls : list (timerType * option jsstring))
    (opts : options) (active : gset N) :
  let m := recordAll calls [] in
  let top := topCallSites (topCount opts) m in
  let j := formatJsonOutput (duration opts) active m top in
  jsonUniqueCallSites j = length (firstOccurrences (signaturesOf calls))
  ∧ signature <$> jsonAllCallSites j = firstOccurrences (signaturesOf calls)
  ∧ totalCalls (jsonAllCallSites j) = N.of_nat (length calls)
  ∧ jsonActiveTimers j = size active
  ∧ jsonTotalCalls j = totalCalls top
  ∧ jsonTotalCalls j ≤ N.of_nat (length calls)
  ∧ length (jsonTopCallSites j) = length top
  ∧ (∀ i site, top !! i = Some site →
       ∃ e, jsonTopCallSites j !! i = Some e
         ∧ jsonRank e = S i ∧ jsonSignature e = signature site
         ∧ jsonCaller e = caller site ∧ jsonType e = type site
         ∧ jsonCount e = count site).
Proof.
  intros m top j. subst j. unfold formatJsonOutput.
  cbn [jsonUniqueCallSites jsonAllCallSites jsonActiveTimers jsonTotalCalls
       jsonTopCallSites].
  split_and!.
  - rewrite <- mapKeys_recordAll. unfold mapKeys. by rewrite length_map.
  - rewrite <- mapKeys_recordAll. unfold mapKeys, mapValues. subst m.
    pose proof (keptUnder_recordAll calls) as Hk.
    induction Hk as [|[k r] l (Hs & _) _ IH]; [done|].
    cbn in *. by rewrite Hs, IH.
  - fold (sumCounts m). subst m. by rewrite sumCounts_recordAll.
  - done.
  - done.
  - apply totalCalls_top.
  - by rewrite length_imap.
  - intros i site Hi. rewrite list_lookup_imap, Hi.
    eexists. split; [reflexivity|].
    cbn [jsonRank jsonSignature jsonCaller jsonType jsonCount].
    split_and!; try reflexivity. lia.
Qed.

(** ** What a completed run has written and called *)

Section CompletedRun.

Context (env : environment) (orig : originals) (opts : options).

Lemma runProfilerStart_returns (st1 : state) :
  runProfilerStart env orig opts (initialState orig) = (Returns tt, st1) →
  stdout st1 = [MsgStarting (duration opts); MsgOutputFormat (outputFormat opts);
                MsgRecording]
  ∧ stderr st1 = []
  ∧ hostCalls st1 = ownCalls orig opts
  ∧ global st1 = trackedBindings.
Proof.
  unfold runProfilerStart, consoleLog, installWrappers, callSetInterval,
    callSetTimeout, modify, mbind, M_bind, mret, M_ret. simpl.
  destruct (logReply env 0%nat); [simpl|done].
  destruct (logReply env 1%nat); [simpl|done].
  destruct (logReply env 2%nat); [simpl|done].
  unfold_wrappers.
  destruct (scheduleReply env 0%nat) as [h1|]; [unfold_wrappers|done].
  destruct (scheduleReply env 1%nat) as [h2|]; [unfold_wrappers|done].
  destruct (scheduleReply env 2%nat) as [h3|]; [unfold_wrappers|done].
  destruct (scheduleReply env 3%nat) as [h4|]; [simpl|done].
  by intros [= <-].
Qed.

(** A call through the wrapped bindings reaches the matching original
    once, with the same arguments, and writes nothing. *)
Lemma perform_tracked_effects (c : call) (st : state) :
  global st = trackedBindings →
  let st' := (perform env orig c st).2 in
  hostCalls st' = hostCalls st ++ [delegated orig c]
  ∧ stdout st' = stdout st ∧ stderr st' = stderr st
  ∧ global st' = trackedBindings.
Proof.
  intros Hg.
  destruct c as [[] cb delay|[] timerId];
    unfold perform, callSetTimeout, callSetInterval, callClearTimeout,
      callClearInterval, mbind, M_bind; rewrite Hg; unfold_wrappers;
    try (by destruct (scheduleReply env _)); done.
Qed.

Lemma performAll_tracked_effects (cs : list call) (st st' : state) :
  global st = trackedBindings →
  performAll env orig cs st = (Returns tt, st') →
  hostCalls st' = hostCalls st ++ (delegated orig <$> cs)
  ∧ stdout st' = stdout st ∧ stderr st' = stderr st.
Proof.
  revert st. induction cs as [|c cs IH]; intros st Hg; cbn [performAll].
  - intros [= <-]. by rewrite app_nil_r.
  - unfold mbind, M_bind.
    destruct (perform_tracked_effects c st Hg) as (Hc & Ho & He & Hg').
    destruct (perform env orig c st) as [[[]|e] st1]; [|done].
    cbn [snd] in *. intros H. apply IH in H as (H1 & H2 & H3); [|done].
    rewrite H1, H2, H3, Hc, Ho, He. by rewrite <- app_assoc.
Qed.

Lemma runProfilerResume_returns (st2 st3 : state) :
  runProfilerResume env orig opts st2 = (Returns tt, st3) →
  stdout st3 = stdout st2 ++ [MsgReport (report opts st3); MsgComplete]
  ∧ stderr st3 = stderr st2
  ∧ hostCalls st3 = hostCalls st2.
Proof.
  unfold runProfilerResume, restoreOriginals, consoleLog, modify, mbind, M_bind.
  simpl. destruct (logReply env _); [|done].
  simpl. destruct (logReply env _); [|done].
  intros [= <-]. simpl. by rewrite <- app_assoc.
Qed.

End CompletedRun.

(** X22 ([runProfiler] and the module body).  A run that completes has
    written five lines to the standard output, the fourth being the
    report of the final statistics, and nothing to the error stream.  The
    original timer functions have received the profiler's own four
    scheduling calls and then, in order, one call for each call made
    through the bindings during the window, with the same arguments:
    nothing else, so the profiler itself never cancels a timer, its own
    three included. *)
Theorem completed_run_output_and_host_calls (env : environment)
    (orig : originals) (opts : options) (st : state) :
  main env orig opts = (Completed, st) →
  stdout st = [MsgStarting (duration opts); MsgOutputFormat (outputFormat opts);
               MsgRecording; MsgReport (report opts st); MsgComplete]
  ∧ stderr st = []
  ∧ hostCalls st = ownCalls orig opts ++ (delegated orig <$> window env)
  ∧ optHelp opts = false
  ∧ (outputFormat opts = js "table" ∨ outputFormat opts = js "json").
Proof.
  unfold main. destruct (optHelp opts) eqn:Hhelp.
  { by destruct (consoleLog env MsgHelp (initialState orig)) as [[]]. }
  destruct (badOutput opts) eqn:Hout; [done|].
  destruct (badDuration opts); [done|]. unfold runProfiler.
  destruct (runProfilerStart env orig opts (initialState orig))
    as [[[]|e] st1] eqn:E1; [|done].
  apply runProfilerStart_returns in E1 as (Ho1 & He1 & Hc1 & Hg1).
  destruct (performAll env orig (window env) st1) as [[[]|e] st2] eqn:E2; [|done].
  apply performAll_tracked_effects in E2 as (Hc2 & Ho2 & He2); [|done].
  destruct (runProfilerResume env orig opts st2) as [[[]|e] st3] eqn:E3; [|done].
  apply runProfilerResume_returns in E3 as (Ho3 & He3 & Hc3).
  intros [= <-]. split_and!.
  - by rewrite Ho3, Ho2, Ho1.
  - by rewrite He3, He2.
  - by rewrite Hc3, Hc2, Hc1.
  - done.
  - unfold badOutput in Hout. apply andb_false_iff in Hout as [H|H];
      apply negb_false_iff, eqb_eq in H; [by left|by right].
Qed.

Lemma completed_run_output_and_host_calls_witness :
  let env := answeringHost [Schedule SetInterval CbEmpty (Some 100%Z);
                            Cancel SetTimeout 102] in
  hostCalls (main env hostFns noOptions).2
  = [HostSchedule 2 CbEmpty (Some 500%Z); HostSchedule 2 CbEmpty (Some 250%Z);
     HostSchedule 1 CbSpawnInterval (Some 100%Z);
     HostSchedule 1 CbResolve (Some 2000%Z);
     HostSchedule 2 CbEmpty (Some 100%Z); HostCancelCall 3 102].
Proof.
  intros env.
  destruct (main env hostFns noOptions) as [r st] eqn:E.
  assert (r = Completed) as -> by (vm_compute in E; by inversion E).
  cbn [snd].
  by destruct (completed_run_output_and_host_calls env hostFns noOptions st E)
    as (_ & _ & -> & _).
Defined.

(** ** The console snippet *)

Section SnippetMap.

Lemma siteGet_app (k : jsstring) (m1 m2 : siteMap) :
  siteGet k (m1 ++ m2) =
  match siteGet k m1 with Some v => Some v | None => siteGet k m2 end.
Proof.
  induction m1 as [|[k' v] m1 IH]; [done|]. simpl.
  by destruct (JsString.eqb k' k).
Qed.

Lemma siteGet_mutate (k k' : jsstring) (f : siteStat → siteStat) (m : siteMap) :
  siteGet k' (siteMutate k f m) =
  if JsString.eqb k k' then f <$> siteGet k' m else siteGet k' m.
Proof.
  induction m as [|[k0 v] m IH]; simpl.
  - by destruct (JsString.eqb k k').
  - destruct (JsString.eqb k0 k) eqn:E0.
    + apply eqb_eq in E0 as ->. simpl.
      destruct (JsString.eqb k k') eqn:E; [done|]. done.
    + simpl. destruct (JsString.eqb k0 k') eqn:E1; [|done].
      apply eqb_eq in E1 as ->.
      destruct (JsString.eqb k k') eqn:E; [|done].
      apply eqb_eq in E as ->. by rewrite eqb_refl in E0.
Qed.

Lemma recordTimer_same (ty : timerType) (stk : option jsstring) (m : siteMap) :
  siteGet (extractCallSite stk) (recordTimer ty stk m) =
  match siteGet (extractCallSite stk) m with
  | Some r => Some {| siteCount := siteCount r + 1; siteType := ty;
                      site := site r; siteStack := siteStack r |}
  | None => Some {| siteCount := 1; siteType := ty;
                    site := extractCallSite stk; siteStack := stk |}
  end.
Proof.
  unfold recordTimer, siteHas.
  destruct (siteGet (extractCallSite stk) m) as [r|] eqn:E.
  - by rewrite siteGet_mutate, eqb_refl, E.
  - rewrite siteGet_app, E. simpl. by rewrite eqb_refl.
Qed.

Lemma recordTimer_other (ty : timerType) (stk : option jsstring) (m : siteMap)
    (k : jsstring) :
  k ≠ extractCallSite stk →
  siteGet k (recordTimer ty stk m) = siteGet k m.
Proof.
  intros Hne. unfold recordTimer, siteHas.
  assert (JsString.eqb (extractCallSite stk) k = false) as Hb
    by (apply eqb_neq; congruence).
  destruct (siteGet (extractCallSite stk) m) as [r|] eqn:E.
  - by rewrite siteGet_mutate, Hb.
  - rewrite siteGet_app. destruct (siteGet k m); [done|]. simpl. by rewrite Hb.
Qed.

Lemma recordTimerAll_snoc (calls : list (timerType * option jsstring))
    (c : timerType * option jsstring) (m : siteMap) :
  recordTimerAll (calls ++ [c]) m = recordTimer c.1 c.2 (recordTimerAll calls m).
Proof. unfold recordTimerAll. by rewrite foldl_app. Qed.

Lemma siteGet_recordTimerAll
    (calls : list (timerType * option jsstring)) (s : jsstring) :
  siteGet s (recordTimerAll calls []) =
  match sitesAt s calls with
  | [] => None
  | first :: others =>
      Some {| siteCount := N.of_nat (length (first :: others));
              siteType := (List.last others first).1;
              site := s;
              siteStack := first.2 |}
  end.
Proof.
  induction calls as [|c calls IH] using rev_ind; [done|].
  rewrite recordTimerAll_snoc. unfold sitesAt in *. rewrite filter_app.
  destruct (decide (extractCallSite c.2 = s)) as [<-|Hc].
  - rewrite filter_cons_True, filter_nil by done.
    rewrite recordTimer_same, IH.
    destruct (filter _ calls) as [|first others]; [done|].
    cbn [app]. rewrite last_last, !length_cons, length_app.
    cbn [length]. do 2 f_equal. cbn [siteCount]. lia.
  - rewrite filter_cons_False, filter_nil, app_nil_r by done.
    by rewrite recordTimer_other.
Qed.

Lemma resultsTotal_from (a : N) (l : list siteStat) :
  foldl (λ sum s, sum + siteCount s) a l = a + resultsTotal l.
Proof.
  unfold resultsTotal. revert a. induction l as [|x l IH]; intros a; simpl.
  - lia.
  - rewrite IH, (IH (0 + siteCount x)). lia.
Qed.

Lemma resultsTotal_cons (x : siteStat) (l : list siteStat) :
  resultsTotal (x :: l) = siteCount x + resultsTotal l.
Proof. unfold resultsTotal at 1. simpl. by rewrite resultsTotal_from. Qed.

Lemma resultsTotal_app (l1 l2 : list siteStat) :
  resultsTotal (l1 ++ l2) = resultsTotal l1 + resultsTotal l2.
Proof.
  induction l1 as [|x l1 IH]; [done|].
  rewrite <- app_comm_cons, !resultsTotal_cons, IH. lia.
Qed.

Lemma sumSiteCounts_record (ty : timerType) (stk : option jsstring)
    (m : siteMap) :
  sumSiteCounts (recordTimer ty stk m) = sumSiteCounts m + 1.
Proof.
  unfold recordTimer, siteHas, sumSiteCounts.
  destruct (siteGet (extractCallSite stk) m) as [r|] eqn:E.
  - revert E. generalize (extractCallSite stk). intros key.
    induction m as [|[k v] m IH]; [done|]. simpl.
    destruct (JsString.eqb k key).
    + intros [= ->]. simpl. rewrite !resultsTotal_cons. simpl. lia.
    + intros H. simpl. rewrite !resultsTotal_cons, IH by done. lia.
  - rewrite map_app, resultsTotal_app. done.
Qed.

Lemma countsPositive_record (ty : timerType) (stk : option jsstring)
    (m : siteMap) :
  Forall (λ r, 1 ≤ siteCount r) (map snd m) →
  Forall (λ r, 1 ≤ siteCount r) (map snd (recordTimer ty stk m)).
Proof.
  intros H. unfold recordTimer. destruct (siteHas _ _).
  - generalize (extractCallSite stk). intros key.
    induction m as [|[k v] m IH]; [done|]. simpl in *.
    inversion H as [|? ? Hv Hm]; subst.
    destruct (JsString.eqb k key); simpl; constructor; try done.
    + simpl. lia.
    + by apply IH.
  - rewrite map_app. apply Forall_app. split; [done|].
    by repeat constructor.
Qed.

Lemma insertBy_perm_any {A} (cmp : A → A → Z) (x : A) (l : list A) :
  insertBy cmp x l ≡ₚ x :: l.
Proof.
  induction l as [|y l IH]; [done|]. simpl.
  destruct (0 <? cmp x y)%Z; [|done].
  rewrite IH. apply Permutation_swap.
Qed.

Lemma sortBy_perm_any {A} (cmp : A → A → Z) (l : list A) : sortBy cmp l ≡ₚ l.
Proof.
  induction l as [|x l IH]; [done|].
  unfold sortBy in *. simpl. by rewrite insertBy_perm_any, IH.
Qed.

End SnippetMap.

(** X23 (console snippet: [recordTimer]).  The snippet aggregates as the
    CLI profiler does, under the sites of its own extraction function: for
    any sequence of calls, the record of a site counts the calls put under
    it, has the type of the last of them and keeps the stack of the first;
    a site under which no call was put has no record. *)
Theorem snippet_counts_calls_per_site
    (calls : list (timerType * option jsstring)) (s : jsstring) :
  let mine := sitesAt s calls in
  (mine = [] ↔ siteGet s (recordTimerAll calls []) = None)
  ∧ (∀ first others, mine = first :: others →
       ∃ r, siteGet s (recordTimerAll calls []) = Some r
            ∧ siteCount r = N.of_nat (length mine)
            ∧ Some (siteType r) = fst <$> last mine
            ∧ siteStack r = first.2
            ∧ site r = s).
Proof.
  intros mine. subst mine. rewrite siteGet_recordTimerAll.
  destruct (sitesAt s calls) as [|c0 rest]; split; try done.
  intros first others [= <- <-]. eexists. split; [reflexivity|].
  cbn [siteCount siteType siteStack site]. split_and!; try done.
  by rewrite <- last_default_cons.
Qed.

Section SnippetRun.

Context (env : environment) (orig : originals).

Lemma snippetBody_returns (pg1 : page) :
  snippetBody env orig (freshPage orig) = (Returns tt, pg1) →
  (∃ h, scheduleReply env 0 = Returns h ∧ activeIds pg1 = {[h]})
  ∧ siteStats pg1 = recordTimer SetTimeout (errorStack env 0) []
  ∧ pageCalls pg1
    = [PageSchedule (originalSetTimeout orig) CbReport (Some 5000%Z)]
  ∧ bindings pg1 = trackedBindings
  ∧ consoleLines pg1 = [LineStarted].
Proof.
  unfold snippetBody, log, windowSetTimeout, update, mbind, P_bind, mret, P_ret.
  simpl. destruct (logReply env 0%nat); [simpl|done].
  unfold_snippet.
  destruct (scheduleReply env 0%nat) as [h|]; [simpl|done].
  intros [= <-]. simpl. split_and!; try done.
  exists h. split; [done|]. apply set_eq. intros x.
  rewrite elem_of_union, elem_of_empty. tauto.
Qed.

(** A call of the page through the snippet's wrappers reaches the
    matching original once, with the same arguments, and writes nothing;
    a scheduling call is counted once. *)
Lemma pagePerform_wrapped (c : call) (pg : page) :
  bindings pg = trackedBindings →
  let pg' := (pagePerform env orig c pg).2 in
  pageCalls pg' = pageCalls pg ++ [pageDelegated orig c]
  ∧ consoleLines pg' = consoleLines pg
  ∧ bindings pg' = trackedBindings
  ∧ sumSiteCounts (siteStats pg') = sumSiteCounts (siteStats pg) + scheduled [c]
  ∧ (countsPositive pg → countsPositive pg').
Proof.
  intros Hg.
  destruct c as [[] cb delay|[] timerId];
    unfold pagePerform, windowSetTimeout, windowSetInterval,
      windowClearTimeout, windowClearInterval, mbind, P_bind, countsPositive;
    rewrite Hg; unfold_snippet.
  - destruct (scheduleReply env _); simpl; rewrite sumSiteCounts_record;
      split_and!; try done; apply countsPositive_record.
  - destruct (scheduleReply env _); simpl; rewrite sumSiteCounts_record;
      split_and!; try done; apply countsPositive_record.
  - split_and!; try done. lia.
  - split_and!; try done. lia.
Qed.

Lemma pagePerformAll_wrapped (cs : list call) (pg pg' : page) :
  bindings pg = trackedBindings →
  pagePerformAll env orig cs pg = (Returns tt, pg') →
  pageCalls pg' = pageCalls pg ++ (pageDelegated orig <$> cs)
  ∧ consoleLines pg' = consoleLines pg
  ∧ bindings pg' = trackedBindings
  ∧ sumSiteCounts (siteStats pg') = sumSiteCounts (siteStats pg) + scheduled cs
  ∧ (countsPositive pg → countsPositive pg').
Proof.
  revert pg. induction cs as [|c cs IH]; intros pg Hg; cbn [pagePerformAll].
  - intros [= <-]. rewrite app_nil_r. split_and!; try done. simpl. lia.
  - unfold mbind, P_bind.
    destruct (pagePerform_wrapped c pg Hg) as (Hc & Hl & Hg' & Hs & Hp).
    destruct (pagePerform env orig c pg) as [[[]|e] pg1]; [|done].
    cbn [snd] in *. intros H. apply IH in H as (H1 & H2 & H3 & H4 & H5); [|done].
    split_and!.
    + by rewrite H1, Hc, <- app_assoc.
    + congruence.
    + done.
    + rewrite H4, Hs. simpl. destruct c; lia.
    + intros H. by apply H5, Hp.
Qed.

Lemma logAll_returns (lines : list consoleLine) (pg pg' : page) :
  logAll env lines pg = (Returns tt, pg') →
  consoleLines pg' = consoleLines pg ++ lines
  ∧ bindings pg' = bindings pg ∧ siteStats pg' = siteStats pg
  ∧ activeIds pg' = activeIds pg ∧ pageCalls pg' = pageCalls pg.
Proof.
  revert pg. induction lines as [|l lines IH]; intros pg; cbn [logAll].
  - intros [= <-]. by rewrite app_nil_r.
  - unfold mbind, P_bind, log.
    destruct (logReply env _); [|done].
    intros H. apply IH in H as (H1 & H2 & H3 & H4 & H5).
    simpl in *. by rewrite H1, <- app_assoc.
Qed.

Lemma reportCallback_returns (pg pg' : page) :
  reportCallback env orig pg = (Returns tt, pg') →
  bindings pg' = hostBindings orig
  ∧ consoleLines pg' = consoleLines pg ++ reportLines pg'
  ∧ siteStats pg' = siteStats pg ∧ activeIds pg' = activeIds pg
  ∧ pageCalls pg' = pageCalls pg.
Proof.
  unfold reportCallback, writeReport, update, mbind, P_bind.
  intros H. apply logAll_returns in H as (H1 & H2 & H3 & H4 & H5).
  simpl in *. split_and!; try done.
  rewrite H1. f_equal. unfold reportLines. by rewrite H3, H4.
Qed.

Lemma results_positive (m : siteMap) :
  Forall (λ r, 1 ≤ siteCount r) (map snd m) → m ≠ [] →
  results m ≠ [] ∧ 1 ≤ resultsTotal (results m).
Proof.
  intros Hpos Hne. unfold results.
  pose proof (sortBy_perm_any bySiteCountDesc (map snd m)) as Hperm.
  rewrite <- Hperm in Hpos.
  destruct (sortBy bySiteCountDesc (map snd m)) as [|x l] eqn:E.
  - apply Permutation_nil_l in Hperm. by destruct m.
  - cbn [take]. split; [done|]. rewrite resultsTotal_cons.
    inversion Hpos; subst. lia.
Qed.

End SnippetRun.

(** X24 (console snippet: [setTimeout(() => { ... }, 5000)] after the
    wrappers are installed).  The snippet sets the timer of its report
    through [window.setTimeout], which by then is its own wrapper: unlike
    the CLI profiler's wait, this call is recorded (one [setTimeout] call
    under the site of the snippet itself) and its handle is in the active
    set.  So a report never counts zero calls: the counts add up to one
    more than the page's scheduling calls, the list of results is not
    empty, its total is at least 1 and every percentage is a number. *)
Theorem snippet_counts_its_own_timer (env : environment) (orig : originals)
    (pg1 : page) :
  snippetBody env orig (freshPage orig) = (Returns tt, pg1) →
  (∃ h, scheduleReply env 0 = Returns h ∧ activeIds pg1 = {[h]})
  ∧ siteStats pg1
    = [(extractCallSite (errorStack env 0),
        {| siteCount := 1; siteType := SetTimeout;
           site := extractCallSite (errorStack env 0);
           siteStack := errorStack env 0 |})]
  ∧ pageCalls pg1
    = [PageSchedule (originalSetTimeout orig) CbReport (Some 5000%Z)]
  ∧ bindings pg1 = trackedBindings
  ∧ (∀ pg, snippet env orig (freshPage orig) = (Reported, pg) →
       sumSiteCounts (siteStats pg) = 1 + scheduled (window env)
       ∧ results (siteStats pg) ≠ []
       ∧ 1 ≤ resultsTotal (results (siteStats pg))
       ∧ ∀ l p, l ∈ consoleLines pg → linePercentage l = Some p → p ≠ None).
Proof.
  intros Hbody.
  destruct (snippetBody_returns env orig pg1 Hbody)
    as (Hh & Hstats & Hcalls & Hg & Hlines).
  split_and!; try done.
  intros pg. unfold snippet. rewrite Hbody.
  destruct (pagePerformAll env orig (window env) pg1) as [[[]|e] pg2] eqn:E2;
    [|done].
  apply pagePerformAll_wrapped in E2 as (_ & Hl2 & _ & Hsum & Hpos); [|done].
  destruct (reportCallback env orig pg2) as [[[]|e] pg3] eqn:E3; [|done].
  apply reportCallback_returns in E3 as (_ & Hl3 & Hs3 & _ & _).
  intros [= <-].
  assert (Hsum3 : sumSiteCounts (siteStats pg3) = 1 + scheduled (window env)).
  { rewrite Hs3, Hsum, Hstats. unfold recordTimer. simpl.
    unfold sumSiteCounts, resultsTotal. simpl. lia. }
  assert (Hpos3 : countsPositive pg3).
  { unfold countsPositive. rewrite Hs3. apply Hpos.
    unfold countsPositive. rewrite Hstats. by repeat constructor. }
  assert (Hne : siteStats pg3 ≠ []).
  { intros Hnil. rewrite Hnil in Hsum3. unfold sumSiteCounts, resultsTotal in Hsum3.
    simpl in Hsum3. lia. }
  destruct (results_positive (siteStats pg3) Hpos3 Hne) as [Hres Htot].
  split_and!; try done.
  intros l p Hl Hp. rewrite Hl3, Hl2, Hlines in Hl. unfold reportLines in Hl.
  rewrite !elem_of_app in Hl.
  destruct Hl as [Hl|[Hl|[Hl|Hl]]].
  - apply list_elem_of_singleton in Hl as ->. done.
  - repeat (apply elem_of_cons in Hl as [->|Hl]; [done|]).
    by apply elem_of_nil in Hl.
  - unfold resultLines in Hl. apply list_elem_of_lookup in Hl as (i & Hi).
    rewrite list_lookup_imap in Hi.
    destruct (results (siteStats pg3) !! i) as [r|]; [|done].
    cbn in Hi. injection Hi as <-. cbn in Hp. injection Hp as <-.
    unfold percentage.
    destruct (resultsTotal (results (siteStats pg3)) =? 0) eqn:E; [|done].
    apply N.eqb_eq in E. lia.
  - repeat (apply elem_of_cons in Hl as [->|Hl]; [done|]).
    by apply elem_of_nil in Hl.
Qed.

Lemma snippet_counts_its_own_timer_witness :
  let pg1 := (snippetBody (answeringPage []) hostFns (freshPage hostFns)).2 in
  siteStats pg1
  = [(js "main.js:7 (poll)",
      {| siteCount := 1; siteType := SetTimeout; site := js "main.js:7 (poll)";
         siteStack := errorStack (answeringPage []) 0 |})]
  ∧ pageCalls pg1 = [PageSchedule 1 CbReport (Some 5000%Z)].
Proof.
  destruct (snippetBody (answeringPage []) hostFns (freshPage hostFns))
    as [r pg1] eqn:E.
  assert (r = Returns tt) as -> by (vm_compute in E; by inversion E).
  destruct (snippet_counts_its_own_timer (answeringPage []) hostFns pg1 E)
    as (_ & Hstats & Hcalls & _).
  cbn [snd]. split; [|exact Hcalls].
  rewrite Hstats. by vm_compute.
Defined.

(** X25 (console snippet: the callback of its timer).  When the report
    has been written, the four bindings of [window] are the captured
    originals again; the console holds the starting line and then the
    report of the final statistics, with at most 20 results; and the
    originals have received the snippet's one scheduling call and then, in
    order, one call for each call the page made, with the same
    arguments. *)
Theorem snippet_restores_and_reports (env : environment) (orig : originals)
    (pg : page) :
  snippet env orig (freshPage orig) = (Reported, pg) →
  bindings pg = hostBindings orig
  ∧ consoleLines pg = LineStarted :: reportLines pg
  ∧ (length (results (siteStats pg)) ≤ 20)%nat
  ∧ pageCalls pg
    = PageSchedule (originalSetTimeout orig) CbReport (Some 5000%Z)
      :: (pageDelegated orig <$> window env).
Proof.
  unfold snippet.
  destruct (snippetBody env orig (freshPage orig)) as [[[]|e] pg1] eqn:E1; [|done].
  apply snippetBody_returns in E1 as (_ & _ & Hcalls & Hg & Hlines).
  destruct (pagePerformAll env orig (window env) pg1) as [[[]|e] pg2] eqn:E2;
    [|done].
  apply pagePerformAll_wrapped in E2 as (Hc2 & Hl2 & _ & _ & _); [|done].
  destruct (reportCallback env orig pg2) as [[[]|e] pg3] eqn:E3; [|done].
  apply reportCallback_returns in E3 as (Hg3 & Hl3 & _ & _ & Hc3).
  intros [= <-]. split_and!.
  - done.
  - by rewrite Hl3, Hl2, Hlines.
  - unfold results. rewrite length_take. lia.
  - by rewrite Hc3, Hc2, Hcalls.
Qed.

Lemma snippet_restores_and_reports_witness :
  let env := answeringPage [Schedule SetInterval CbEmpty (Some 100%Z);
                            Cancel SetTimeout 101] in
  bindings (snippet env hostFns (freshPage hostFns)).2 = hostBindings hostFns
  ∧ pageCalls (snippet env hostFns (freshPage hostFns)).2
    = [PageSchedule 1 CbReport (Some 5000%Z);
       PageSchedule 2 (CbPage CbEmpty) (Some 100%Z); PageCancel 3 101].
Proof.
  intros env.
  destruct (snippet env hostFns (freshPage hostFns)) as [r pg] eqn:E.
  assert (r = Reported) as -> by (vm_compute in E; by inversion E).
  destruct (snippet_restores_and_reports env hostFns pg E) as (H1 & _ & _ & H2).
  by split.
Defined.

(** X26 (console snippet's [recordTimer] against the CLI profiler's
    [recordTimerCall]).  The two aggregate alike: over a sequence of calls
    on which the two extraction functions give the same text, the two maps
    have records under the same keys, with the same counts, types and
    stacks. *)
Theorem snippet_map_agrees_with_cli_map
    (calls : list (timerType * option jsstring)) (s : jsstring) :
  forallb (λ c, JsString.eqb (extractCallSite c.2) (extractCallSiteSignature c.2))
    calls = true →
  match siteGet s (recordTimerAll calls []), mapGet s (recordAll calls []) with
  | Some r, Some r' =>
      siteCount r = count r' ∧ siteType r = type r' ∧ site r = signature r'
      ∧ siteStack r = stack r'
  | None, None => True
  | _, _ => False
  end.
Proof.
  intros H. apply Is_true_true_2, forallb_True in H.
  rewrite siteGet_recordTimerAll, mapGet_recordAll.
  replace (sitesAt s calls) with (callsAt s calls).
  - by destruct (callsAt s calls).
  - unfold sitesAt, callsAt. induction H as [|c calls Hc _ IH]; [done|].
    apply Is_true_true_1, eqb_eq in Hc.
    rewrite !filter_cons, IH, Hc.
    by destruct (decide (extractCallSiteSignature c.2 = s)).
Qed.

Lemma snippet_map_agrees_with_cli_map_witness :
  match siteGet (js "a.js:1") (recordTimerAll fourSites []),
        mapGet (js "a.js:1") (recordAll fourSites []) with
  | Some r, Some r' => siteCount r = 2 ∧ count r' = 2
  | _, _ => False
  end.
Proof.
  generalize (snippet_map_agrees_with_cli_map fourSites (js "a.js:1")).
  vm_compute. intros H. destruct (H eq_refl) as (_ & _ & _ & _). by split.
Defined.
